(** * Loose-object codec and store of the [git] package: a shallow embedding

    The development follows the Go sources: [type.go] (object types and
    framing header), [writer.go] (object writer and the pretty-tree
    encoder), the reader file (object reader and the pretty-tree decoder)
    and the store file (disk-backed and in-memory stores).

    Conventions.
    - A Go [[]byte] is a [list byte]; a Go [string] is a [string].
    - Go's [int] is modelled by [Z]; the 64-bit range is written out where
      the code depends on it ([strconv.Atoi], [len]).
    - A Go panic is the [Panic] constructor of [result]; an [error] value
      is an inhabitant of [error], returned next to the ordinary results
      exactly as the Go functions do.
    - A loop of the code is a [Fixpoint] on a fuel argument; its caller
      passes enough fuel for the loop to end on its own, and the
      [ErrNoProgress] of an exhausted fuel is never the answer of a read
      of [bufio.Reader], of [treeWriter.Write] or of [treeReader.Read]
      (the lemmas on each loop show it); [io.Copy] takes its fuel from
      the statement that uses it.
    - Temporary files and byte buffers do not fail while they are open:
      of the I/O error branches of the code, the model has those of a
      closed file or stream and those of the object directory (missing,
      existing, not a directory). *)

From Stdlib Require Import ZArith List String Ascii Lia Bool.
From Stdlib.Strings Require Import Byte.
From stdpp Require Import base gmap strings list fin_maps.
Import ListNotations.

Local Open Scope Z_scope.

(* ===================================================================== *)
(** * Part I: definitions                                                 *)
(* ===================================================================== *)

(** ** Results, panics and errors *)

Inductive result (A : Type) : Type :=
| Ret (a : A)
| Panic (msg : string).
Arguments Ret {A} a.
Arguments Panic {A} msg.

#[global] Instance result_ret : MRet result := @Ret.
#[global] Instance result_bind : MBind result := fun A B k r =>
  match r with
  | Ret a => k a
  | Panic m => Panic m
  end.

(** The error values the package and the library calls it makes can
    return. *)
Inductive error : Type :=
| EOF                                   (* io.EOF *)
| ErrBufferFull                         (* bufio.ErrBufferFull *)
| ErrNoProgress                         (* io.ErrNoProgress *)
| ErrClosed                             (* os.ErrClosed, write on a closed stream *)
| ErrHeaderAlreadyWritten               (* "Header already written." *)
| ErrMustCallWriteHeader                (* "Must call WriteHeader before calling Write." *)
| ErrInvalidByte (b : byte)             (* hex.InvalidByteError *)
| ErrLength                             (* hex.ErrLength *)
| ErrSyntax                             (* strconv.ErrSyntax *)
| ErrRange                              (* strconv.ErrRange *)
| ErrZlib                               (* zlib: invalid stream *)
| ErrAmbiguous (hash : string)          (* "ambigious hash " + hash *)
| ErrDoesNotExist (hash : string)       (* "object hash %s does not exist" *)
| ErrObjectExists (hash : string)       (* "object with hash %s exists" *)
| ErrOsNotExist (path : list string)    (* os: ENOENT *)
| ErrOsExist (path : list string)       (* os: EEXIST *)
| ErrOsIsDir (path : list string)       (* os: EISDIR on read *)
| ErrOsNotDir (path : list string).     (* os: ENOTDIR *)

(** ** Bytes *)

Definition byte_of_Z (z : Z) : byte :=
  match Byte.of_N (Z.to_N (z mod 256)) with
  | Some b => b
  | None => x00
  end.

Definition Z_of_byte (b : byte) : Z := Z.of_N (Byte.to_N b).

Definition bytes (s : string) : list byte := list_byte_of_string s.

Definition SP : byte := x20.
Definition NUL : byte := x00.
Definition TAB : byte := x09.
Definition LF : byte := x0a.

Fixpoint IndexByte (s : list byte) (c : byte) : option nat :=
  match s with
  | [] => None
  | x :: s' => if Byte.eqb x c then Some O
               else option_map S (IndexByte s' c)
  end.

Fixpoint bytes_Equal (a b : list byte) : bool :=
  match a, b with
  | [], [] => true
  | x :: a', y :: b' => Byte.eqb x y && bytes_Equal a' b'
  | _, _ => false
  end.

(** ** [encoding/hex] *)

Module hex.

Definition hextable : list byte := bytes "0123456789abcdef".

Definition digit (n : Z) : byte := nth (Z.to_nat n) hextable x00.

Definition encode_byte (v : byte) : list byte :=
  [digit (Z.shiftr (Z_of_byte v) 4); digit (Z.land (Z_of_byte v) 15)].

Definition encoded (src : list byte) : list byte :=
  flat_map encode_byte src.

(** [hex.Encode(dst, src)]: writes two characters per source byte into
    the front of [dst]; indexing past the end of [dst] panics. *)
Definition Encode (dst src : list byte) : result (list byte * nat) :=
  let n := (2 * length src)%nat in
  if (length dst <? n)%nat then Panic "index out of range"
  else Ret (encoded src ++ skipn n dst, n).

(** [fmt.Sprintf("%x", b)] and [hex.EncodeToString]. *)
Definition EncodeToString (src : list byte) : string :=
  string_of_list_byte (encoded src).

(** [fromHexChar]: both cases of the letters are accepted. *)
Definition fromHexChar (c : byte) : option Z :=
  let z := Z_of_byte c in
  if (48 <=? z) && (z <=? 57) then Some (z - 48)
  else if (97 <=? z) && (z <=? 102) then Some (z - 97 + 10)
  else if (65 <=? z) && (z <=? 70) then Some (z - 65 + 10)
  else None.

(** The loop of [hex.Decode]: [i] is the next index of [dst]. *)
Fixpoint Decode_loop (dst : list byte) (i : nat) (src : list byte)
  : result (list byte * nat * option error) :=
  match src with
  | [] => Ret (dst, i, None)
  | [p] =>
      match fromHexChar p with
      | None => Ret (dst, i, Some (ErrInvalidByte p))
      | Some _ => Ret (dst, i, Some ErrLength)
      end
  | p :: q :: src' =>
      match fromHexChar p with
      | None => Ret (dst, i, Some (ErrInvalidByte p))
      | Some a =>
          match fromHexChar q with
          | None => Ret (dst, i, Some (ErrInvalidByte q))
          | Some b =>
              if (i <? length dst)%nat
              then Decode_loop (<[ i := byte_of_Z (Z.lor (Z.shiftl a 4) b) ]> dst)
                               (S i) src'
              else Panic "index out of range"
          end
      end
  end.

Definition Decode (dst src : list byte) : result (list byte * nat * option error) :=
  Decode_loop dst O src.

End hex.

(** ** [crypto/sha1] *)

Module sha1.

Definition w32 (x : Z) : Z := x mod 2 ^ 32.

Definition rotl (n x : Z) : Z :=
  w32 (Z.lor (Z.shiftl x n) (Z.shiftr x (32 - n))).

Definition be_bytes (n : nat) (x : Z) : list byte :=
  map (fun i => byte_of_Z (Z.shiftr x (8 * Z.of_nat i))) (rev (seq 0 n)).

Definition be_word (bs : list byte) : Z :=
  fold_left (fun acc b => acc * 256 + Z_of_byte b) bs 0.

Definition padding (len : nat) : list byte :=
  x80 :: repeat x00 ((64 - (len + 9) mod 64) mod 64)%nat
      ++ be_bytes 8 (8 * Z.of_nat len).

Fixpoint chunks (n : nat) (fuel : nat) (l : list byte) : list (list byte) :=
  match fuel with
  | O => []
  | S fuel' =>
      match l with
      | [] => []
      | _ => firstn n l :: chunks n fuel' (skipn n l)
      end
  end.

Definition words (block : list byte) : list Z :=
  map be_word (chunks 4 16 block).

(** The message schedule, kept newest-first: [w] holds W[t-1], W[t-2], ... *)
Fixpoint schedule (n : nat) (w : list Z) : list Z :=
  match n with
  | O => w
  | S n' =>
      let x := Z.lxor (Z.lxor (nth 2 w 0) (nth 7 w 0))
                      (Z.lxor (nth 13 w 0) (nth 15 w 0)) in
      schedule n' (rotl 1 x :: w)
  end.

Definition state : Type := Z * Z * Z * Z * Z.

Definition round (t : nat) (s : state) (wt : Z) : state :=
  let '(a, b, c, d, e) := s in
  let '(f, k) :=
    if (t <? 20)%nat then
      (Z.lor (Z.land b c) (Z.land (Z.lxor b 4294967295) d), 1518500249)
    else if (t <? 40)%nat then
      (Z.lxor (Z.lxor b c) d, 1859775393)
    else if (t <? 60)%nat then
      (Z.lor (Z.lor (Z.land b c) (Z.land b d)) (Z.land c d), 2400959708)
    else
      (Z.lxor (Z.lxor b c) d, 3395469782) in
  let tmp := w32 (rotl 5 a + f + e + k + wt) in
  (tmp, a, rotl 30 b, c, d).

Fixpoint rounds (t : nat) (ws : list Z) (s : state) : state :=
  match ws with
  | [] => s
  | wt :: ws' => rounds (S t) ws' (round t s wt)
  end.

Definition block (s : state) (blk : list byte) : state :=
  let ws := rev (schedule 64 (rev (words blk))) in
  let '(a, b, c, d, e) := s in
  let '(a', b', c', d', e') := rounds 0 ws s in
  (w32 (a + a'), w32 (b + b'), w32 (c + c'), w32 (d + d'), w32 (e + e')).

Definition init : state :=
  (1732584193, 4023233417, 2562383102, 271733878, 3285377520).

Definition digest_bytes (s : state) : list byte :=
  let '(a, b, c, d, e) := s in
  be_bytes 4 a ++ be_bytes 4 b ++ be_bytes 4 c ++ be_bytes 4 d ++ be_bytes 4 e.

(** [sha1.Sum]: the digest of a whole message. *)
Definition Sum (msg : list byte) : list byte :=
  let padded := msg ++ padding (length msg) in
  digest_bytes (fold_left block (chunks 64 (length padded) padded) init).

End sha1.

(** ** [type.go]: object types and the framing header *)

(** [type Type int] with the constants [Blob], [Tree], [Commit]; other
    values of the underlying [int], on which [String] panics, are not
    values of the model. *)
Inductive GitType : Type := Blob | Tree | Commit.

Definition GitType_eqb (a b : GitType) : bool :=
  match a, b with
  | Blob, Blob | Tree, Tree | Commit, Commit => true
  | _, _ => false
  end.

(** [func (t Type) String() string] *)
Definition GitType_String (t : GitType) : string :=
  match t with
  | Blob => "blob"
  | Tree => "tree"
  | Commit => "commit"
  end.

(** ** [strconv] and [fmt]: decimal integers *)

Module strconv.

Definition maxInt : Z := 2 ^ 63 - 1.
Definition minInt : Z := - 2 ^ 63.

Definition digit (d : Z) : byte := byte_of_Z (48 + d).

Fixpoint utoa_aux (fuel : nat) (n : Z) (acc : list byte) : list byte :=
  match fuel with
  | O => acc
  | S fuel' =>
      let acc' := digit (n mod 10) :: acc in
      if n <? 10 then acc' else utoa_aux fuel' (n / 10) acc'
  end.

Definition utoa (n : Z) : list byte :=
  utoa_aux (S (Z.to_nat (Z.log2 n))) n [].

(** [strconv.Itoa], which is what [%v] prints for an [int]. *)
Definition Itoa (n : Z) : list byte :=
  if n <? 0 then x2d :: utoa (- n) else utoa n.

Definition is_digit (c : byte) : bool :=
  (48 <=? Z_of_byte c) && (Z_of_byte c <=? 57).

Definition digits_value (ds : list byte) : Z :=
  fold_left (fun acc c => acc * 10 + (Z_of_byte c - 48)) ds 0.

(** [strconv.Atoi]: an optional sign, then one or more decimal digits;
    a value outside the range of [int] is clamped and reported with
    [ErrRange], any other shape is [ErrSyntax] with value 0. *)
Definition Atoi (s : list byte) : Z * option error :=
  let '(neg, ds) :=
    match s with
    | c :: s' =>
        if Byte.eqb c x2d then (true, s')
        else if Byte.eqb c x2b then (false, s')
        else (false, s)
    | [] => (false, [])
    end in
  match ds with
  | [] => (0, Some ErrSyntax)
  | _ =>
      if forallb is_digit ds then
        let v := digits_value ds in
        if neg then
          if - v <? minInt then (minInt, Some ErrRange) else (- v, None)
        else
          if maxInt <? v then (maxInt, Some ErrRange) else (v, None)
      else (0, Some ErrSyntax)
  end.

End strconv.

(** [func (t Type) Header(length int) []byte]:
    [fmt.Sprintf("%s %v\x00", t, length)]. *)
Definition Header (t : GitType) (length : Z) : list byte :=
  bytes (GitType_String t) ++ [SP] ++ strconv.Itoa length ++ [NUL].

(** [func ParseType(q []byte) Type]; an unknown token panics. *)
Definition ParseType (q : list byte) : result GitType :=
  if bytes_Equal q (bytes "blob") then Ret Blob
  else if bytes_Equal q (bytes "tree") then Ret Tree
  else if bytes_Equal q (bytes "commit") then Ret Commit
  else Panic "missing type".

(** ** [bufio.Reader] over an in-memory source

    [buf] is the unread part of the internal buffer ([b.buf[b.r:b.w]]),
    [rd] what the underlying reader has yet to deliver, [size] the
    capacity [len(b.buf)] and [err] the pending error [b.err].  The
    underlying reader hands over as many bytes as are asked for and are
    left, and reports [io.EOF] once it is empty, as [bytes.Buffer]
    does. *)

Module bufio.

Record Reader : Type := mkReader {
  buf : list byte;
  rd : list byte;
  size : nat;
  err : option error;
}.

Definition minReadBufferSize : nat := 16.
Definition defaultBufSize : nat := 4096.

Definition NewReaderSize (src : list byte) (n : nat) : Reader :=
  mkReader [] src (if (n <? minReadBufferSize)%nat then minReadBufferSize else n) None.

Definition NewReader (src : list byte) : Reader :=
  NewReaderSize src defaultBufSize.

Definition Buffered (b : Reader) : nat := length (buf b).

(** [fill] reads a new chunk into the free part of the buffer; its
    callers only call it on a buffer that is not full. *)
Definition fill (b : Reader) : Reader :=
  match rd b with
  | [] => mkReader (buf b) [] (size b) (Some EOF)
  | _ =>
      let room := (size b - length (buf b))%nat in
      mkReader (buf b ++ firstn room (rd b)) (skipn room (rd b)) (size b) (err b)
  end.

Fixpoint ReadSlice_loop (fuel : nat) (delim : byte) (b : Reader)
  : list byte * option error * Reader :=
  match IndexByte (buf b) delim with
  | Some i =>
      (firstn (S i) (buf b), None,
       mkReader (skipn (S i) (buf b)) (rd b) (size b) (err b))
  | None =>
      match err b with
      | Some e => (buf b, Some e, mkReader [] (rd b) (size b) None)
      | None =>
          if (size b <=? Buffered b)%nat then
            (buf b, Some ErrBufferFull, mkReader [] (rd b) (size b) None)
          else
            match fuel with
            | O => (buf b, Some ErrNoProgress, mkReader [] (rd b) (size b) None)
            | S fuel' => ReadSlice_loop fuel' delim (fill b)
            end
      end
  end.

Definition ReadSlice (delim : byte) (b : Reader) : list byte * option error * Reader :=
  ReadSlice_loop (S (length (rd b))) delim b.

(** [ReadBytes] ([collectFragments]): repeat [ReadSlice] while the
    buffer fills up without the delimiter, joining the fragments. *)
Fixpoint ReadBytes_loop (fuel : nat) (delim : byte) (b : Reader) (full : list byte)
  : list byte * option error * Reader :=
  let '(frag, e, b') := ReadSlice delim b in
  match e with
  | None => (full ++ frag, None, b')
  | Some ErrBufferFull =>
      match fuel with
      | O => (full ++ frag, Some ErrNoProgress, b')
      | S fuel' => ReadBytes_loop fuel' delim b' (full ++ frag)
      end
  | Some e' => (full ++ frag, Some e', b')
  end.

Definition ReadBytes (delim : byte) (b : Reader) : list byte * option error * Reader :=
  ReadBytes_loop (length (buf b) + length (rd b)) delim b [].

Fixpoint Peek_fill (fuel : nat) (n : nat) (b : Reader) : Reader :=
  if (Buffered b <? n)%nat && (Buffered b <? size b)%nat
     && (match err b with None => true | Some _ => false end)
  then match fuel with
       | O => b
       | S fuel' => Peek_fill fuel' n (fill b)
       end
  else b.

Definition Peek (n : nat) (b : Reader) : list byte * option error * Reader :=
  let b1 := Peek_fill (S (length (rd b))) n b in
  if (size b1 <? n)%nat then (buf b1, Some ErrBufferFull, b1)
  else if (Buffered b1 <? n)%nat then
    (buf b1,
     Some (match err b1 with Some e => e | None => ErrBufferFull end),
     mkReader (buf b1) (rd b1) (size b1) None)
  else (firstn n (buf b1), None, b1).

Fixpoint Discard_loop (fuel : nat) (n remain : nat) (b : Reader)
  : nat * option error * Reader :=
  let b1 := if (Buffered b =? 0)%nat then fill b else b in
  let skip := Nat.min (Buffered b1) remain in
  let b2 := mkReader (skipn skip (buf b1)) (rd b1) (size b1) (err b1) in
  let remain' := (remain - skip)%nat in
  if (remain' =? 0)%nat then (n, None, b2)
  else
    match err b2 with
    | Some e => ((n - remain')%nat, Some e, mkReader (buf b2) (rd b2) (size b2) None)
    | None =>
        match fuel with
        | O => ((n - remain')%nat, Some ErrNoProgress, b2)
        | S fuel' => Discard_loop fuel' n remain' b2
        end
    end.

Definition Discard (n : nat) (b : Reader) : nat * option error * Reader :=
  if (n =? 0)%nat then (O, None, b)
  else Discard_loop (S (length (rd b))) n n b.

End bufio.

(** ** [compress/zlib]

    The compressed representation is kept abstract: the codec is any
    pair of functions such that inflating a deflated stream gives the
    stream back.  A [zlib.Writer] hands its stream to the staging writer
    when it is closed; a [zlib.Reader] delivers the inflated stream. *)

Class Zlib : Type := {
  deflate : list byte -> list byte;
  inflate : list byte -> option (list byte);
  inflate_deflate : forall s, inflate (deflate s) = Some s;
}.

(** ** [writer.go]: the pretty-tree encoder *)

(** Slicing helpers: [s[:len(s)-1]] and [s[len(s)-1] = c]; both panic on
    an empty slice. *)
Definition drop_last (s : list byte) : result (list byte) :=
  match s with
  | [] => Panic "slice bounds out of range"
  | _ => Ret (removelast s)
  end.

Definition set_last (s : list byte) (c : byte) : result (list byte) :=
  match s with
  | [] => Panic "index out of range"
  | _ => Ret (removelast s ++ [c])
  end.

(** [type treeWriter struct]: [file] is the embedded [io.Writer] (the
    temporary file of the object writer, as the bytes written to it),
    [file_closed] whether that file has been closed. *)
Record treeWriter : Type := mkTreeWriter {
  file : list byte;
  file_closed : bool;
  rbuf : list byte;
  wbuf : list byte;
  sum : list byte;
}.

(** [if mode[0] == '0' { mode = mode[1:] }] *)
Definition trim_mode (mode : list byte) : result (list byte) :=
  match mode with
  | [] => Panic "index out of range"
  | c :: m => Ret (if Byte.eqb c x30 then m else mode)
  end.

(** The [for] loop of [treeWriter.Write]; it is left only with an error. *)
Fixpoint treeWriter_loop (fuel : nat) (r : bufio.Reader) (wb sm : list byte)
  : result (bufio.Reader * list byte * list byte * error) :=
  match fuel with
  | O => Ret (r, wb, sm, ErrNoProgress)
  | S fuel' =>
      let '(mode, e, r1) := bufio.ReadBytes SP r in
      match e with
      | Some e => Ret (r1, wb, sm, e)
      | None =>
          mode' ← trim_mode mode;
          (* discard type *)
          let '(_, e, r2) := bufio.ReadBytes SP r1 in
          match e with
          | Some e => Ret (r2, wb, sm, e)
          | None =>
              let '(h, e, r3) := bufio.ReadBytes TAB r2 in
              match e with
              | Some e => Ret (r3, wb, sm, e)
              | None =>
                  h' ← drop_last h;
                  '(sm', _, e) ← hex.Decode sm h';
                  match e with
                  | Some e => Ret (r3, wb, sm', e)
                  | None =>
                      let '(name, e, r4) := bufio.ReadBytes LF r3 in
                      match e with
                      | Some e => Ret (r4, wb, sm', e)
                      | None =>
                          name' ← set_last name NUL;
                          treeWriter_loop fuel' r4 (wb ++ mode' ++ name' ++ sm') sm'
                      end
                  end
              end
          end
      end
  end.

(** [func (g *treeWriter) Write(p []byte) (n int, err error)] *)
Definition treeWriter_Write (g : treeWriter) (p : list byte)
  : result (nat * option error * treeWriter) :=
  let src := rbuf g ++ p in
  '(r, wb, sm, e) ← treeWriter_loop (S (length src)) (bufio.NewReader src) (wbuf g) (sum g);
  let out := firstn (length p) wb in
  let wb' := skipn (length p) wb in
  if file_closed g
  then Ret (O, Some e, mkTreeWriter (file g) true (bufio.rd r) wb' sm)
  else Ret (length out, Some e, mkTreeWriter (file g ++ out) false (bufio.rd r) wb' sm).

(** ** [writer.go]: the object writer

    [staging] holds what has reached the staging writer, [zw] the bytes
    the [zlib.Writer] has accepted, [hh] the bytes fed to the SHA-1
    state, [tw] the tree writer together with its temporary file.  The
    fields [err] and [finalize] of the Go struct are never assigned and
    are left out. *)
Record writer : Type := mkWriter {
  staging : list byte;
  zw : list byte;
  zw_closed : bool;
  hh : list byte;
  tw : option treeWriter;
  t : GitType;
  wroteHeader : bool;
}.

Section Codec.
Context `{Zlib}.

(** [func NewWriter(staging io.Writer) Writer] *)
Definition NewWriter (stg : list byte) : writer :=
  mkWriter stg [] false [] None Blob false.

(** [g.Writer.Write]: the [io.MultiWriter] of [zw] and [hh].  Writing
    to a closed [zlib.Writer] fails before [hh] is reached, except for
    an empty slice, which [zlib.Writer.Write] accepts without looking at
    the compressor. *)
Definition multi_Write (g : writer) (p : list byte) : nat * option error * writer :=
  if zw_closed g then
    match p with
    | [] => (O, None, g)
    | _ :: _ => (O, Some ErrClosed, g)
    end
  else (length p, None,
        mkWriter (staging g) (zw g ++ p) false (hh g ++ p) (tw g) (t g) (wroteHeader g)).

(** [func (g *writer) Write(p []byte) (int, error)] *)
Definition writer_Write (g : writer) (p : list byte) : result (nat * option error * writer) :=
  if negb (wroteHeader g) then Ret (O, Some ErrMustCallWriteHeader, g)
  else
    match tw g with
    | Some w =>
        '(n, e, w') ← treeWriter_Write w p;
        Ret (n, e, mkWriter (staging g) (zw g) (zw_closed g) (hh g) (Some w') (t g) true)
    | None => Ret (multi_Write g p)
    end.

(** [func (g *writer) WriteHeader(t Type, s int) (n int, err error)] *)
Definition writer_WriteHeader (g : writer) (ty : GitType) (s : Z)
  : result (nat * option error * writer) :=
  if wroteHeader g then Ret (O, Some ErrHeaderAlreadyWritten, g)
  else
    let g1 := mkWriter (staging g) (zw g) (zw_closed g) (hh g) (tw g) ty true in
    if GitType_eqb ty Tree || (s <? 0) then
      Ret (O, None,
           mkWriter (staging g1) (zw g1) (zw_closed g1) (hh g1)
                    (Some (mkTreeWriter [] false [] [] (repeat x00 20)))
                    ty true)
    else writer_Write g1 (Header ty s).

(** [g.zw.Close()]: the deflated stream reaches the staging writer.  A
    second close would write the stream trailer once more; the model
    leaves the staged bytes as they are. *)
Definition zw_Close (g : writer) : writer :=
  if zw_closed g then g
  else mkWriter (staging g ++ deflate (zw g)) (zw g) true (hh g) (tw g) (t g) (wroteHeader g).

(** [func (g *writer) Close() error] *)
Definition writer_Close (g : writer) : option error * writer :=
  match tw g with
  | Some w =>
      if file_closed w then (Some ErrClosed, g)   (* g.tmp.Stat() fails *)
      else
        let size := Z.of_nat (length (file w)) in
        let closed := Some (mkTreeWriter (file w) true (rbuf w) (wbuf w) (sum w)) in
        let '(_, e, g1) := multi_Write g (Header (t g) size) in
        match e with
        | Some e =>
            (Some e, mkWriter (staging g1) (zw g1) (zw_closed g1) (hh g1) closed (t g1) (wroteHeader g1))
        | None =>
            let '(_, e, g2) := multi_Write g1 (file w) in
            let g3 := mkWriter (staging g2) (zw g2) (zw_closed g2) (hh g2) closed (t g2) (wroteHeader g2) in
            match e with
            | Some e => (Some e, g3)
            | None => (None, zw_Close g3)
            end
        end
  | None => (None, zw_Close g)
  end.

(** [func (g *writer) Hash() string] *)
Definition writer_Hash (g : writer) : string :=
  hex.EncodeToString (sha1.Sum (hh g)).

End Codec.

(** ** The reader file: the pretty-tree decoder *)

(** [type treeReader struct]: [br] is the embedded [*bufio.Reader]. *)
Record treeReader : Type := mkTreeReader {
  br : bufio.Reader;
  tr_buf : list byte;
  hash : list byte;
}.

(** The [switch mode[0]]: what is written to [g.buf] for the mode and
    the type it selects. *)
Definition render_mode (mode : list byte) : result (list byte) :=
  match mode with
  | [] => Panic "index out of range"
  | c :: _ =>
      if Byte.eqb c x31 then Ret (mode ++ bytes "blob ")
      else if Byte.eqb c x34 then Ret ([x30] ++ mode ++ bytes "tree ")
      else Panic "unrecognized mode"
  end.

(** The [for g.buf.Len() <= len(p)] loop of [treeReader.Read]. *)
Fixpoint treeReader_loop (fuel : nat) (lenp : nat) (g : treeReader)
  : result (option error * treeReader) :=
  if (length (tr_buf g) <=? lenp)%nat then
    match fuel with
    | O => Ret (Some ErrNoProgress, g)
    | S fuel' =>
        let '(mode, e, r1) := bufio.ReadBytes SP (br g) in
        match e with
        | Some e => Ret (Some e, mkTreeReader r1 (tr_buf g) (hash g))
        | None =>
            rendered ← render_mode mode;
            let b1 := tr_buf g ++ rendered in
            let '(name, e, r2) := bufio.ReadBytes NUL r1 in
            match e with
            | Some e => Ret (Some e, mkTreeReader r2 b1 (hash g))
            | None =>
                name' ← drop_last name;
                let '(sm, e, r3) := bufio.Peek 20 r2 in
                match e with
                | Some e => Ret (Some e, mkTreeReader r3 b1 (hash g))
                | None =>
                    let '(_, _, r4) := bufio.Discard 20 r3 in
                    '(hs, _) ← hex.Encode (hash g) sm;
                    treeReader_loop fuel' lenp
                      (mkTreeReader r4 (b1 ++ hs ++ [TAB] ++ name' ++ [LF]) hs)
                end
            end
        end
    end
  else Ret (None, g).

(** [func (g *treeReader) Read(p []byte) (n int, err error)]; the result
    carries the bytes copied into [p]. *)
Definition treeReader_Read (g : treeReader) (lenp : nat)
  : result (list byte * option error * treeReader) :=
  '(e, g') ← treeReader_loop (S (S lenp)) lenp g;
  Ret (firstn lenp (tr_buf g'), e,
       mkTreeReader (br g') (skipn lenp (tr_buf g')) (hash g')).

(** ** The reader file: the object reader *)

(** The embedded [io.Reader] of a [Reader]: the plain payload stream
    (the [io.MultiReader] of the header lookahead and the rest of the
    inflated stream) or the tree decoder wrapped around it. *)
Inductive source : Type :=
| NoSource
| Plain (s : list byte)
| Pretty (tr : treeReader).

Record Reader : Type := mkReader {
  src : source;
  pretty : bool;
  rt : GitType;
  rn : Z;
}.

Section Codec.
Context `{Zlib}.

(** [func (g *Reader) Reset(r io.Reader) error] *)
Definition Reader_Reset (g : Reader) (raw : list byte) : result (option error * Reader) :=
  match inflate raw with
  | None => Ret (Some ErrZlib, g)
  | Some s =>
      (* 28 byte limit *)
      let b := bufio.NewReader (firstn 28 s) in
      let rest := skipn 28 s in
      let multi (b : bufio.Reader) := Plain (bufio.buf b ++ bufio.rd b ++ rest) in
      (* read header *)
      let '(tok, e, b1) := bufio.ReadBytes SP b in
      match e with
      | Some e => Ret (Some e, mkReader (multi b1) (pretty g) (rt g) (rn g))
      | None =>
          tok' ← drop_last tok;
          ty ← ParseType tok';
          let '(num, e, b2) := bufio.ReadBytes NUL b1 in
          match e with
          | Some e => Ret (Some e, mkReader (multi b2) (pretty g) ty (rn g))
          | None =>
              num' ← drop_last num;
              let '(n, e) := strconv.Atoi num' in
              (* trees are different *)
              let s' :=
                if pretty g && GitType_eqb ty Tree then
                  Pretty (mkTreeReader
                            (bufio.NewReaderSize (bufio.buf b2 ++ bufio.rd b2 ++ rest) 20)
                            [] (repeat x00 40))
                else multi b2 in
              Ret (e, mkReader s' (pretty g) ty n)
          end
      end
  end.

(** [func NewReader]: a fresh [Reader] with the options applied, then
    [Reset]; the only option is [PrettyReader]. *)
Definition NewReader (raw : list byte) (prettyReader : bool) : result (error + Reader) :=
  '(e, g) ← Reader_Reset (mkReader NoSource prettyReader Blob 0) raw;
  match e with
  | Some e => Ret (inl e)
  | None => Ret (inr g)
  end.

End Codec.

(** [func (g *Reader) Type() Type] and [func (g *Reader) Len() int] *)
Definition Reader_Type (g : Reader) : GitType := rt g.
Definition Reader_Len (g : Reader) : Z := rn g.

(** [g.Reader.Read(p)] through the embedded reader.  For a plain
    payload the model hands out the inflated stream in order; how many
    bytes one call of the [io.MultiReader] returns (the rest of the
    28-byte lookahead first, then what [zlib] delivers) is not
    modelled, only the sequence of bytes that a copy collects. *)
Definition Reader_Read (g : Reader) (lenp : nat) : result (list byte * option error * Reader) :=
  match src g with
  | NoSource => Panic "nil pointer dereference"
  | Plain s =>
      match s with
      | [] => Ret ([], Some EOF, g)
      | _ => Ret (firstn lenp s, None, mkReader (Plain (skipn lenp s)) (pretty g) (rt g) (rn g))
      end
  | Pretty tr =>
      '(out, e, tr') ← treeReader_Read tr lenp;
      Ret (out, e, mkReader (Pretty tr') (pretty g) (rt g) (rn g))
  end.

(** [io.Copy(dst, g)] into a byte buffer: read with a buffer of [lenp]
    bytes (32 KiB in [io.Copy]) until a read reports an error; [io.EOF]
    ends the copy without error. *)
Fixpoint io_Copy (fuel : nat) (lenp : nat) (g : Reader) (dst : list byte)
  : result (list byte * option error * Reader) :=
  match fuel with
  | O => Ret (dst, Some ErrNoProgress, g)
  | S fuel' =>
      '(out, e, g') ← Reader_Read g lenp;
      match e with
      | Some EOF => Ret (dst ++ out, None, g')
      | Some e => Ret (dst ++ out, Some e, g')
      | None => io_Copy fuel' lenp g' (dst ++ out)
      end
  end.

Definition copy_buffer_size : nat := (32 * 1024)%nat.

(** ** The store file

    [Object] returns an [io.Reader]: a reader over bytes, or, for the
    disk store, possibly an open directory (which cannot be read). *)

Inductive object_reader : Type :=
| Bytes (b : list byte)
| Directory (name : string).

(** [strings.HasPrefix(s, prefix)] *)
Definition HasPrefix (s prefix : string) : bool := String.prefix prefix s.

(** The candidate loop shared by both [Object] methods:
[[
    var match string
    for _, e := range ns {
        if strings.HasPrefix(e, rest) {
            if match != "" { return nil, errors.New("ambigious hash " + hash) }
            match = e
        }
    }
]]
    [inr m] is the value of [match] when the loop runs to its end. *)
Fixpoint scan (hash rest : string) (ns : list string) (mtch : string) : error + string :=
  match ns with
  | [] => inr mtch
  | e :: ns' =>
      if HasPrefix e rest then
        if negb (String.eqb mtch "") then inl (ErrAmbiguous hash)
        else scan hash rest ns' e
      else scan hash rest ns' mtch
  end.

(** *** The in-memory store: [type memStore map[string][]byte] *)

Abbreviation memStore := (gmap string (list byte)).

(** [func MemStore() Store] *)
Definition MemStore : memStore := ∅.

(** The keys in the order the [range] loop visits them. *)
Definition mem_keys (st : memStore) : list string := (map_to_list st).*1.

(** [func (st memStore) Object(hash string) (io.Reader, error)] *)
Definition memStore_Object (st : memStore) (hash : string) : error + object_reader :=
  match st !! hash with
  | Some b => inr (Bytes b)
  | None =>
      match scan hash hash (mem_keys st) "" with
      | inl e => inl e
      | inr m =>
          if String.eqb m "" then inl (ErrDoesNotExist hash)
          else inr (Bytes (default [] (st !! m)))
      end
  end.

(** [type memCloser struct]: the buffer [buf] is the staging writer of
    the embedded [Writer], so it is read off [staging]. *)
Record memCloser : Type := mkMemCloser {
  mc_Writer : writer;
}.

(** [func (st memStore) Writer() Writer] *)
Definition memStore_Writer : memCloser := mkMemCloser (NewWriter []).

(** *** The disk store: [type DiskStore string]

    The state is the content of the [objects] directory of the
    repository: each entry is a regular file or a directory of regular
    files.  Path components are taken as plain names: [filepath.Join]
    is modelled for components without separators or dot segments, which
    is what digests and their prefixes are. *)

Inductive node : Type :=
| File (content : list byte)
| Dir (entries : gmap string (list byte)).

Abbreviation objects := (gmap string node).

(** Go's [hash[:2]] and [hash[2:]]; both panic on a shorter string. *)
Definition split2 (hash : string) : result (string * string) :=
  if (String.length hash <? 2)%nat then Panic "slice bounds out of range"
  else Ret (substring 0 2 hash, substring 2 (String.length hash - 2) hash).

(** [os.Open(filepath.Join(objects, d, rest))]; an empty [rest] joins
    to the bucket itself. *)
Definition os_Open (fs : objects) (d rest : string) : error + object_reader :=
  match fs !! d with
  | None => inl (ErrOsNotExist [d; rest])
  | Some (File b) =>
      if String.eqb rest "" then inr (Bytes b) else inl (ErrOsNotDir [d; rest])
  | Some (Dir m) =>
      if String.eqb rest "" then inr (Directory d)
      else match m !! rest with
           | Some b => inr (Bytes b)
           | None => inl (ErrOsNotExist [d; rest])
           end
  end.

(** [os.IsNotExist(err)] *)
Definition os_IsNotExist (e : error) : bool :=
  match e with
  | ErrOsNotExist _ => true
  | _ => false
  end.

(** [dir.Readdirnames(-1)] *)
Definition Readdirnames (m : gmap string (list byte)) : list string := (map_to_list m).*1.

(** [func (st DiskStore) Object(hash string) (io.Reader, error)] *)
Definition DiskStore_Object (fs : objects) (hash : string) : result (error + object_reader) :=
  '(d, rest) ← split2 hash;
  let first := os_Open fs d rest in
  match first with
  | inr f => Ret (inr f)
  | inl e =>
      if negb (os_IsNotExist e) then Ret (inl e)
      else
        match fs !! d with
        | None => Ret (inl (ErrOsNotExist [d]))
        | Some (File _) => Ret (inl (ErrOsNotDir [d]))     (* Readdirnames fails *)
        | Some (Dir m) =>
            match scan hash rest (Readdirnames m) "" with
            | inl e => Ret (inl e)
            | inr mtch =>
                if String.eqb mtch "" then Ret (inl (ErrDoesNotExist hash))
                else Ret (os_Open fs d mtch)
            end
        end
  end.

(** [type diskCloser struct]: the temporary file [f] is the staging
    writer of the embedded [Writer]. *)
Record diskCloser : Type := mkDiskCloser {
  dc_Writer : writer;
}.

(** [func (st DiskStore) Writer() Writer] *)
Definition DiskStore_Writer : diskCloser := mkDiskCloser (NewWriter []).

Section Stores.
Context `{Zlib}.

(** [func (g *memCloser) Close() error], with the map it updates. *)
Definition memCloser_Close (st : memStore) (g : memCloser)
  : option error * memStore * memCloser :=
  let '(e, w) := writer_Close (mc_Writer g) in
  match e with
  | Some e => (Some e, st, mkMemCloser w)
  | None =>
      let hash := writer_Hash w in
      match st !! hash with
      | Some _ => (Some (ErrObjectExists hash), st, mkMemCloser w)
      | None => (None, <[ hash := staging w ]> st, mkMemCloser w)
      end
  end.

(** [func (g *diskCloser) Close() error], with the directory it
    updates: [os.MkdirAll] of the bucket, then an exclusive create of
    the object file and the copy of the staged bytes.  The copy into the
    created file does not fail in the model (files do not fail while
    they are open), so the error return of [io.Copy(f, g.f)], which in
    the code comes after the object file exists, has no counterpart. *)
Definition diskCloser_Close (fs : objects) (g : diskCloser)
  : result (option error * objects * diskCloser) :=
  let '(e, w) := writer_Close (dc_Writer g) in
  match e with
  | Some e => Ret (Some e, fs, mkDiskCloser w)
  | None =>
      let hash := writer_Hash w in
      '(d, rest) ← split2 hash;
      if String.eqb rest "" then
        (* the path is the bucket itself, its parent exists *)
        match fs !! d with
        | Some _ => Ret (Some (ErrOsExist [d]), fs, mkDiskCloser w)
        | None => Ret (None, <[ d := File (staging w) ]> fs, mkDiskCloser w)
        end
      else
        match fs !! d with
        | Some (File _) => Ret (Some (ErrOsNotDir [d]), fs, mkDiskCloser w)
        | Some (Dir m) =>
            match m !! rest with
            | Some _ => Ret (Some (ErrOsExist [d; rest]), fs, mkDiskCloser w)
            | None => Ret (None, <[ d := Dir (<[ rest := staging w ]> m) ]> fs, mkDiskCloser w)
            end
        | None =>
            Ret (None, <[ d := Dir {[ rest := staging w ]} ]> fs, mkDiskCloser w)
        end
  end.

(** [Store.Reader]: [Object] composed with [NewReader]; reading an
    open directory fails. *)
Definition open_Reader (o : error + object_reader) (prettyReader : bool)
  : result (error + Reader) :=
  match o with
  | inl e => Ret (inl e)
  | inr (Bytes b) => NewReader b prettyReader
  | inr (Directory d) => Ret (inl (ErrOsIsDir [d]))
  end.

Definition memStore_Reader (st : memStore) (hash : string) (prettyReader : bool)
  : result (error + Reader) :=
  open_Reader (memStore_Object st hash) prettyReader.

Definition DiskStore_Reader (fs : objects) (hash : string) (prettyReader : bool)
  : result (error + Reader) :=
  o ← DiskStore_Object fs hash;
  open_Reader o prettyReader.

End Stores.

(** ** Callers

    The ways the package's tests and examples drive the writer and the
    stores: a sequence of [Write] calls whose results are not inspected,
    and a whole writer life cycle against a store. *)

Fixpoint writer_Writes (g : writer) (ps : list (list byte)) : result writer :=
  match ps with
  | [] => Ret g
  | p :: ps' =>
      '(_, _, g') ← writer_Write g p;
      writer_Writes g' ps'
  end.

Section Publish.
Context `{Zlib}.

(** [w := st.Writer(); w.WriteHeader(ty, s); w.Write(p)...; w.Close();
    w.Hash()] on the in-memory store. *)
Definition mem_publish (st : memStore) (ty : GitType) (s : Z) (ps : list (list byte))
  : result (option error * memStore * string) :=
  '(_, _, w) ← writer_WriteHeader (mc_Writer memStore_Writer) ty s;
  w' ← writer_Writes w ps;
  let '(e, st', g) := memCloser_Close st (mkMemCloser w') in
  Ret (e, st', writer_Hash (mc_Writer g)).

(** The same life cycle on the disk store. *)
Definition disk_publish (fs : objects) (ty : GitType) (s : Z) (ps : list (list byte))
  : result (option error * objects * string) :=
  '(_, _, w) ← writer_WriteHeader (dc_Writer DiskStore_Writer) ty s;
  w' ← writer_Writes w ps;
  '(e, fs', g) ← diskCloser_Close fs (mkDiskCloser w');
  Ret (e, fs', writer_Hash (dc_Writer g)).

End Publish.

(** A codec that stores the stream behind a two-byte stream header; it
    is used to run the definitions on concrete inputs. *)
Definition stored_codec : Zlib :=
  {| deflate := fun s => x78 :: x01 :: s;
     inflate := fun s => match s with
                         | x78 :: x01 :: s' => Some s'
                         | _ => None
                         end;
     inflate_deflate := fun s => eq_refl |}.

(** ** Specification vocabulary *)

(** What a [bufio.Reader] has yet to deliver: its buffered bytes, then
    the rest of the underlying source. *)
Definition stream (b : bufio.Reader) : list byte := bufio.buf b ++ bufio.rd b.

(** The states the model reaches: the only pending error is [io.EOF],
    pending once the source is empty; the buffer has room. *)
Definition reader_ok (b : bufio.Reader) : Prop :=
  (bufio.err b = None \/ (bufio.err b = Some EOF /\ bufio.rd b = []))
  /\ (1 <= bufio.size b)%nat.

(** The value of a digit string read after the digits of [acc]. *)
Definition value_from (acc : Z) (ds : list byte) : Z :=
  fold_left (fun a c => a * 10 + (Z_of_byte c - 48)) ds acc.

(** Lower-case hexadecimal characters and strings. *)
Definition is_lower_hex (c : byte) : bool :=
  let z := Z_of_byte c in
  ((48 <=? z) && (z <=? 57)) || ((97 <=? z) && (z <=? 102)).

Definition is_hex_string (s : string) : bool :=
  forallb is_lower_hex (list_byte_of_string s).

(** The tree writer driven by the same sequence of [Write] calls. *)
Fixpoint treeWriter_Writes (w : treeWriter) (ps : list (list byte)) : result treeWriter :=
  match ps with
  | [] => Ret w
  | p :: ps' =>
      '(_, _, w') ← treeWriter_Write w p;
      treeWriter_Writes w' ps'
  end.

(** The tree writer [WriteHeader] sets up on the spooling path. *)
Definition fresh_treeWriter : treeWriter :=
  mkTreeWriter [] false [] [] (repeat x00 20).

(** The digest of the empty message, as [Hash] prints it. *)
Definition empty_digest : string := "da39a3ee5e6b4b0d3255bfef95601890afd80709".

(** The spooling path: after [WriteHeader] for a tree or an unknown
    size, nothing reaches the compressor or the digest until [Close]. *)
Definition spooling (stg : list byte) (ty : GitType) (w : treeWriter) (g : writer) : Prop :=
  g = mkWriter stg [] false [] (Some w) ty true /\ file_closed w = false.

(** The tree reader [Reset] wraps around the payload [s]. *)
Definition fresh_treeReader (s : list byte) : treeReader :=
  mkTreeReader (bufio.NewReaderSize s 20) [] (repeat x00 40).

(** ** Sample stores

    Two objects whose digests share the three characters [8c0] and part
    at the fourth. *)
Definition digest1 : string := "8c01d89ae06311834ee4b1fab2f0414d35f01102".
Definition digest2 : string := "8c0a4f3e2d1c0b9a8f7e6d5c4b3a291807f6e5d4".

Definition sample_mem : memStore :=
  <[ digest1 := bytes "one" ]> (<[ digest2 := bytes "two" ]> ∅).

Definition sample_disk : objects :=
  {[ "8c"%string :=
       Dir (<[ substring 2 38 digest1 := bytes "one" ]>
              (<[ substring 2 38 digest2 := bytes "two" ]> ∅)) ]}.

(** ** Tree entries and their two renderings *)

Record entry : Type := mkEntry {
  e_mode : list byte;      (* the mode as the pretty line shows it *)
  e_type : list byte;      (* the type token of the pretty line *)
  e_digest : list byte;    (* the 20 raw bytes of the target digest *)
  e_name : list byte;
}.

(** [<mode><SP><type-token><SP><40-hex-digest><TAB><name>\n] *)
Definition pretty_line (e : entry) : list byte :=
  e_mode e ++ SP :: e_type e ++ SP :: hex.encoded (e_digest e) ++ TAB :: e_name e ++ [LF].

Definition pretty_tree (es : list entry) : list byte := flat_map pretty_line es.

(** The mode as the binary form stores it: one leading ['0'] removed. *)
Definition strip_zero (mode : list byte) : list byte :=
  match mode with
  | c :: m => if Byte.eqb c x30 then m else mode
  | [] => []
  end.

(** [<mode><SP><name>\0<20 raw bytes>] *)
Definition binary_entry (e : entry) : list byte :=
  strip_zero (e_mode e) ++ SP :: e_name e ++ NUL :: e_digest e.

Definition binary_tree (es : list entry) : list byte := flat_map binary_entry es.

(** A line as the line grammar has it: a mode of digits, one of the
    three type tokens, a digest of 20 bytes, a name without NUL and
    newline. *)
Definition is_type_token (ty : list byte) : bool :=
  bytes_Equal ty (bytes "blob") || bytes_Equal ty (bytes "tree")
  || bytes_Equal ty (bytes "commit").

Definition absent (c : byte) (s : list byte) : bool :=
  negb (existsb (Byte.eqb c) s).

Definition well_formed (e : entry) : bool :=
  negb (length (e_mode e) =? 0)%nat && forallb strconv.is_digit (e_mode e)
  && is_type_token (e_type e)
  && (length (e_digest e) =? 20)%nat
  && absent NUL (e_name e) && absent LF (e_name e).

(** The lines the decoder reproduces: a mode that starts with ['1'] with
    the token [blob], or a mode that starts with ['0'] then ['4'] with
    the token [tree]. *)
Definition mode_matches_type (e : entry) : bool :=
  match e_mode e with
  | c :: m =>
      (Byte.eqb c x31 && bytes_Equal (e_type e) (bytes "blob"))
      || (Byte.eqb c x30
          && match m with
             | c' :: _ => Byte.eqb c' x34
             | [] => false
             end
          && bytes_Equal (e_type e) (bytes "tree"))
  | [] => false
  end.

Definition canonical (e : entry) : bool := well_formed e && mode_matches_type e.

(** Encoding a whole pretty tree with one [Write] on a fresh tree
    writer, and decoding a binary tree by copying from a reader whose
    payload is wrapped in the tree reader. *)
Definition encode_tree (T : list byte) : result (list byte) :=
  '(_, _, w) ← treeWriter_Write fresh_treeWriter T;
  Ret (file w).

Definition pretty_Reader (B : list byte) : Reader :=
  mkReader (Pretty (fresh_treeReader B)) true Tree (Z.of_nat (length B)).

Definition decode_tree (fuel : nat) (B : list byte) : result (list byte * option error) :=
  '(out, e, _) ← io_Copy fuel copy_buffer_size (pretty_Reader B) [];
  Ret (out, e).

(** The README's entry: the blob [hello, world] under [hello.txt]. *)
Definition hello_entry : entry :=
  mkEntry (bytes "100644") (bytes "blob")
          (sha1.Sum (bytes "blob 12" ++ [NUL] ++ bytes "hello, world"))
          (bytes "hello.txt").

(** What each direction of the transcoder needs of an entry. *)
Definition encodable (e : entry) : Prop :=
  ~ In SP (e_mode e) /\ ~ In SP (e_type e) /\
  length (e_digest e) = 20%nat /\ ~ In LF (e_name e).

Definition decodable (e : entry) : Prop :=
  ~ In SP (strip_zero (e_mode e)) /\ ~ In NUL (e_name e) /\
  length (e_digest e) = 20%nat /\
  render_mode (strip_zero (e_mode e) ++ [SP]) = Ret (e_mode e ++ SP :: e_type e ++ [SP]).

(** The states of the tree reader: a sound buffered reader that can
    peek a whole digest, and a 40-byte scratch for its hexadecimal
    form. *)
Definition treeReader_ok (g : treeReader) : Prop :=
  reader_ok (br g) /\ (20 <= bufio.size (br g))%nat /\ length (hash g) = 40%nat.

(** The decoder accepts a stored mode that starts with ['1'] or ['4']. *)
Definition renderable (e : entry) : bool :=
  match strip_zero (e_mode e) with
  | c :: _ => Byte.eqb c x31 || Byte.eqb c x34
  | [] => false
  end.

(** What the transcoders make of a line: the mode loses one leading
    ['0'] and regains one before a ['4']; the type token is the one the
    first digit of the stored mode selects. *)
Definition normalize (e : entry) : entry :=
  match strip_zero (e_mode e) with
  | c :: m =>
      if Byte.eqb c x31 then
        mkEntry (c :: m) (bytes "blob") (e_digest e) (e_name e)
      else if Byte.eqb c x34 then
        mkEntry (x30 :: c :: m) (bytes "tree") (e_digest e) (e_name e)
      else e
  | [] => e
  end.

(** Lines that are well formed and do not come back as they were: a
    blob whose mode is written with a leading zero, and a submodule
    entry as [git ls-tree] prints it. *)
Definition padded_blob_entry : entry :=
  mkEntry (bytes "0100644") (bytes "blob") (e_digest hello_entry) (bytes "hello.txt").

Definition gitlink_entry : entry :=
  mkEntry (bytes "160000") (bytes "commit") (e_digest hello_entry) (bytes "sub").

(** The blob [hello] as the stored codec stages it, and its digest. *)
Definition hello_digest : string := "b6fc4c620b67d95f953a5c1c1230aaab5db5a1b0".
Definition hello_object : list byte := x78 :: x01 :: Header Blob 5 ++ bytes "hello".

(** The keys a store built by [Writer] life cycles holds: digests,
    forty lower-case hexadecimal characters. *)
Definition digest_keys (st : memStore) : Prop :=
  forall k, is_Some (st !! k) -> String.length k = 40%nat /\ is_hex_string k = true.

(** The loose-object layout of the objects directory: the files of a
    directory with a two-character name (a bucket) have names of
    thirty-eight characters.  Other entries ([info], [pack]) are free. *)
Definition disk_layout (fs : objects) : Prop :=
  forall d m k, String.length d = 2%nat -> fs !! d = Some (Dir m) ->
    is_Some (m !! k) -> String.length k = 38%nat.

(** A binary tree stream that ends inside an entry, with what the
    decoder has put in its text buffer when it meets the end: nothing
    when the end comes before the space that closes the mode, the
    rendered mode and type when it comes before the NUL that closes the
    name or before the twentieth byte of the digest. *)
Inductive truncated : list byte -> list byte -> Prop :=
| truncated_mode (tail : list byte) :
    ~ In SP tail -> truncated tail []
| truncated_name (mode name rendered : list byte) :
    ~ In SP mode -> render_mode (mode ++ [SP]) = Ret rendered -> ~ In NUL name ->
    truncated (mode ++ SP :: name) rendered
| truncated_digest (mode name digest rendered : list byte) :
    ~ In SP mode -> render_mode (mode ++ [SP]) = Ret rendered -> ~ In NUL name ->
    (length digest < 20)%nat ->
    truncated (mode ++ SP :: name ++ NUL :: digest) rendered.

(** The two [Object] methods with the order of the candidate loop made
    explicit: [ns] is the sequence in which [range] visits the keys of
    the map, or in which [Readdirnames] lists the bucket. *)
Definition memStore_Object_ranged (ns : list string) (st : memStore) (hash : string)
  : error + object_reader :=
  match st !! hash with
  | Some b => inr (Bytes b)
  | None =>
      match scan hash hash ns "" with
      | inl e => inl e
      | inr m =>
          if String.eqb m "" then inl (ErrDoesNotExist hash)
          else inr (Bytes (default [] (st !! m)))
      end
  end.

Definition DiskStore_Object_listed (ns : list string) (fs : objects) (hash : string)
  : result (error + object_reader) :=
  '(d, rest) ← split2 hash;
  let first := os_Open fs d rest in
  match first with
  | inr f => Ret (inr f)
  | inl e =>
      if negb (os_IsNotExist e) then Ret (inl e)
      else
        match fs !! d with
        | None => Ret (inl (ErrOsNotExist [d]))
        | Some (File _) => Ret (inl (ErrOsNotDir [d]))
        | Some (Dir m) =>
            match scan hash rest ns "" with
            | inl e => Ret (inl e)
            | inr mtch =>
                if String.eqb mtch "" then Ret (inl (ErrDoesNotExist hash))
                else Ret (os_Open fs d mtch)
            end
        end
  end.

(** ** [Dir]: locating the git directory

    A clean path is the list of its components, innermost first; the
    empty list is the path at which [filepath.Dir] stops (["/"] for an
    absolute path, ["."] for a relative one).  [stat_exists p] says that
    [os.Stat(p)] does not fail with a not-exist error. *)
Section Locate.
Variable stat_exists : list string -> bool.

(** [exists := func(args ...string) bool] *)
Definition exists_all (args : list (list string)) : bool := forallb stat_exists args.

(** [filepath.Join(d, name)] *)
Definition filepath_Join (d : list string) (name : string) : list string := name :: d.

(** The two tests of one turn of the loop. *)
Definition Dir_test (d : list string) : option (list string) :=
  if exists_all [filepath_Join d ".git"] then Some (filepath_Join d ".git")
  else if exists_all [filepath_Join d "config"; filepath_Join d "HEAD";
                      filepath_Join d "objects"]
  then Some d (* bare *)
  else None.

(** [func Dir(x string) string]; the name [Dir] is taken by the
    directory nodes of the objects directory. *)
Fixpoint GitDir (d : list string) : result (list string) :=
  match Dir_test d with
  | Some r => Ret r
  | None =>
      match d with
      | [] => Panic "not a git repository"          (* x == d *)
      | _ :: x =>
          match x with
          | [] => Panic "not a git repository"      (* x == "/" || x == "." *)
          | _ :: _ => GitDir x
          end
      end
  end.

End Locate.

(* ===================================================================== *)
(** * Part II: theorems                                                   *)
(* ===================================================================== *)

(** ** Test vectors for the digest *)

Example sha1_empty :
  hex.EncodeToString (sha1.Sum []) = "da39a3ee5e6b4b0d3255bfef95601890afd80709"%string.
Proof. vm_compute. reflexivity. Qed.

Example sha1_abc :
  hex.EncodeToString (sha1.Sum (bytes "abc")) = "a9993e364706816aba3e25717850c26c9cd0d89d"%string.
Proof. vm_compute. reflexivity. Qed.
(** ** Bytes, searching and comparing *)

Lemma byte_eqb_refl (b : byte) : Byte.eqb b b = true.
Proof. now apply Byte.byte_dec_lb. Qed.

Lemma byte_eqb_eq (a b : byte) : Byte.eqb a b = true <-> a = b.
Proof. split; [apply Byte.byte_dec_bl | apply Byte.byte_dec_lb]. Qed.

Lemma byte_eqb_neq (a b : byte) : Byte.eqb a b = false <-> a <> b.
Proof.
  split.
  - apply Byte.eqb_false.
  - intros Hne. destruct (Byte.eqb a b) eqn:E; [|reflexivity].
    apply byte_eqb_eq in E. contradiction.
Qed.

Lemma bytes_Equal_eq (a b : list byte) : bytes_Equal a b = true <-> a = b.
Proof.
  revert b. induction a as [|x a IH]; intros [|y b]; simpl; try (split; congruence).
  rewrite andb_true_iff, byte_eqb_eq, IH. split.
  - intros [-> ->]. reflexivity.
  - intros [= -> ->]. split; reflexivity.
Qed.

Lemma bytes_Equal_neq (a b : list byte) : a <> b -> bytes_Equal a b = false.
Proof.
  intros Hne. destruct (bytes_Equal a b) eqn:E; [|reflexivity].
  apply bytes_Equal_eq in E. contradiction.
Qed.

Lemma IndexByte_None (s : list byte) (c : byte) :
  IndexByte s c = None <-> ~ In c s.
Proof.
  induction s as [|x s IH]; simpl; [tauto|].
  destruct (Byte.eqb x c) eqn:E.
  - apply byte_eqb_eq in E. split; [discriminate|]. intros Hn. exfalso. apply Hn. now left.
  - apply byte_eqb_neq in E. destruct (IndexByte s c) eqn:Ei; simpl.
    + split; [discriminate|]. intros Hn. exfalso.
      assert (Hs : ~ In c s) by tauto. apply IH in Hs. discriminate.
    + split; [|reflexivity]. intros _ [Hx|Hin]; [contradiction|].
      now apply (proj1 IH).
Qed.

Lemma IndexByte_Some (s : list byte) (c : byte) (i : nat) :
  IndexByte s c = Some i ->
  exists post, s = firstn i s ++ c :: post /\ ~ In c (firstn i s) /\ length (firstn i s) = i.
Proof.
  revert i. induction s as [|x s IH]; simpl; intros i Hi; [discriminate|].
  destruct (Byte.eqb x c) eqn:E.
  - apply byte_eqb_eq in E. injection Hi as <-. subst x. exists s. simpl. tauto.
  - apply byte_eqb_neq in E. destruct (IndexByte s c) as [j|] eqn:Ej; [|discriminate].
    injection Hi as <-. destruct (IH j eq_refl) as (post & Hs & Hn & Hl).
    exists post. simpl. split; [congruence|]. split; [|congruence].
    intros [Hx|Hin]; [contradiction|]. now apply Hn.
Qed.

Lemma IndexByte_split (pre post : list byte) (c : byte) :
  ~ In c pre -> IndexByte (pre ++ c :: post) c = Some (length pre).
Proof.
  induction pre as [|x pre IH]; simpl; intros Hn.
  - now rewrite byte_eqb_refl.
  - assert (E : Byte.eqb x c = false) by (apply byte_eqb_neq; tauto).
    rewrite E, IH by tauto. reflexivity.
Qed.

Lemma IndexByte_app_None (a b : list byte) (c : byte) :
  IndexByte a c = None -> IndexByte b c = None -> IndexByte (a ++ b) c = None.
Proof.
  rewrite !IndexByte_None. intros Ha Hb Hin. apply in_app_or in Hin. tauto.
Qed.
(** ** [bufio.Reader]: the reads deliver the stream in order *)

Lemma ReadSlice_loop_eq (fuel : nat) (delim : byte) (b : bufio.Reader) :
  bufio.ReadSlice_loop fuel delim b =
  match IndexByte (bufio.buf b) delim with
  | Some i =>
      (firstn (S i) (bufio.buf b), None,
       bufio.mkReader (skipn (S i) (bufio.buf b)) (bufio.rd b) (bufio.size b) (bufio.err b))
  | None =>
      match bufio.err b with
      | Some e => (bufio.buf b, Some e, bufio.mkReader [] (bufio.rd b) (bufio.size b) None)
      | None =>
          if (bufio.size b <=? bufio.Buffered b)%nat then
            (bufio.buf b, Some ErrBufferFull, bufio.mkReader [] (bufio.rd b) (bufio.size b) None)
          else
            match fuel with
            | O => (bufio.buf b, Some ErrNoProgress, bufio.mkReader [] (bufio.rd b) (bufio.size b) None)
            | S fuel' => bufio.ReadSlice_loop fuel' delim (bufio.fill b)
            end
      end
  end.
Proof. destruct fuel; reflexivity. Qed.

Lemma fill_stream (b : bufio.Reader) : stream (bufio.fill b) = stream b.
Proof.
  unfold stream, bufio.fill. destruct (bufio.rd b) eqn:E; simpl.
  - reflexivity.
  - rewrite <- E, <- app_assoc, firstn_skipn. reflexivity.
Qed.

Lemma fill_buf_None (b : bufio.Reader) (d : byte) :
  bufio.rd b = [] -> bufio.buf (bufio.fill b) = bufio.buf b.
Proof. intros E. unfold bufio.fill. rewrite E. reflexivity. Qed.

Lemma fill_ok (b : bufio.Reader) :
  reader_ok b -> bufio.err b = None -> reader_ok (bufio.fill b).
Proof.
  intros [_ Hs] He. unfold reader_ok, bufio.fill.
  destruct (bufio.rd b); simpl; split; auto.
Qed.

Lemma fill_size (b : bufio.Reader) : bufio.size (bufio.fill b) = bufio.size b.
Proof. unfold bufio.fill. destruct (bufio.rd b); reflexivity. Qed.

Lemma fill_progress (b : bufio.Reader) :
  (bufio.Buffered b < bufio.size b)%nat ->
  bufio.err (bufio.fill b) = None ->
  (length (bufio.rd (bufio.fill b)) < length (bufio.rd b))%nat.
Proof.
  unfold bufio.fill, bufio.Buffered. intros Hroom.
  destruct (bufio.rd b) as [|x r] eqn:E; simpl; [discriminate|]. intros _.
  destruct (bufio.size b - length (bufio.buf b))%nat as [|n] eqn:En; [lia|].
  simpl. rewrite length_skipn. lia.
Qed.

(** The outcome of one [ReadSlice]: a fragment that ends at the first
    delimiter, a full buffer without one, or the rest of the stream at
    its end. *)
Definition slice_post (d : byte) (frag : list byte) (e : option error) (b' : bufio.Reader) : Prop :=
  match e with
  | None => exists pre, frag = pre ++ [d] /\ ~ In d pre
  | Some ErrBufferFull => ~ In d frag /\ frag <> []
  | Some EOF => ~ In d frag /\ bufio.buf b' = [] /\ bufio.rd b' = []
  | Some _ => False
  end.

Lemma ReadSlice_loop_spec (fuel : nat) (d : byte) : forall b : bufio.Reader,
  reader_ok b ->
  (bufio.err b = None -> (length (bufio.rd b) < fuel)%nat) ->
  exists frag e b',
    bufio.ReadSlice_loop fuel d b = (frag, e, b') /\
    reader_ok b' /\ bufio.size b' = bufio.size b /\
    frag ++ stream b' = stream b /\ slice_post d frag e b'.
Proof.
  induction fuel as [|fuel IH]; intros b Hok Hfuel; rewrite ReadSlice_loop_eq.
  all: destruct (IndexByte (bufio.buf b) d) as [i|] eqn:Ei.
  all: try (apply IndexByte_Some in Ei as (post & Hsplit & Hnin & Hlen);
    eexists _, _, _; split; [reflexivity|];
    split; [exact Hok|]; split; [reflexivity|]; split;
    [unfold stream; simpl; rewrite app_assoc, firstn_skipn; reflexivity|];
    simpl; exists (firstn i (bufio.buf b)); split; [|exact Hnin];
    rewrite Hsplit at 1;
    replace (S i) with (length (firstn i (bufio.buf b)) + 1)%nat by lia;
    rewrite firstn_app_2; reflexivity).
  all: apply IndexByte_None in Ei.
  all: destruct (bufio.err b) as [e|] eqn:Ee.
  all: try (destruct Hok as [[Hnone|[HE Hrd]] Hsz]; [congruence|];
    assert (e = EOF) by congruence; subst e;
    eexists _, _, _; split; [reflexivity|];
    split; [split; simpl; auto|]; split; [reflexivity|]; split;
    [unfold stream; simpl; reflexivity|]; simpl; auto).
  all: destruct (bufio.size b <=? bufio.Buffered b)%nat eqn:Efull.
  all: try (apply Nat.leb_le in Efull; unfold bufio.Buffered in Efull;
    eexists _, _, _; split; [reflexivity|];
    split; [split; simpl; [auto|apply Hok]|]; split; [reflexivity|]; split;
    [unfold stream; simpl; reflexivity|]; simpl; split; [exact Ei|];
    destruct Hok as [_ Hsz]; destruct (bufio.buf b); simpl in *; [lia|discriminate]).
  - specialize (Hfuel eq_refl). lia.
  - apply Nat.leb_gt in Efull.
    destruct (IH (bufio.fill b)) as (frag & e & b' & Hrun & Hok' & Hsz & Hstr & Hpost).
    + now apply fill_ok.
    + intros Hnone. pose proof (fill_progress b Efull Hnone). specialize (Hfuel eq_refl). lia.
    + exists frag, e, b'. rewrite Hrun, Hsz, Hstr, fill_size, fill_stream. auto.
Qed.
Lemma ReadSlice_spec (d : byte) (b : bufio.Reader) :
  reader_ok b ->
  exists frag e b',
    bufio.ReadSlice d b = (frag, e, b') /\
    reader_ok b' /\ bufio.size b' = bufio.size b /\
    frag ++ stream b' = stream b /\ slice_post d frag e b'.
Proof. intros Hok. apply ReadSlice_loop_spec; [exact Hok|]. intros _. lia. Qed.

Lemma stream_length (b : bufio.Reader) :
  length (stream b) = (length (bufio.buf b) + length (bufio.rd b))%nat.
Proof. unfold stream. apply length_app. Qed.

Lemma ReadBytes_loop_spec (fuel : nat) (d : byte) : forall (b : bufio.Reader) (full : list byte),
  reader_ok b ->
  (length (stream b) <= fuel)%nat ->
  exists frag e b',
    bufio.ReadBytes_loop fuel d b full = (full ++ frag, e, b') /\
    reader_ok b' /\ bufio.size b' = bufio.size b /\
    frag ++ stream b' = stream b /\
    match e with
    | None => exists pre, frag = pre ++ [d] /\ ~ In d pre
    | Some EOF => ~ In d frag /\ bufio.buf b' = [] /\ bufio.rd b' = []
    | Some _ => False
    end.
Proof.
  induction fuel as [|fuel IH]; intros b full Hok Hfuel.
  all: destruct (ReadSlice_spec d b Hok) as (frag & e & b' & Hrun & Hok' & Hsz & Hstr & Hpost).
  all: simpl; rewrite Hrun.
  all: destruct e as [[]|]; simpl in Hpost; try contradiction.
  all: try (exists frag; eexists _, b'; split; [reflexivity|]; auto).
  - destruct Hpost as [_ Hne]. rewrite <- Hstr, length_app in Hfuel.
    destruct frag; [congruence|simpl in Hfuel; lia].
  - destruct Hpost as [Hnin Hne].
    destruct (IH b' (full ++ frag) Hok') as (frag2 & e2 & b2 & Hrun2 & Hok2 & Hsz2 & Hstr2 & Hpost2).
    + rewrite <- Hstr, length_app in Hfuel. destruct frag; [congruence|simpl in Hfuel; lia].
    + exists (frag ++ frag2), e2, b2. rewrite Hrun2, app_assoc.
      split; [reflexivity|]. split; [exact Hok2|]. split; [congruence|].
      split; [rewrite <- app_assoc, Hstr2; exact Hstr|].
      destruct e2 as [[]|]; try contradiction.
      * destruct Hpost2 as (Hn2 & Hb & Hr). split; [|auto].
        intros Hin. apply in_app_or in Hin. tauto.
      * destruct Hpost2 as (pre & -> & Hn2). exists (frag ++ pre). rewrite app_assoc.
        split; [reflexivity|]. intros Hin. apply in_app_or in Hin. tauto.
Qed.

(** [ReadBytes] when the delimiter is ahead: everything up to and
    including its first occurrence is returned and the stream moves past
    it. *)
Lemma ReadBytes_found (d : byte) (b : bufio.Reader) (pre post : list byte) :
  reader_ok b -> stream b = pre ++ d :: post -> ~ In d pre ->
  exists b', bufio.ReadBytes d b = (pre ++ [d], None, b') /\
             reader_ok b' /\ bufio.size b' = bufio.size b /\ stream b' = post.
Proof.
  intros Hok Hs Hn.
  destruct (ReadBytes_loop_spec (length (bufio.buf b) + length (bufio.rd b)) d b [] Hok)
    as (frag & e & b' & Hrun & Hok' & Hsz & Hstr & Hpost).
  { rewrite stream_length. lia. }
  unfold bufio.ReadBytes. rewrite Hrun. simpl.
  assert (Hd : In d (stream b)) by (rewrite Hs; apply in_or_app; right; now left).
  destruct e as [[]|]; try contradiction.
  - destruct Hpost as (Hnin & Hb & Hr). exfalso. apply Hnin.
    rewrite <- Hstr in Hd. unfold stream in Hd at 1. rewrite Hb, Hr in Hd. simpl in Hd.
    now rewrite app_nil_r in Hd.
  - destruct Hpost as (pre' & -> & Hn').
    assert (Hi1 := IndexByte_split pre post d Hn).
    assert (Hi2 := IndexByte_split pre' (stream b') d Hn').
    rewrite <- Hs, <- Hstr, <- app_assoc in Hi1. simpl in Hi1. rewrite Hi2 in Hi1.
    injection Hi1 as Hlen.
    rewrite <- Hstr, <- app_assoc in Hs. simpl in Hs.
    destruct (app_inj_1 _ _ _ _ Hlen Hs) as [-> Hs'].
    injection Hs' as Hs'.
    exists b'. auto.
Qed.

(** [ReadBytes] when the delimiter does not occur: the rest of the
    stream is returned with [io.EOF] and nothing is left, neither in the
    buffer nor in the source. *)
Lemma ReadBytes_eof (d : byte) (b : bufio.Reader) :
  reader_ok b -> ~ In d (stream b) ->
  exists b', bufio.ReadBytes d b = (stream b, Some EOF, b') /\
             reader_ok b' /\ bufio.size b' = bufio.size b /\
             bufio.buf b' = [] /\ bufio.rd b' = [].
Proof.
  intros Hok Hn.
  destruct (ReadBytes_loop_spec (length (bufio.buf b) + length (bufio.rd b)) d b [] Hok)
    as (frag & e & b' & Hrun & Hok' & Hsz & Hstr & Hpost).
  { rewrite stream_length. lia. }
  unfold bufio.ReadBytes. rewrite Hrun. simpl.
  destruct e as [[]|]; try contradiction.
  - destruct Hpost as (Hnin & Hb & Hr). exists b'.
    assert (Hfrag : stream b = frag).
    { rewrite <- Hstr. unfold stream. rewrite Hb, Hr, app_nil_r. reflexivity. }
    rewrite Hfrag. auto.
  - destruct Hpost as (pre' & -> & Hn'). exfalso. apply Hn. rewrite <- Hstr.
    apply in_or_app. left. apply in_or_app. right. now left.
Qed.

Lemma NewReaderSize_ok (s : list byte) (n : nat) : reader_ok (bufio.NewReaderSize s n).
Proof.
  unfold reader_ok, bufio.NewReaderSize, bufio.minReadBufferSize. simpl. split; [auto|].
  destruct (n <? 16)%nat eqn:E; [lia|]. apply Nat.ltb_ge in E. lia.
Qed.

Lemma NewReaderSize_stream (s : list byte) (n : nat) : stream (bufio.NewReaderSize s n) = s.
Proof. reflexivity. Qed.

Lemma NewReader_ok (s : list byte) : reader_ok (bufio.NewReader s).
Proof. apply NewReaderSize_ok. Qed.

Lemma NewReader_stream (s : list byte) : stream (bufio.NewReader s) = s.
Proof. reflexivity. Qed.
(** ** Decimal integers: [Itoa] and [Atoi] *)

Lemma Z_of_byte_of_Z (z : Z) : Z_of_byte (byte_of_Z z) = z mod 256.
Proof.
  unfold Z_of_byte, byte_of_Z.
  assert (Hr : 0 <= z mod 256 < 256) by (apply Z.mod_pos_bound; lia).
  destruct (Byte.of_N (Z.to_N (z mod 256))) as [b|] eqn:E.
  - apply Byte.to_of_N in E. rewrite E. lia.
  - apply Byte.of_N_None_iff in E. lia.
Qed.

Lemma Z_of_byte_range (b : byte) : 0 <= Z_of_byte b < 256.
Proof. unfold Z_of_byte. pose proof (Byte.to_N_bounded b). lia. Qed.

Lemma Z_of_byte_inj (a b : byte) : Z_of_byte a = Z_of_byte b -> a = b.
Proof.
  unfold Z_of_byte. intros E. apply N2Z.inj in E.
  assert (Ha := Byte.of_to_N a). rewrite E, Byte.of_to_N in Ha. congruence.
Qed.

Lemma digit_value (d : Z) : 0 <= d <= 9 -> Z_of_byte (strconv.digit d) = 48 + d.
Proof.
  intros Hd. unfold strconv.digit. rewrite Z_of_byte_of_Z. apply Z.mod_small. lia.
Qed.

Lemma digit_is_digit (d : Z) : 0 <= d <= 9 -> strconv.is_digit (strconv.digit d) = true.
Proof.
  intros Hd. unfold strconv.is_digit. rewrite digit_value by exact Hd.
  apply andb_true_iff. split; apply Z.leb_le; lia.
Qed.

Lemma utoa_aux_digits (fuel : nat) : forall (n : Z) (acc : list byte),
  0 <= n -> forallb strconv.is_digit acc = true ->
  forallb strconv.is_digit (strconv.utoa_aux fuel n acc) = true.
Proof.
  induction fuel as [|fuel IH]; intros n acc Hn Hacc; simpl; [exact Hacc|].
  assert (Hd : 0 <= n mod 10 <= 9) by (pose proof (Z.mod_pos_bound n 10); lia).
  destruct (n <? 10) eqn:E.
  - simpl. now rewrite digit_is_digit.
  - apply IH; [apply Z.div_pos; lia|]. simpl. now rewrite digit_is_digit.
Qed.

Lemma utoa_aux_value (fuel : nat) : forall (n : Z) (acc : list byte),
  0 <= n -> Z.log2 n < Z.of_nat fuel ->
  value_from 0 (strconv.utoa_aux fuel n acc) = value_from n acc.
Proof.
  induction fuel as [|fuel IH]; intros n acc Hn Hf.
  - pose proof (Z.log2_nonneg n). lia.
  - simpl. assert (Hd : 0 <= n mod 10 <= 9) by (pose proof (Z.mod_pos_bound n 10); lia).
    destruct (n <? 10) eqn:E.
    + apply Z.ltb_lt in E. unfold value_from. simpl. rewrite digit_value by exact Hd.
      rewrite Z.mod_small by lia. f_equal. lia.
    + apply Z.ltb_ge in E. rewrite IH.
      * unfold value_from. simpl. rewrite digit_value by exact Hd. f_equal.
        pose proof (Z.div_mod n 10). lia.
      * apply Z.div_pos; lia.
      * assert (Hlt : Z.log2 (n / 10) < Z.log2 n).
        { assert (H2 : n / 10 <= n / 2).
          { apply Z.div_le_compat_l; lia. }
          assert (Hl : Z.log2 (n / 10) <= Z.log2 (n / 2)) by (apply Z.log2_le_mono; exact H2).
          rewrite Z.div2_div in Hl || idtac.
          assert (Hh : Z.log2 (n / 2) = Z.log2 n - 1).
          { rewrite <- Z.div2_div, Z.div2_spec, Z.log2_shiftr by lia.
            pose proof (Z.log2_le_mono 10 n E) as Hm. change (Z.log2 10) with 3 in Hm. lia. }
          lia. }
        lia.
Qed.

Lemma utoa_aux_length (k : nat) : forall (fuel : nat) (n : Z) (acc : list byte),
  0 <= n < 10 ^ Z.of_nat (S k) ->
  (length (strconv.utoa_aux fuel n acc) <= S k + length acc)%nat.
Proof.
  induction k as [|k IH]; intros fuel n acc Hn.
  - destruct fuel; simpl; [lia|].
    change (10 ^ Z.of_nat 1) with 10 in Hn.
    destruct (n <? 10) eqn:E; [simpl; lia|]. apply Z.ltb_ge in E. lia.
  - destruct fuel; simpl; [lia|].
    destruct (n <? 10) eqn:E; [simpl; lia|].
    etransitivity; [apply IH|simpl; lia].
    split; [apply Z.div_pos; lia|].
    apply Z.div_lt_upper_bound; [lia|].
    replace (Z.of_nat (S (S k))) with (Z.of_nat (S k) + 1) in Hn by lia.
    rewrite Z.pow_add_r in Hn by lia. lia.
Qed.

Lemma utoa_aux_nonempty (fuel : nat) (n : Z) (acc : list byte) :
  strconv.utoa_aux (S fuel) n acc <> [].
Proof.
  revert n acc. induction fuel as [|fuel IH]; intros n acc.
  - simpl. destruct (n <? 10); discriminate.
  - change (strconv.utoa_aux (S (S fuel)) n acc)
      with (if n <? 10 then strconv.digit (n mod 10) :: acc
            else strconv.utoa_aux (S fuel) (n / 10) (strconv.digit (n mod 10) :: acc)).
    destruct (n <? 10); [discriminate|apply IH].
Qed.

Lemma utoa_digits (n : Z) : 0 <= n -> forallb strconv.is_digit (strconv.utoa n) = true.
Proof. intros Hn. now apply utoa_aux_digits. Qed.

Lemma utoa_value (n : Z) : 0 <= n -> strconv.digits_value (strconv.utoa n) = n.
Proof.
  intros Hn. unfold strconv.utoa.
  change (strconv.digits_value ?l) with (value_from 0 l).
  rewrite utoa_aux_value; [reflexivity|exact Hn|].
  pose proof (Z.log2_nonneg n). lia.
Qed.

Lemma utoa_length (n : Z) : 0 <= n <= strconv.maxInt -> (length (strconv.utoa n) <= 19)%nat.
Proof.
  intros Hn. pose proof (utoa_aux_length 18 (S (Z.to_nat (Z.log2 n))) n []) as Hl.
  simpl length in Hl. unfold strconv.utoa. etransitivity; [apply Hl|lia].
  unfold strconv.maxInt in Hn. split; [lia|].
  change (10 ^ Z.of_nat 19) with 10000000000000000000. change (2 ^ 63) with 9223372036854775808 in Hn. lia.
Qed.

Lemma is_digit_not (c d : byte) :
  strconv.is_digit c = true -> strconv.is_digit d = false -> c <> d.
Proof. intros Hc Hd ->. congruence. Qed.

Lemma digits_not_in (ds : list byte) (d : byte) :
  forallb strconv.is_digit ds = true -> strconv.is_digit d = false -> ~ In d ds.
Proof.
  intros Hds Hd Hin. rewrite forallb_forall in Hds. specialize (Hds d Hin). congruence.
Qed.

(** [Atoi] reads back what [Itoa] prints for a length. *)
Lemma Atoi_Itoa (n : Z) :
  0 <= n <= strconv.maxInt -> strconv.Atoi (strconv.Itoa n) = (n, None).
Proof.
  intros Hn. unfold strconv.Itoa.
  destruct (n <? 0) eqn:E; [apply Z.ltb_lt in E; lia|].
  pose proof (utoa_digits n (proj1 Hn)) as Hd.
  pose proof (utoa_value n (proj1 Hn)) as Hv.
  assert (Hne : strconv.utoa n <> []) by apply utoa_aux_nonempty.
  unfold strconv.Atoi.
  destruct (strconv.utoa n) as [|c ds] eqn:Eu; [congruence|].
  assert (Hc : strconv.is_digit c = true) by (simpl in Hd; apply andb_true_iff in Hd; tauto).
  assert (E1 : Byte.eqb c x2d = false).
  { apply byte_eqb_neq. apply is_digit_not; [exact Hc|reflexivity]. }
  assert (E2 : Byte.eqb c x2b = false).
  { apply byte_eqb_neq. apply is_digit_not; [exact Hc|reflexivity]. }
  rewrite E1, E2, Hd, Hv.
  destruct (strconv.maxInt <? n) eqn:Em; [apply Z.ltb_lt in Em; lia|reflexivity].
Qed.
(** ** Hexadecimal encoding *)

Lemma encode_byte_length (v : byte) : length (hex.encode_byte v) = 2%nat.
Proof. reflexivity. Qed.

Lemma encoded_length (src : list byte) : length (hex.encoded src) = (2 * length src)%nat.
Proof.
  unfold hex.encoded. induction src as [|v src IH]; simpl; [reflexivity|].
  simpl in IH. rewrite IH. lia.
Qed.

Lemma encode_byte_lower (v : byte) : forallb is_lower_hex (hex.encode_byte v) = true.
Proof. destruct v; vm_compute; reflexivity. Qed.

Lemma encoded_lower (src : list byte) : forallb is_lower_hex (hex.encoded src) = true.
Proof.
  unfold hex.encoded. induction src as [|v src IH]; [reflexivity|].
  cbn [flat_map]. rewrite forallb_app, encode_byte_lower, IH. reflexivity.
Qed.

Lemma string_of_list_byte_length (l : list byte) :
  String.length (string_of_list_byte l) = length l.
Proof.
  unfold string_of_list_byte. induction l as [|b l IH]; simpl; [reflexivity|].
  now rewrite IH.
Qed.

Lemma EncodeToString_length (src : list byte) :
  String.length (hex.EncodeToString src) = (2 * length src)%nat.
Proof. unfold hex.EncodeToString. now rewrite string_of_list_byte_length, encoded_length. Qed.

Lemma EncodeToString_hex (src : list byte) : is_hex_string (hex.EncodeToString src) = true.
Proof.
  unfold is_hex_string, hex.EncodeToString.
  rewrite list_byte_of_string_of_list_byte. apply encoded_lower.
Qed.

(** Decoding the two characters of an encoded byte gives the byte. *)
Lemma decode_encode_byte (v : byte) :
  match hex.encode_byte v with
  | [p; q] =>
      match hex.fromHexChar p, hex.fromHexChar q with
      | Some a, Some b => byte_of_Z (Z.lor (Z.shiftl a 4) b) = v
      | _, _ => False
      end
  | _ => False
  end.
Proof. destruct v; vm_compute; reflexivity. Qed.

Lemma Decode_loop_encoded (src : list byte) : forall pre rest : list byte,
  (length src <= length rest)%nat ->
  hex.Decode_loop (pre ++ rest) (length pre) (hex.encoded src)
  = Ret (pre ++ src ++ skipn (length src) rest, (length pre + length src)%nat, None).
Proof.
  induction src as [|v src IH]; intros pre rest Hlen.
  - simpl. rewrite Nat.add_0_r. reflexivity.
  - destruct rest as [|y rest]; [simpl in Hlen; lia|].
    pose proof (decode_encode_byte v) as Hv.
    unfold hex.encoded. cbn [flat_map].
    destruct (hex.encode_byte v) as [|p [|q [|x l]]]; try contradiction.
    cbn [app hex.Decode_loop].
    destruct (hex.fromHexChar p) as [a|]; [|contradiction].
    destruct (hex.fromHexChar q) as [b|]; [|contradiction].
    assert (Hlt : (length pre <? length (pre ++ y :: rest))%nat = true).
    { apply Nat.ltb_lt. rewrite length_app. simpl. lia. }
    rewrite Hlt, Hv.
    assert (Hins : <[length pre := v]> (pre ++ y :: rest) = (pre ++ [v]) ++ rest).
    { rewrite insert_app_r_alt by lia. rewrite Nat.sub_diag. simpl.
      rewrite <- app_assoc. reflexivity. }
    rewrite Hins.
    replace (S (length pre)) with (length (pre ++ [v])) by (rewrite length_app; simpl; lia).
    fold (hex.encoded src). rewrite IH by (simpl in Hlen; lia).
    rewrite length_app. simpl. rewrite <- app_assoc. simpl.
    replace (length pre + 1 + length src)%nat with (length pre + S (length src))%nat by lia.
    reflexivity.
Qed.

Lemma Decode_encoded (dst src : list byte) :
  length dst = length src ->
  hex.Decode dst (hex.encoded src) = Ret (src, length src, None).
Proof.
  intros Hlen. unfold hex.Decode.
  pose proof (Decode_loop_encoded src [] dst) as H. simpl in H.
  rewrite H by lia. rewrite <- Hlen, skipn_all, app_nil_r. reflexivity.
Qed.

Lemma Encode_exact (dst src : list byte) :
  length dst = (2 * length src)%nat ->
  hex.Encode dst src = Ret (hex.encoded src, (2 * length src)%nat).
Proof.
  intros Hlen. unfold hex.Encode. rewrite Hlen, Nat.ltb_irrefl.
  rewrite <- Hlen, skipn_all, app_nil_r. reflexivity.
Qed.

(** ** The digest has twenty bytes and prints as forty characters *)

Lemma be_bytes_length (n : nat) (x : Z) : length (sha1.be_bytes n x) = n.
Proof. unfold sha1.be_bytes. now rewrite length_map, length_rev, length_seq. Qed.

Lemma Sum_length (msg : list byte) : length (sha1.Sum msg) = 20%nat.
Proof.
  unfold sha1.Sum.
  destruct (fold_left sha1.block _ sha1.init) as [[[[a b] c] d] e].
  unfold sha1.digest_bytes. rewrite !length_app, !be_bytes_length. reflexivity.
Qed.

Lemma Hash_length (g : writer) : String.length (writer_Hash g) = 40%nat.
Proof. unfold writer_Hash. now rewrite EncodeToString_length, Sum_length. Qed.

Lemma Hash_hex (g : writer) : is_hex_string (writer_Hash g) = true.
Proof. apply EncodeToString_hex. Qed.
(** ** The object writer *)

Lemma treeWriter_Write_open (w : treeWriter) (p : list byte) n e w' :
  treeWriter_Write w p = Ret (n, e, w') -> file_closed w' = file_closed w.
Proof.
  unfold treeWriter_Write.
  destruct (treeWriter_loop _ _ _ _) as [[[[r wb] sm] err]|m]; simpl; [|discriminate].
  destruct (file_closed w) eqn:E; intros [= <- <- <-]; reflexivity.
Qed.

(** [C7] Writer protocol order: [Write] before [WriteHeader] returns an
    error and leaves the writer (its staged, compressed and hashed
    bytes) as it was; [WriteHeader] on a writer whose header has been
    written returns an error and leaves the writer as it was, which is
    the state of every writer after one [WriteHeader] call; [WriteHeader]
    succeeds only from the state where no header has been written, which
    is the state of a new writer. *)
Theorem writer_protocol_order (g : writer) (p stg : list byte) (ty : GitType) (s : Z) :
  (wroteHeader g = false ->
     writer_Write g p = Ret (O, Some ErrMustCallWriteHeader, g))
  /\ (wroteHeader g = true ->
     writer_WriteHeader g ty s = Ret (O, Some ErrHeaderAlreadyWritten, g))
  /\ (forall n e g1, writer_WriteHeader g ty s = Ret (n, e, g1) ->
        wroteHeader g1 = true /\
        forall ty' s', writer_WriteHeader g1 ty' s' = Ret (O, Some ErrHeaderAlreadyWritten, g1))
  /\ (forall n g1, writer_WriteHeader g ty s = Ret (n, None, g1) -> wroteHeader g = false)
  /\ wroteHeader (NewWriter stg) = false.
Proof.
  split; [|split; [|split; [|split]]].
  - intros Hw. unfold writer_Write. rewrite Hw. reflexivity.
  - intros Hw. unfold writer_WriteHeader. rewrite Hw. reflexivity.
  - intros n e g1 Hrun.
    assert (Hw1 : wroteHeader g1 = true).
    { unfold writer_WriteHeader in Hrun. destruct (wroteHeader g) eqn:Hw.
      - injection Hrun as _ _ <-. exact Hw.
      - destruct (GitType_eqb ty Tree || (s <? 0)).
        + injection Hrun as _ _ <-. reflexivity.
        + unfold writer_Write in Hrun. simpl in Hrun. destruct (tw g) as [w|].
          * destruct (treeWriter_Write w (Header ty s)) as [[[n' e'] w']|m]; simpl in Hrun;
              [|discriminate]. injection Hrun as _ _ <-. reflexivity.
          * unfold multi_Write in Hrun. simpl in Hrun.
            destruct (zw_closed g); [destruct (Header ty s)|];
              injection Hrun as _ _ <-; reflexivity. }
    split; [exact Hw1|]. intros ty' s'. unfold writer_WriteHeader. rewrite Hw1. reflexivity.
  - intros n g1 Hrun. unfold writer_WriteHeader in Hrun.
    destruct (wroteHeader g); [discriminate|reflexivity].
  - reflexivity.
Qed.

Section WriterFacts.
Context `{Zlib}.

Lemma spooling_start (stg : list byte) (ty : GitType) (s : Z) :
  GitType_eqb ty Tree || (s <? 0) = true ->
  exists g0, writer_WriteHeader (NewWriter stg) ty s = Ret (O, None, g0)
             /\ spooling stg ty fresh_treeWriter g0.
Proof.
  intros Hsp. unfold writer_WriteHeader, NewWriter. simpl. rewrite Hsp.
  eexists. split; [reflexivity|]. split; reflexivity.
Qed.

Lemma spooling_Writes (stg : list byte) (ty : GitType) (ps : list (list byte)) :
  forall (w : treeWriter) (g g' : writer),
  spooling stg ty w g -> writer_Writes g ps = Ret g' ->
  exists w', treeWriter_Writes w ps = Ret w' /\ spooling stg ty w' g'.
Proof.
  induction ps as [|p ps IH]; intros w g g' [-> Hopen] Hrun; simpl in Hrun.
  - injection Hrun as <-. exists w. split; [reflexivity|]. split; auto.
  - unfold writer_Write in Hrun. simpl in Hrun.
    destruct (treeWriter_Write w p) as [[[n e] w1]|m] eqn:Ew; simpl in Hrun; [|discriminate].
    destruct (IH w1 _ g' (conj eq_refl (eq_trans (treeWriter_Write_open _ _ _ _ _ Ew) Hopen)) Hrun)
      as (w' & Hws & Hsp).
    exists w'. split; [|exact Hsp]. simpl. rewrite Ew. simpl. exact Hws.
Qed.

Lemma spooling_Close (stg : list byte) (ty : GitType) (w : treeWriter) (g : writer) :
  spooling stg ty w g ->
  exists g', writer_Close g = (None, g') /\
    hh g' = Header ty (Z.of_nat (length (file w))) ++ file w /\
    staging g' = stg ++ deflate (Header ty (Z.of_nat (length (file w))) ++ file w).
Proof.
  intros [-> Hopen]. unfold writer_Close. simpl. rewrite Hopen.
  unfold multi_Write. simpl. unfold zw_Close. simpl.
  eexists. split; [reflexivity|]. split; reflexivity.
Qed.

(** The length field at [Close] on the spooling path: after
    [WriteHeader] with type [Tree] or a negative size, the bytes passed
    to [Write] go through the tree writer into the temporary file and
    nothing is compressed or hashed; [Close] then emits the header whose
    decimal length field is the byte count of the temporary file,
    followed by the file, to the digest and, deflated, to the staging
    writer.  The file holds what the transcoder made of the payload,
    which for a type other than tree is not the payload (see the
    section on a payload of unknown size). *)
Theorem close_time_length (stg : list byte) (ty : GitType) (s : Z)
    (ps : list (list byte)) (g0 g : writer) :
  ty = Tree \/ s < 0 ->
  writer_WriteHeader (NewWriter stg) ty s = Ret (O, None, g0) ->
  writer_Writes g0 ps = Ret g ->
  staging g = stg /\ zw g = [] /\ hh g = [] /\
  exists w,
    tw g = Some w /\ treeWriter_Writes fresh_treeWriter ps = Ret w /\
    let size := Z.of_nat (length (file w)) in
    exists g',
      writer_Close g = (None, g') /\
      hh g' = Header ty size ++ file w /\
      staging g' = stg ++ deflate (Header ty size ++ file w) /\
      Header ty size = bytes (GitType_String ty) ++ [SP] ++ strconv.Itoa size ++ [NUL] /\
      forallb strconv.is_digit (strconv.Itoa size) = true /\
      strconv.digits_value (strconv.Itoa size) = size.
Proof.
  intros Hsp H0 Hrun.
  assert (Hb : GitType_eqb ty Tree || (s <? 0) = true).
  { destruct Hsp as [->|Hs]; [reflexivity|].
    apply orb_true_iff. right. now apply Z.ltb_lt. }
  destruct (spooling_start stg ty s Hb) as (g0' & H0' & Hsp0).
  rewrite H0 in H0'. injection H0' as <-.
  destruct (spooling_Writes stg ty ps _ _ _ Hsp0 Hrun) as (w & Hws & Hspw).
  destruct (spooling_Close stg ty w g Hspw) as (g' & Hc & Hh & Hs).
  destruct Hspw as [-> Hopen]. simpl.
  split; [reflexivity|]. split; [reflexivity|]. split; [reflexivity|].
  exists w. split; [reflexivity|]. split; [exact Hws|].
  exists g'. split; [exact Hc|]. split; [exact Hh|]. split; [exact Hs|].
  split; [reflexivity|].
  assert (Hn : 0 <= Z.of_nat (length (file w))) by lia.
  unfold strconv.Itoa. destruct (Z.of_nat (length (file w)) <? 0) eqn:E;
    [apply Z.ltb_lt in E; lia|].
  split; [now apply utoa_digits|now apply utoa_value].
Qed.

(** [C9] [Hash] is defined in every state of the writer and prints, in
    forty lower-case hexadecimal characters, the SHA-1 of the bytes that
    have reached the digest so far.  On the spooling path (type [Tree] or
    negative size) that is the digest of the empty message until [Close],
    whatever has been written, and after [Close] the digest of the framed
    object: the header for the spooled length, then the spooled bytes. *)
Theorem Hash_any_time (stg : list byte) (ty : GitType) (s : Z)
    (ps : list (list byte)) (g0 g : writer) :
  ty = Tree \/ s < 0 ->
  writer_WriteHeader (NewWriter stg) ty s = Ret (O, None, g0) ->
  writer_Writes g0 ps = Ret g ->
  (forall g1 : writer,
     writer_Hash g1 = hex.EncodeToString (sha1.Sum (hh g1)) /\
     String.length (writer_Hash g1) = 40%nat /\
     is_hex_string (writer_Hash g1) = true)
  /\ writer_Hash g0 = empty_digest
  /\ writer_Hash g = empty_digest
  /\ exists w g',
       tw g = Some w /\ writer_Close g = (None, g') /\
       writer_Hash g' =
         hex.EncodeToString
           (sha1.Sum (Header ty (Z.of_nat (length (file w))) ++ file w)).
Proof.
  intros Hsp H0 Hrun.
  assert (Hb : GitType_eqb ty Tree || (s <? 0) = true).
  { destruct Hsp as [->|Hs]; [reflexivity|].
    apply orb_true_iff. right. now apply Z.ltb_lt. }
  destruct (spooling_start stg ty s Hb) as (g0' & H0' & Hsp0).
  rewrite H0 in H0'. injection H0' as <-.
  destruct (spooling_Writes stg ty ps _ _ _ Hsp0 Hrun) as (w & _ & Hspw).
  destruct (spooling_Close stg ty w g Hspw) as (g' & Hc & Hh' & _).
  split; [|split; [|split]].
  - intros g1. split; [reflexivity|]. split; [apply Hash_length|apply Hash_hex].
  - destruct Hsp0 as [-> _]. vm_compute. reflexivity.
  - destruct Hspw as [-> _]. vm_compute. reflexivity.
  - exists w, g'. split; [destruct Hspw as [-> _]; reflexivity|]. split; [exact Hc|].
    unfold writer_Hash. rewrite Hh'. reflexivity.
Qed.

End WriterFacts.

Lemma close_time_length_witness :
  exists g0 g : writer,
    writer_WriteHeader (NewWriter []) Blob (-1) = Ret (O, None, g0) /\
    writer_Writes g0 [bytes "hello"] = Ret g /\ hh g = [].
Proof.
  eexists _, _. split; [reflexivity|]. split; [vm_compute; reflexivity|].
  eapply (@close_time_length stored_codec [] Blob (-1) [bytes "hello"]).
  - right. lia.
  - reflexivity.
  - vm_compute. reflexivity.
Defined.

Lemma Hash_any_time_witness :
  exists g0 g : writer,
    writer_WriteHeader (NewWriter []) Tree 0 = Ret (O, None, g0) /\
    writer_Writes g0 [bytes "100644 blob "] = Ret g /\
    writer_Hash g = empty_digest.
Proof.
  eexists _, _. split; [reflexivity|]. split; [vm_compute; reflexivity|].
  eapply (@Hash_any_time stored_codec [] Tree 0 [bytes "100644 blob "]).
  - left. reflexivity.
  - reflexivity.
  - vm_compute. reflexivity.
Defined.

(** ** The framing header *)

Lemma drop_last_snoc (pre : list byte) (d : byte) : drop_last (pre ++ [d]) = Ret pre.
Proof.
  unfold drop_last. destruct (pre ++ [d]) eqn:E.
  - destruct pre; discriminate.
  - rewrite <- E, removelast_last. reflexivity.
Qed.

Lemma set_last_snoc (pre : list byte) (d c : byte) : set_last (pre ++ [d]) c = Ret (pre ++ [c]).
Proof.
  unfold set_last. destruct (pre ++ [d]) eqn:E.
  - destruct pre; discriminate.
  - rewrite <- E, removelast_last. reflexivity.
Qed.

Lemma type_token_no_space (ty : GitType) : ~ In SP (bytes (GitType_String ty)).
Proof. apply IndexByte_None. destruct ty; reflexivity. Qed.

Lemma ParseType_String (ty : GitType) : ParseType (bytes (GitType_String ty)) = Ret ty.
Proof. destruct ty; reflexivity. Qed.

Lemma Itoa_nonneg (n : Z) : 0 <= n -> strconv.Itoa n = strconv.utoa n.
Proof.
  intros Hn. unfold strconv.Itoa. destruct (n <? 0) eqn:E; [|reflexivity].
  apply Z.ltb_lt in E. lia.
Qed.

Lemma Header_length (ty : GitType) (n : Z) :
  0 <= n <= strconv.maxInt -> (length (Header ty n) <= 28)%nat.
Proof.
  intros Hn. unfold Header. rewrite !length_app, Itoa_nonneg by lia.
  pose proof (utoa_length n Hn). destruct ty; simpl; lia.
Qed.

Lemma Itoa_no_NUL (n : Z) : 0 <= n -> ~ In NUL (strconv.Itoa n).
Proof.
  intros Hn. rewrite Itoa_nonneg by exact Hn.
  apply digits_not_in; [now apply utoa_digits|reflexivity].
Qed.

(** ** The object reader on a framed stream *)

Section ReaderFacts.
Context `{Zlib}.

Lemma Reset_framed (g : Reader) (ty : GitType) (n : Z) (D : list byte) :
  0 <= n <= strconv.maxInt ->
  Reader_Reset g (deflate (Header ty n ++ D))
  = Ret (None,
         mkReader (if pretty g && GitType_eqb ty Tree
                   then Pretty (fresh_treeReader D) else Plain D)
                  (pretty g) ty n).
Proof.
  intros Hn. unfold Reader_Reset. rewrite inflate_deflate.
  pose proof (Header_length ty n Hn) as Hlen.
  set (k := (28 - length (Header ty n))%nat).
  assert (Hfirst : firstn 28 (Header ty n ++ D) = Header ty n ++ firstn k D).
  { rewrite firstn_app. f_equal. apply firstn_all2. exact Hlen. }
  assert (Hskip : skipn 28 (Header ty n ++ D) = skipn k D).
  { rewrite skipn_app. rewrite skipn_all2 by exact Hlen. reflexivity. }
  rewrite Hfirst, Hskip. cbv zeta.
  destruct (ReadBytes_found SP (bufio.NewReader (Header ty n ++ firstn k D))
              (bytes (GitType_String ty)) (strconv.Itoa n ++ NUL :: firstn k D))
    as (b1 & Hrun1 & Hok1 & _ & Hs1).
  { apply NewReader_ok. }
  { rewrite NewReader_stream. unfold Header. rewrite <- !app_assoc. reflexivity. }
  { apply type_token_no_space. }
  rewrite Hrun1. rewrite drop_last_snoc. simpl mbind. unfold mbind, result_bind.
  rewrite ParseType_String.
  destruct (ReadBytes_found NUL b1 (strconv.Itoa n) (firstn k D))
    as (b2 & Hrun2 & Hok2 & _ & Hs2).
  { exact Hok1. }
  { exact Hs1. }
  { apply Itoa_no_NUL. lia. }
  rewrite Hrun2. rewrite drop_last_snoc. rewrite Atoi_Itoa by exact Hn.
  assert (HD : bufio.buf b2 ++ bufio.rd b2 ++ skipn k D = D).
  { rewrite app_assoc. fold (stream b2). rewrite Hs2. apply firstn_skipn. }
  rewrite HD. reflexivity.
Qed.

Lemma NewReader_framed (prettyReader : bool) (ty : GitType) (n : Z) (D : list byte) :
  0 <= n <= strconv.maxInt ->
  NewReader (deflate (Header ty n ++ D)) prettyReader
  = Ret (inr (mkReader (if prettyReader && GitType_eqb ty Tree
                        then Pretty (fresh_treeReader D) else Plain D)
                       prettyReader ty n)).
Proof.
  intros Hn. unfold NewReader. rewrite Reset_framed by exact Hn. reflexivity.
Qed.

End ReaderFacts.

(** Copying a plain payload delivers it unchanged. *)
Lemma io_Copy_plain (lenp : nat) (p : bool) (ty : GitType) (n : Z) :
  (1 <= lenp)%nat ->
  forall (fuel : nat) (s dst : list byte),
  (length s < fuel)%nat ->
  io_Copy fuel lenp (mkReader (Plain s) p ty n) dst
  = Ret (dst ++ s, None, mkReader (Plain []) p ty n).
Proof.
  intros Hp. induction fuel as [|fuel IH]; intros s dst Hf; [lia|].
  simpl. unfold Reader_Read. simpl. destruct s as [|x s].
  - simpl. unfold mbind, result_bind. simpl. reflexivity.
  - unfold mbind, result_bind. cbv iota beta.
    rewrite IH.
    + rewrite <- app_assoc, firstn_skipn. reflexivity.
    + rewrite length_skipn. simpl in *. lia.
Qed.
(** ** Blob round trip *)

Section BlobRoundTrip.
Context `{Zlib}.

Lemma direct_write (stg : list byte) (ty : GitType) (n : Z) (D : list byte) :
  ty <> Tree -> 0 <= n ->
  exists g1 g2 g3,
    writer_WriteHeader (NewWriter stg) ty n = Ret (length (Header ty n), None, g1) /\
    writer_Write g1 D = Ret (length D, None, g2) /\
    writer_Close g2 = (None, g3) /\
    hh g3 = Header ty n ++ D /\
    staging g3 = stg ++ deflate (Header ty n ++ D).
Proof.
  intros Hty Hn.
  assert (E1 : GitType_eqb ty Tree = false) by (destruct ty; simpl; congruence).
  assert (E2 : (n <? 0) = false) by (apply Z.ltb_ge; lia).
  unfold writer_WriteHeader, NewWriter. cbn [wroteHeader]. rewrite E1, E2.
  cbn [orb]. unfold writer_Write. cbn [wroteHeader negb tw multi_Write zw_closed].
  unfold multi_Write. cbn [zw_closed staging zw hh tw t wroteHeader app].
  eexists _, _, _. split; [reflexivity|].
  cbn [wroteHeader negb tw zw_closed staging zw hh t].
  split; [reflexivity|].
  unfold writer_Close, zw_Close. cbn [tw zw_closed staging zw hh t wroteHeader].
  split; [reflexivity|]. split; reflexivity.
Qed.

(** [C1] Blob round trip: for a byte sequence [D] whose length is an
    [int], [WriteHeader(Blob, len(D))], [Write(D)] and [Close] succeed;
    [Hash] is the SHA-1 of ["blob <len(D)>\0" + D] as forty lower-case
    hexadecimal characters; a [Reader] on the staged bytes reports type
    [Blob] and length [len(D)], and copying from it yields exactly [D]. *)
Theorem blob_round_trip (D : list byte) (prettyReader : bool) (fuel : nat) :
  Z.of_nat (length D) <= strconv.maxInt ->
  (length D < fuel)%nat ->
  exists (g1 g2 g3 : writer) (r r' : Reader),
    writer_WriteHeader (NewWriter []) Blob (Z.of_nat (length D))
      = Ret (length (Header Blob (Z.of_nat (length D))), None, g1) /\
    writer_Write g1 D = Ret (length D, None, g2) /\
    writer_Close g2 = (None, g3) /\
    writer_Hash g3 =
      hex.EncodeToString
        (sha1.Sum (bytes "blob " ++ strconv.Itoa (Z.of_nat (length D)) ++ [NUL] ++ D)) /\
    String.length (writer_Hash g3) = 40%nat /\
    is_hex_string (writer_Hash g3) = true /\
    NewReader (staging g3) prettyReader = Ret (inr r) /\
    Reader_Type r = Blob /\
    Reader_Len r = Z.of_nat (length D) /\
    io_Copy fuel copy_buffer_size r [] = Ret (D, None, r').
Proof.
  intros Hmax Hfuel.
  destruct (direct_write [] Blob (Z.of_nat (length D)) D)
    as (g1 & g2 & g3 & H1 & H2 & H3 & Hh & Hs); [discriminate|lia|].
  eexists g1, g2, g3, _, _.
  split; [exact H1|]. split; [exact H2|]. split; [exact H3|].
  split. { unfold writer_Hash. rewrite Hh. unfold Header. rewrite <- !app_assoc. reflexivity. }
  split; [apply Hash_length|]. split; [apply Hash_hex|].
  rewrite Hs, app_nil_l.
  rewrite NewReader_framed by lia.
  replace (prettyReader && GitType_eqb Blob Tree) with false by (destruct prettyReader; reflexivity).
  split; [reflexivity|]. split; [reflexivity|]. split; [reflexivity|].
  rewrite io_Copy_plain; [reflexivity| |exact Hfuel].
  unfold copy_buffer_size. lia.
Qed.

(** ** Unknown type tokens *)

(** [C8], as the code has it: [ParseType] panics on every token other
    than [blob], [tree] and [commit], so it never yields a default type,
    and [NewReader] panics with it whenever the inflated stream starts
    with such a token delimited by a space within the 28-byte lookahead. *)
Theorem unknown_type_panics (q rest raw : list byte) (prettyReader : bool) :
  q <> bytes "blob" -> q <> bytes "tree" -> q <> bytes "commit" ->
  ParseType q = Panic "missing type"
  /\ (forall ty, ParseType q <> Ret ty)
  /\ (~ In SP q -> (length q < 28)%nat -> inflate raw = Some (q ++ SP :: rest) ->
      NewReader raw prettyReader = Panic "missing type").
Proof.
  intros Hb Ht Hc.
  assert (HP : ParseType q = Panic "missing type").
  { unfold ParseType. rewrite !bytes_Equal_neq by assumption. reflexivity. }
  split; [exact HP|]. split; [rewrite HP; discriminate|].
  intros Hsp Hlen Hinf. unfold NewReader, Reader_Reset. rewrite Hinf. cbv zeta.
  set (k := (28 - length (q ++ [SP]))%nat).
  assert (Hfirst : firstn 28 (q ++ SP :: rest) = q ++ SP :: firstn k rest).
  { change (q ++ SP :: rest) with (q ++ [SP] ++ rest). rewrite app_assoc.
    rewrite firstn_app, firstn_all2 by (rewrite length_app; simpl; lia).
    rewrite <- app_assoc. reflexivity. }
  rewrite Hfirst.
  destruct (ReadBytes_found SP (bufio.NewReader (q ++ SP :: firstn k rest)) q (firstn k rest))
    as (b1 & Hrun1 & _); [apply NewReader_ok|apply NewReader_stream|exact Hsp|].
  cbn [pretty rt rn]. rewrite Hrun1, drop_last_snoc.
  unfold mbind, result_bind. rewrite HP. reflexivity.
Qed.

End BlobRoundTrip.

Lemma blob_round_trip_witness :
  exists (g3 : writer) (r r' : Reader),
    writer_Hash g3 = "8c01d89ae06311834ee4b1fab2f0414d35f01102"%string /\
    @NewReader stored_codec (staging g3) false = Ret (inr r) /\
    io_Copy 13 copy_buffer_size r [] = Ret (bytes "hello, world", None, r').
Proof.
  destruct (@blob_round_trip stored_codec (bytes "hello, world") false 13)
    as (g1 & g2 & g3 & r & r' & _ & _ & _ & Hh & _ & _ & Hr & _ & _ & Hc).
  - vm_compute. discriminate.
  - vm_compute. lia.
  - exists g3, r, r'. split; [|split; [exact Hr|exact Hc]].
    rewrite Hh. vm_compute. reflexivity.
Defined.

(** [C8], as stated, fails: the unknown token [tag] makes
    [ParseType] panic, and with it the construction of a [Reader]. *)
Lemma unknown_type_counterexample :
  ParseType (bytes "tag") = Panic "missing type" /\
  @NewReader stored_codec
    (@deflate stored_codec (bytes "tag 3" ++ [NUL] ++ bytes "abc")) false
  = Panic "missing type".
Proof. split; vm_compute; reflexivity. Qed.

Lemma unknown_type_panics_witness :
  ParseType (bytes "tag") = Panic "missing type".
Proof.
  apply (@unknown_type_panics stored_codec (bytes "tag") [] [] false); discriminate.
Defined.
(** ** Resolving abbreviated hashes *)

Lemma HasPrefix_empty_name (rest : string) : HasPrefix "" rest = true -> rest = ""%string.
Proof. destruct rest; [reflexivity|discriminate]. Qed.

(** The candidate loop once a match is held: any further candidate is
    an ambiguity. *)
Lemma scan_held (hash rest : string) (ns : list string) (m : string) :
  m <> ""%string ->
  scan hash rest ns m =
  match List.filter (fun e => HasPrefix e rest) ns with
  | [] => inr m
  | _ => inl (ErrAmbiguous hash)
  end.
Proof.
  intros Hm. induction ns as [|e ns IH]; simpl; [reflexivity|].
  destruct (HasPrefix e rest) eqn:E.
  - apply String.eqb_neq in Hm. rewrite Hm. reflexivity.
  - exact IH.
Qed.

(** The candidate loop from the start, when no candidate has the empty
    name. *)
Lemma scan_start (hash rest : string) (ns : list string) :
  (forall e, In e ns -> HasPrefix e rest = true -> e <> ""%string) ->
  scan hash rest ns "" =
  match List.filter (fun e => HasPrefix e rest) ns with
  | [] => inr ""%string
  | [e] => inr e
  | _ => inl (ErrAmbiguous hash)
  end.
Proof.
  induction ns as [|e ns IH]; intros Hne; simpl; [reflexivity|].
  destruct (HasPrefix e rest) eqn:E.
  - rewrite scan_held by (apply Hne; [now left|exact E]).
    destruct (List.filter _ ns); reflexivity.
  - apply IH. intros e' Hin. apply Hne. now right.
Qed.

Lemma filter_nil_none {A} (f : A -> bool) (l : list A) :
  List.filter f l = [] -> forall x, In x l -> f x = false.
Proof.
  intros Hf x Hin. destruct (f x) eqn:E; [|reflexivity].
  assert (Hx : In x (List.filter f l)) by (apply filter_In; auto).
  rewrite Hf in Hx. contradiction.
Qed.

Lemma keys_In (m : gmap string (list byte)) (k : string) :
  In k (map_to_list m).*1 <-> is_Some (m !! k).
Proof.
  rewrite <- list_elem_of_In, list_elem_of_fmap. split.
  - intros ([k' b] & -> & Hin). apply elem_of_map_to_list in Hin. simpl. eauto.
  - intros [b Hb]. exists (k, b). split; [reflexivity|]. now apply elem_of_map_to_list.
Qed.

Lemma keys_NoDup (m : gmap string (list byte)) : NoDup (map_to_list m).*1.
Proof. apply NoDup_fst_map_to_list. Qed.

(** What the candidate loop finds among the names of a directory (or the
    keys of the in-memory map) that does not hold [rest] itself. *)
Lemma scan_keys (m : gmap string (list byte)) (hash rest : string) :
  m !! rest = None ->
  match scan hash rest (map_to_list m).*1 "" with
  | inr k =>
      if String.eqb k "" then
        forall k', is_Some (m !! k') -> HasPrefix k' rest = false
      else
        is_Some (m !! k) /\ HasPrefix k rest = true /\
        forall k', is_Some (m !! k') -> HasPrefix k' rest = true -> k' = k
  | inl e =>
      e = ErrAmbiguous hash /\
      exists k1 k2, k1 <> k2 /\ is_Some (m !! k1) /\ is_Some (m !! k2) /\
                    HasPrefix k1 rest = true /\ HasPrefix k2 rest = true
  end.
Proof.
  intros Hmiss.
  assert (Hne : forall e, In e (map_to_list m).*1 -> HasPrefix e rest = true -> e <> ""%string).
  { intros e Hin Hp ->. apply HasPrefix_empty_name in Hp. subst rest.
    apply keys_In in Hin. rewrite Hmiss in Hin. destruct Hin; discriminate. }
  rewrite scan_start by exact Hne.
  pose proof (keys_NoDup m) as Hnd.
  assert (Hnf : NoDup (List.filter (fun e => HasPrefix e rest) (map_to_list m).*1)).
  { apply NoDup_ListNoDup. apply List.NoDup_filter. now apply NoDup_ListNoDup. }
  assert (Hin : forall k, In k (List.filter (fun e => HasPrefix e rest) (map_to_list m).*1)
                          <-> is_Some (m !! k) /\ HasPrefix k rest = true).
  { intros k. rewrite filter_In, keys_In. reflexivity. }
  destruct (List.filter (fun e => HasPrefix e rest) (map_to_list m).*1) as [|e1 [|e2 l]] eqn:Ef.
  - simpl. intros k' Hk'. destruct (HasPrefix k' rest) eqn:E; [|reflexivity].
    exfalso. apply (proj2 (Hin k')). auto.
  - assert (H1 : is_Some (m !! e1) /\ HasPrefix e1 rest = true) by (apply Hin; now left).
    assert (Hnz : e1 <> ""%string) by (apply Hne; [apply keys_In|]; tauto).
    apply String.eqb_neq in Hnz. rewrite Hnz.
    split; [tauto|]. split; [tauto|].
    intros k' Hk' Hp. assert (Hk : In k' [e1]) by (apply Hin; auto).
    destruct Hk as [<-|[]]. reflexivity.
  - split; [reflexivity|]. exists e1, e2.
    assert (H1 : is_Some (m !! e1) /\ HasPrefix e1 rest = true) by (apply Hin; now left).
    assert (H2 : is_Some (m !! e2) /\ HasPrefix e2 rest = true) by (apply Hin; right; now left).
    apply NoDup_cons in Hnf as [Hnotin _].
    split; [|tauto]. intros ->. apply Hnotin. now left.
Qed.

(** The three outcomes of resolution in a map that does not hold [rest]:
    ambiguity, absence, and the unique candidate. *)
Lemma scan_ambiguous (m : gmap string (list byte)) (hash rest k1 k2 : string) :
  m !! rest = None -> k1 <> k2 ->
  is_Some (m !! k1) -> is_Some (m !! k2) ->
  HasPrefix k1 rest = true -> HasPrefix k2 rest = true ->
  scan hash rest (map_to_list m).*1 "" = inl (ErrAmbiguous hash).
Proof.
  intros Hmiss Hne H1 H2 P1 P2. pose proof (scan_keys m hash rest Hmiss) as Hs.
  destruct (scan hash rest (map_to_list m).*1 "") as [e|k]; [now destruct Hs as [-> _]|].
  exfalso. destruct (String.eqb k "").
  - rewrite (Hs k1 H1) in P1. discriminate.
  - destruct Hs as (_ & _ & Hu). apply Hne. rewrite (Hu k1 H1 P1), (Hu k2 H2 P2). reflexivity.
Qed.

Lemma scan_absent (m : gmap string (list byte)) (hash rest : string) :
  m !! rest = None ->
  (forall k, is_Some (m !! k) -> HasPrefix k rest = false) ->
  scan hash rest (map_to_list m).*1 "" = inr ""%string.
Proof.
  intros Hmiss Hno. pose proof (scan_keys m hash rest Hmiss) as Hs.
  destruct (scan hash rest (map_to_list m).*1 "") as [e|k].
  - exfalso. destruct Hs as (_ & k1 & _ & _ & H1 & _ & P1 & _).
    rewrite (Hno k1 H1) in P1. discriminate.
  - destruct (String.eqb k "") eqn:E; [apply String.eqb_eq in E; now subst|].
    exfalso. destruct Hs as (H1 & P1 & _). rewrite (Hno k H1) in P1. discriminate.
Qed.

Lemma scan_unique (m : gmap string (list byte)) (hash rest k : string) :
  m !! rest = None ->
  is_Some (m !! k) -> HasPrefix k rest = true ->
  (forall k', is_Some (m !! k') -> HasPrefix k' rest = true -> k' = k) ->
  scan hash rest (map_to_list m).*1 "" = inr k /\ k <> ""%string.
Proof.
  intros Hmiss H1 P1 Hu. pose proof (scan_keys m hash rest Hmiss) as Hs.
  destruct (scan hash rest (map_to_list m).*1 "") as [e|k0].
  - exfalso. destruct Hs as (_ & k1 & k2 & Hne & S1 & S2 & Q1 & Q2).
    apply Hne. rewrite (Hu k1 S1 Q1), (Hu k2 S2 Q2). reflexivity.
  - destruct (String.eqb k0 "") eqn:E.
    + exfalso. rewrite (Hs k H1) in P1. discriminate.
    + destruct Hs as (S0 & Q0 & _). rewrite (Hu k0 S0 Q0).
      split; [reflexivity|]. apply String.eqb_neq in E. now rewrite <- (Hu k0 S0 Q0).
Qed.
(** *** The in-memory store *)

Lemma mem_exact (st : memStore) (hash : string) (b : list byte) :
  st !! hash = Some b -> memStore_Object st hash = inr (Bytes b).
Proof. intros Hb. unfold memStore_Object. rewrite Hb. reflexivity. Qed.

Lemma mem_ambiguous (st : memStore) (hash k1 k2 : string) :
  st !! hash = None -> k1 <> k2 ->
  is_Some (st !! k1) -> is_Some (st !! k2) ->
  HasPrefix k1 hash = true -> HasPrefix k2 hash = true ->
  memStore_Object st hash = inl (ErrAmbiguous hash).
Proof.
  intros Hmiss Hne H1 H2 P1 P2. unfold memStore_Object, mem_keys. rewrite Hmiss.
  rewrite (scan_ambiguous st hash hash k1 k2) by assumption. reflexivity.
Qed.

Lemma mem_absent (st : memStore) (hash : string) :
  (forall k, is_Some (st !! k) -> HasPrefix k hash = false) ->
  memStore_Object st hash = inl (ErrDoesNotExist hash).
Proof.
  intros Hno. unfold memStore_Object, mem_keys.
  destruct (st !! hash) as [b|] eqn:Hb.
  - assert (Hp : HasPrefix hash hash = false) by (apply Hno; rewrite Hb; eauto).
    unfold HasPrefix in Hp. assert (Ht : String.prefix hash hash = true).
    { clear. induction hash as [|a s IH]; simpl; [reflexivity|].
      destruct (ascii_dec a a); [exact IH|congruence]. }
    congruence.
  - rewrite (scan_absent st hash hash Hb Hno). reflexivity.
Qed.

Lemma mem_unique (st : memStore) (hash k : string) (b : list byte) :
  st !! hash = None ->
  st !! k = Some b -> HasPrefix k hash = true ->
  (forall k', is_Some (st !! k') -> HasPrefix k' hash = true -> k' = k) ->
  memStore_Object st hash = inr (Bytes b).
Proof.
  intros Hmiss Hk Hp Hu. unfold memStore_Object, mem_keys. rewrite Hmiss.
  destruct (scan_unique st hash hash k Hmiss (ex_intro _ b Hk) Hp Hu) as [-> Hne].
  apply String.eqb_neq in Hne. rewrite Hne, Hk. reflexivity.
Qed.

(** *** The disk store *)

Lemma split2_short (hash : string) :
  (String.length hash < 2)%nat -> split2 hash = Panic "slice bounds out of range".
Proof.
  intros Hl. unfold split2. apply Nat.ltb_lt in Hl. rewrite Hl. reflexivity.
Qed.

Lemma split2_long (hash : string) :
  (2 <= String.length hash)%nat ->
  split2 hash = Ret (substring 0 2 hash, substring 2 (String.length hash - 2) hash).
Proof.
  intros Hl. unfold split2. apply Nat.ltb_ge in Hl. rewrite Hl. reflexivity.
Qed.

Lemma rest_nonempty (hash : string) :
  (2 < String.length hash)%nat ->
  substring 2 (String.length hash - 2) hash <> ""%string.
Proof.
  destruct hash as [|a [|b [|c s]]]; simpl; try lia. intros _. discriminate.
Qed.

Lemma DiskStore_Object_split (fs : objects) (hash d rest : string) :
  split2 hash = Ret (d, rest) ->
  DiskStore_Object fs hash =
  match os_Open fs d rest with
  | inr f => Ret (inr f)
  | inl e =>
      if negb (os_IsNotExist e) then Ret (inl e)
      else
        match fs !! d with
        | None => Ret (inl (ErrOsNotExist [d]))
        | Some (File _) => Ret (inl (ErrOsNotDir [d]))
        | Some (Dir m) =>
            match scan hash rest (Readdirnames m) "" with
            | inl e => Ret (inl e)
            | inr mtch =>
                if String.eqb mtch "" then Ret (inl (ErrDoesNotExist hash))
                else Ret (os_Open fs d mtch)
            end
        end
  end.
Proof. intros Hs. unfold DiskStore_Object. rewrite Hs. reflexivity. Qed.

Section DiskResolution.
Variables (fs : objects) (hash d rest : string) (m : gmap string (list byte)).
Hypothesis Hsplit : split2 hash = Ret (d, rest).
Hypothesis Hrest : rest <> ""%string.
Hypothesis Hdir : fs !! d = Some (Dir m).

Lemma disk_exact (b : list byte) :
  m !! rest = Some b -> DiskStore_Object fs hash = Ret (inr (Bytes b)).
Proof.
  intros Hb. rewrite (DiskStore_Object_split fs hash d rest Hsplit).
  unfold os_Open. rewrite Hdir. apply String.eqb_neq in Hrest. rewrite Hrest, Hb.
  reflexivity.
Qed.

Lemma disk_miss :
  m !! rest = None ->
  DiskStore_Object fs hash =
  match scan hash rest (Readdirnames m) "" with
  | inl e => Ret (inl e)
  | inr mtch =>
      if String.eqb mtch "" then Ret (inl (ErrDoesNotExist hash))
      else Ret (os_Open fs d mtch)
  end.
Proof.
  intros Hb. rewrite (DiskStore_Object_split fs hash d rest Hsplit).
  unfold os_Open at 1. rewrite Hdir. apply String.eqb_neq in Hrest. rewrite Hrest, Hb.
  reflexivity.
Qed.

Lemma disk_ambiguous (k1 k2 : string) :
  m !! rest = None -> k1 <> k2 ->
  is_Some (m !! k1) -> is_Some (m !! k2) ->
  HasPrefix k1 rest = true -> HasPrefix k2 rest = true ->
  DiskStore_Object fs hash = Ret (inl (ErrAmbiguous hash)).
Proof.
  intros Hmiss Hne H1 H2 P1 P2. rewrite disk_miss by exact Hmiss. unfold Readdirnames.
  rewrite (scan_ambiguous m hash rest k1 k2) by assumption. reflexivity.
Qed.

Lemma disk_absent :
  m !! rest = None ->
  (forall k, is_Some (m !! k) -> HasPrefix k rest = false) ->
  DiskStore_Object fs hash = Ret (inl (ErrDoesNotExist hash)).
Proof.
  intros Hmiss Hno. rewrite disk_miss by exact Hmiss. unfold Readdirnames.
  rewrite (scan_absent m hash rest Hmiss Hno). reflexivity.
Qed.

Lemma disk_unique (k : string) (b : list byte) :
  m !! rest = None ->
  m !! k = Some b -> HasPrefix k rest = true ->
  (forall k', is_Some (m !! k') -> HasPrefix k' rest = true -> k' = k) ->
  DiskStore_Object fs hash = Ret (inr (Bytes b)).
Proof.
  intros Hmiss Hk Hp Hu. rewrite disk_miss by exact Hmiss. unfold Readdirnames.
  destruct (scan_unique m hash rest k Hmiss (ex_intro _ b Hk) Hp Hu) as [-> Hne].
  apply String.eqb_neq in Hne. rewrite Hne. unfold os_Open. rewrite Hdir, Hne, Hk.
  reflexivity.
Qed.

End DiskResolution.

Lemma disk_no_bucket (fs : objects) (hash d rest : string) :
  split2 hash = Ret (d, rest) -> fs !! d = None ->
  DiskStore_Object fs hash = Ret (inl (ErrOsNotExist [d])).
Proof.
  intros Hsplit Hd. rewrite (DiskStore_Object_split fs hash d rest Hsplit).
  unfold os_Open. rewrite Hd. reflexivity.
Qed.

Lemma disk_total (fs : objects) (hash : string) :
  (2 <= String.length hash)%nat -> exists r, DiskStore_Object fs hash = Ret r.
Proof.
  intros Hl. rewrite (DiskStore_Object_split fs hash _ _ (split2_long hash Hl)).
  destruct (os_Open fs _ _) as [e|f]; [|eauto].
  destruct (negb (os_IsNotExist e)); [eauto|].
  destruct (fs !! _) as [[c|m]|]; eauto.
  destruct (scan _ _ _ _) as [e'|k]; [eauto|].
  destruct (String.eqb k ""); eauto.
Qed.
(** [C6], as the code has it.  In the in-memory store, for every hash:
    an exact key is returned first; otherwise the keys that have the
    hash as a prefix decide: none is a not-found error, exactly one is
    that object's bytes, two or more is an ambiguous-hash error naming
    the hash.  In the disk store the same holds for a hexadecimal hash of
    more than two characters, inside the bucket directory named by its
    first two characters and for the remaining characters; a missing
    bucket is the not-exist error of opening it. *)
Theorem object_resolution (st : memStore) (fs : objects) (hash : string)
    (m : gmap string (list byte)) :
  let d := substring 0 2 hash in
  let rest := substring 2 (String.length hash - 2) hash in
  (* the in-memory store *)
  (forall b, st !! hash = Some b -> memStore_Object st hash = inr (Bytes b))
  /\ ((forall k, is_Some (st !! k) -> HasPrefix k hash = false) ->
      memStore_Object st hash = inl (ErrDoesNotExist hash))
  /\ (forall k b,
        st !! hash = None -> st !! k = Some b -> HasPrefix k hash = true ->
        (forall k', is_Some (st !! k') -> HasPrefix k' hash = true -> k' = k) ->
        memStore_Object st hash = inr (Bytes b))
  /\ (forall k1 k2,
        st !! hash = None -> k1 <> k2 ->
        is_Some (st !! k1) -> is_Some (st !! k2) ->
        HasPrefix k1 hash = true -> HasPrefix k2 hash = true ->
        memStore_Object st hash = inl (ErrAmbiguous hash))
  (* the disk store *)
  /\ ((2 < String.length hash)%nat -> is_hex_string hash = true ->
      (fs !! d = None -> DiskStore_Object fs hash = Ret (inl (ErrOsNotExist [d])))
      /\ (fs !! d = Some (Dir m) ->
          (forall b, m !! rest = Some b -> DiskStore_Object fs hash = Ret (inr (Bytes b)))
          /\ (m !! rest = None ->
              (forall k, is_Some (m !! k) -> HasPrefix k rest = false) ->
              DiskStore_Object fs hash = Ret (inl (ErrDoesNotExist hash)))
          /\ (forall k b,
                m !! rest = None -> m !! k = Some b -> HasPrefix k rest = true ->
                (forall k', is_Some (m !! k') -> HasPrefix k' rest = true -> k' = k) ->
                DiskStore_Object fs hash = Ret (inr (Bytes b)))
          /\ (forall k1 k2,
                m !! rest = None -> k1 <> k2 ->
                is_Some (m !! k1) -> is_Some (m !! k2) ->
                HasPrefix k1 rest = true -> HasPrefix k2 rest = true ->
                DiskStore_Object fs hash = Ret (inl (ErrAmbiguous hash))))).
Proof.
  intros d rest.
  split; [intros b; apply mem_exact|].
  split; [apply mem_absent|].
  split; [intros k b; apply mem_unique|].
  split; [intros k1 k2; apply mem_ambiguous|].
  intros Hlen _.
  assert (Hsplit : split2 hash = Ret (d, rest)) by (apply split2_long; lia).
  assert (Hrest : rest <> ""%string) by (apply rest_nonempty; exact Hlen).
  split; [intros Hd; now apply (disk_no_bucket fs hash d rest)|].
  intros Hd.
  split; [intros b; now apply (disk_exact fs hash d rest m)|].
  split; [now apply (disk_absent fs hash d rest m)|].
  split; [intros k b; now apply (disk_unique fs hash d rest m)|].
  intros k1 k2. now apply (disk_ambiguous fs hash d rest m).
Qed.

(** The scenario of two digests that share three characters: the
    three-character prefix is ambiguous, the four-character prefix
    resolves, in both stores. *)
Lemma object_resolution_witness :
  memStore_Object sample_mem "8c0" = inl (ErrAmbiguous "8c0")
  /\ DiskStore_Object sample_disk "8c01" = Ret (inr (Bytes (bytes "one"))).
Proof.
  split.
  - apply (object_resolution sample_mem sample_disk "8c0" ∅) with (k1 := digest1) (k2 := digest2).
    + reflexivity.
    + discriminate.
    + exists (bytes "one"). reflexivity.
    + exists (bytes "two"). reflexivity.
    + reflexivity.
    + reflexivity.
  - pose proof (object_resolution sample_mem sample_disk "8c01"
                  (<[ substring 2 38 digest1 := bytes "one" ]>
                     (<[ substring 2 38 digest2 := bytes "two" ]> ∅))) as Hres.
    cbv zeta in Hres. destruct Hres as (_ & _ & _ & _ & Hdisk).
    destruct Hdisk as (_ & Hdir); [vm_compute; lia|reflexivity|].
    destruct (Hdir eq_refl) as (_ & _ & Huniq & _).
    apply (Huniq (substring 2 38 digest1)); [reflexivity|reflexivity|reflexivity|].
    intros k' [b Hb] Hp.
    apply lookup_insert_Some in Hb as [[<- _]|[_ Hb]]; [reflexivity|].
    apply lookup_insert_Some in Hb as [[<- _]|[_ Hb]]; [discriminate|].
    rewrite lookup_empty in Hb. discriminate.
Defined.

(** [C6], as stated, fails for the disk store: a hash of
    one character makes [Object] panic, and a hash of exactly two
    characters opens the bucket directory instead of a stored object. *)
Lemma object_resolution_counterexample :
  DiskStore_Object sample_disk "8" = Panic "slice bounds out of range"
  /\ DiskStore_Object sample_disk "8c" = Ret (inr (Directory "8c")).
Proof. split; vm_compute; reflexivity. Qed.

(** [C10] [DiskStore.Object] slices [hash[:2]] and [hash[2:]] before
    anything else: on every hash shorter than two characters it panics,
    on every hash of at least two characters it returns.  The in-memory
    store has no such precondition: the same short hash resolves, to the
    object of an exact key or of the only key it is a prefix of. *)
Theorem short_hash_panics (fs : objects) (st : memStore) (hash : string) :
  (String.length hash < 2)%nat ->
  DiskStore_Object fs hash = Panic "slice bounds out of range"
  /\ (forall hash' : string, (2 <= String.length hash')%nat ->
        exists r, DiskStore_Object fs hash' = Ret r)
  /\ (forall b, st !! hash = Some b -> memStore_Object st hash = inr (Bytes b))
  /\ (forall k b,
        st !! hash = None -> st !! k = Some b -> HasPrefix k hash = true ->
        (forall k', is_Some (st !! k') -> HasPrefix k' hash = true -> k' = k) ->
        memStore_Object st hash = inr (Bytes b))
  /\ ((forall k, is_Some (st !! k) -> HasPrefix k hash = false) ->
      memStore_Object st hash = inl (ErrDoesNotExist hash)).
Proof.
  intros Hl.
  split. { unfold DiskStore_Object. rewrite split2_short by exact Hl. reflexivity. }
  split; [intros hash'; apply disk_total|].
  split; [intros b; apply mem_exact|].
  split; [intros k b; apply mem_unique|apply mem_absent].
Qed.

Lemma short_hash_panics_witness :
  DiskStore_Object sample_disk "8" = Panic "slice bounds out of range".
Proof.
  apply (short_hash_panics sample_disk sample_mem "8"). vm_compute. lia.
Defined.
(** ** Publishing the same content twice *)

Section PublishTwice.
Context `{Zlib}.

(** [C3], as the code has it: when a writer life cycle on a store ends
    in a successful [Close], the digest is bound in the store, and a
    second life cycle with the same content reports the same digest but
    its [Close] fails, with "object with hash ... exists" in the
    in-memory store and with the exclusive create's "file exists" in the
    disk store, leaving the store, and its one binding for the digest,
    as the first [Close] left it. *)
Theorem publish_twice (ty : GitType) (s : Z) (ps : list (list byte)) :
  (forall (st st1 : memStore) (h : string),
     mem_publish st ty s ps = Ret (None, st1, h) ->
     st !! h = None /\ is_Some (st1 !! h) /\
     mem_publish st1 ty s ps = Ret (Some (ErrObjectExists h), st1, h))
  /\ (forall (fs fs1 : objects) (h : string),
        disk_publish fs ty s ps = Ret (None, fs1, h) ->
        (exists b, DiskStore_Object fs1 h = Ret (inr (Bytes b))) /\
        exists path, disk_publish fs1 ty s ps = Ret (Some (ErrOsExist path), fs1, h)).
Proof.
  split.
  - intros st st1 h. unfold mem_publish.
    destruct (writer_WriteHeader (mc_Writer memStore_Writer) ty s) as [[[n e] w]|msg];
      [|discriminate].
    cbn [mbind result_bind].
    destruct (writer_Writes w ps) as [w'|msg]; [|discriminate].
    cbn [mbind result_bind]. unfold memCloser_Close. cbn [mc_Writer].
    destruct (writer_Close w') as [[e'|] w1]; [discriminate|].
    destruct (st !! writer_Hash w1) eqn:Hst; [discriminate|].
    intros [= <- <-]. rewrite lookup_insert_eq.
    split; [exact Hst|]. split; [eauto|reflexivity].
  - intros fs fs1 h. unfold disk_publish.
    destruct (writer_WriteHeader (dc_Writer DiskStore_Writer) ty s) as [[[n e] w]|msg];
      [|discriminate].
    cbn [mbind result_bind].
    destruct (writer_Writes w ps) as [w'|msg]; [|discriminate].
    cbn [mbind result_bind]. unfold diskCloser_Close. cbn [dc_Writer].
    destruct (writer_Close w') as [[e'|] w1]; [discriminate|].
    assert (Hsplit : split2 (writer_Hash w1)
                     = Ret (substring 0 2 (writer_Hash w1),
                            substring 2 (String.length (writer_Hash w1) - 2) (writer_Hash w1))).
    { apply split2_long. rewrite Hash_length. lia. }
    assert (Hrest : substring 2 (String.length (writer_Hash w1) - 2) (writer_Hash w1) <> ""%string).
    { apply rest_nonempty. rewrite Hash_length. lia. }
    rewrite Hsplit. cbn [mbind result_bind].
    set (d := substring 0 2 (writer_Hash w1)) in *.
    set (rest := substring 2 (String.length (writer_Hash w1) - 2) (writer_Hash w1)) in *.
    pose proof Hrest as Hrestb. apply String.eqb_neq in Hrestb. rewrite Hrestb.
    destruct (fs !! d) as [[c|m]|] eqn:Hd.
    + discriminate.
    + destruct (m !! rest) eqn:Hm; [discriminate|].
      cbn [mbind result_bind dc_Writer]. intros [= <- <-].
      rewrite lookup_insert_eq, lookup_insert_eq. split; [|eauto].
      exists (staging w1).
      apply (disk_exact _ (writer_Hash w1) d rest (<[rest:=staging w1]> m) Hsplit Hrest).
      * apply lookup_insert_eq.
      * apply lookup_insert_eq.
    + cbn [mbind result_bind dc_Writer]. intros [= <- <-].
      rewrite lookup_insert_eq, lookup_singleton_eq. split; [|eauto].
      exists (staging w1).
      apply (disk_exact _ (writer_Hash w1) d rest {[rest:=staging w1]} Hsplit Hrest).
      * apply lookup_insert_eq.
      * apply lookup_singleton_eq.
Qed.

End PublishTwice.

(** [C3], as stated, fails: in both stores the second
    [Close] for the same content returns an error. *)
Lemma publish_twice_counterexample :
  (r ← @mem_publish stored_codec ∅ Blob 5 [bytes "hello"];
   '(e, _, _) ← @mem_publish stored_codec r.1.2 Blob 5 [bytes "hello"];
   Ret (r.1.1, e))
  = Ret (None, Some (ErrObjectExists "b6fc4c620b67d95f953a5c1c1230aaab5db5a1b0"))
  /\
  (r ← @disk_publish stored_codec ∅ Blob 5 [bytes "hello"];
   '(e, _, _) ← @disk_publish stored_codec r.1.2 Blob 5 [bytes "hello"];
   Ret (r.1.1, e))
  = Ret (None, Some (ErrOsExist ["b6"; "fc4c620b67d95f953a5c1c1230aaab5db5a1b0"]%string)).
Proof. split; vm_compute; reflexivity. Qed.

Lemma publish_twice_witness :
  @mem_publish stored_codec (<[ hello_digest := hello_object ]> ∅) Blob 5 [bytes "hello"]
  = Ret (Some (ErrObjectExists hello_digest), <[ hello_digest := hello_object ]> ∅, hello_digest).
Proof.
  apply (proj1 (@publish_twice stored_codec Blob 5 [bytes "hello"]) ∅).
  vm_compute. reflexivity.
Defined.
(** ** [Peek] and [Discard] *)

Lemma ReadBytes_cases (d : byte) (b : bufio.Reader) :
  reader_ok b ->
  exists frag e b',
    bufio.ReadBytes d b = (frag, e, b') /\
    reader_ok b' /\ bufio.size b' = bufio.size b /\
    frag ++ stream b' = stream b /\
    (e = None \/ (e = Some EOF /\ bufio.rd b' = [])).
Proof.
  intros Hok.
  destruct (ReadBytes_loop_spec (length (bufio.buf b) + length (bufio.rd b)) d b [] Hok)
    as (frag & e & b' & Hrun & Hok' & Hsz & Hstr & Hpost).
  { rewrite stream_length. lia. }
  exists frag, e, b'. unfold bufio.ReadBytes. rewrite Hrun.
  split; [reflexivity|]. split; [exact Hok'|]. split; [exact Hsz|]. split; [exact Hstr|].
  destruct e as [[]|]; try contradiction; [right|left]; tauto.
Qed.

Lemma Peek_fill_eq (fuel n : nat) (b : bufio.Reader) :
  bufio.Peek_fill fuel n b =
  if (bufio.Buffered b <? n)%nat && (bufio.Buffered b <? bufio.size b)%nat
     && (match bufio.err b with None => true | Some _ => false end)
  then match fuel with
       | O => b
       | S fuel' => bufio.Peek_fill fuel' n (bufio.fill b)
       end
  else b.
Proof. destruct fuel; reflexivity. Qed.

Lemma Peek_fill_spec (n : nat) : forall (fuel : nat) (b : bufio.Reader),
  reader_ok b ->
  (bufio.err b = None -> (length (bufio.rd b) < fuel)%nat) ->
  reader_ok (bufio.Peek_fill fuel n b) /\
  bufio.size (bufio.Peek_fill fuel n b) = bufio.size b /\
  stream (bufio.Peek_fill fuel n b) = stream b /\
  ((n <= bufio.Buffered (bufio.Peek_fill fuel n b))%nat
   \/ (bufio.size b <= bufio.Buffered (bufio.Peek_fill fuel n b))%nat
   \/ bufio.rd (bufio.Peek_fill fuel n b) = []).
Proof.
  induction fuel as [|fuel IH]; intros b Hok Hfuel; rewrite Peek_fill_eq.
  all: destruct (bufio.Buffered b <? n)%nat eqn:E1;
    [|apply Nat.ltb_ge in E1; simpl; auto].
  all: destruct (bufio.Buffered b <? bufio.size b)%nat eqn:E2;
    [|apply Nat.ltb_ge in E2; simpl; auto 6].
  all: destruct (bufio.err b) as [e|] eqn:E3;
    [simpl; assert (Hrd : bufio.rd b = [])
       by (destruct Hok as [[Hn|[_ Hrd]] _]; [congruence|exact Hrd]);
     split; [exact Hok|]; split; [reflexivity|]; split; [reflexivity|]; auto|].
  all: simpl.
  - specialize (Hfuel eq_refl). lia.
  - apply Nat.ltb_lt in E2.
    destruct (IH (bufio.fill b)) as (Hok' & Hsz & Hstr & Hcase).
    + now apply fill_ok.
    + intros Hnone. pose proof (fill_progress b E2 Hnone). specialize (Hfuel eq_refl). lia.
    + rewrite fill_size in Hsz, Hcase. rewrite fill_stream in Hstr. auto.
Qed.

(** [Peek(n)] when [n] bytes are ahead and fit the buffer. *)
Lemma Peek_ahead (n : nat) (b : bufio.Reader) (sm rest : list byte) :
  reader_ok b -> (n <= bufio.size b)%nat ->
  stream b = sm ++ rest -> length sm = n ->
  exists b1, bufio.Peek n b = (sm, None, b1) /\
             reader_ok b1 /\ bufio.size b1 = bufio.size b /\
             stream b1 = stream b /\ (n <= bufio.Buffered b1)%nat.
Proof.
  intros Hok Hn Hs Hlen.
  destruct (Peek_fill_spec n (S (length (bufio.rd b))) b Hok) as (Hok1 & Hsz & Hstr & Hcase).
  { intros _. lia. }
  unfold bufio.Peek. set (b1 := bufio.Peek_fill (S (length (bufio.rd b))) n b) in *.
  assert (Hbuf : (n <= bufio.Buffered b1)%nat).
  { destruct Hcase as [Hc|[Hc|Hc]]; [exact Hc|lia|].
    unfold bufio.Buffered. assert (Hl : length (stream b1) = length (sm ++ rest)) by congruence.
    rewrite stream_length, Hc, length_app in Hl. simpl in Hl. lia. }
  assert (E1 : (bufio.size b1 <? n)%nat = false) by (apply Nat.ltb_ge; lia).
  assert (E2 : (bufio.Buffered b1 <? n)%nat = false) by (apply Nat.ltb_ge; lia).
  rewrite E1, E2. exists b1.
  assert (Hsm : firstn n (bufio.buf b1) = sm).
  { assert (Hf : firstn n (stream b1) = firstn n (sm ++ rest)) by congruence.
    unfold stream in Hf. rewrite firstn_app in Hf.
    unfold bufio.Buffered in Hbuf.
    replace (n - length (bufio.buf b1))%nat with O in Hf by lia.
    rewrite firstn_O, app_nil_r in Hf. rewrite Hf, <- Hlen.
    rewrite firstn_app, Nat.sub_diag, firstn_O, app_nil_r. apply firstn_all. }
  rewrite Hsm. auto.
Qed.

(** [Discard(n)] of bytes that are all buffered. *)
Lemma Discard_buffered (n : nat) (b : bufio.Reader) :
  (0 < n)%nat -> (n <= bufio.Buffered b)%nat ->
  bufio.Discard n b
  = (n, None, bufio.mkReader (skipn n (bufio.buf b)) (bufio.rd b) (bufio.size b) (bufio.err b)).
Proof.
  intros Hn Hb. unfold bufio.Discard.
  assert (E0 : (n =? 0)%nat = false) by (apply Nat.eqb_neq; lia).
  rewrite E0. cbn [bufio.Discard_loop].
  assert (E1 : (bufio.Buffered b =? 0)%nat = false) by (apply Nat.eqb_neq; lia).
  rewrite E1. rewrite Nat.min_r by exact Hb. rewrite Nat.sub_diag. reflexivity.
Qed.

Lemma Discard_ahead (n : nat) (b : bufio.Reader) (sm rest : list byte) :
  (0 < n)%nat -> (n <= bufio.Buffered b)%nat -> reader_ok b ->
  stream b = sm ++ rest -> length sm = n ->
  exists b2, bufio.Discard n b = (n, None, b2) /\
             reader_ok b2 /\ bufio.size b2 = bufio.size b /\ stream b2 = rest.
Proof.
  intros Hn Hb Hok Hs Hlen. rewrite Discard_buffered by assumption.
  eexists. split; [reflexivity|]. split; [exact Hok|]. split; [reflexivity|].
  unfold stream in *. simpl.
  assert (Hk : skipn n (bufio.buf b ++ bufio.rd b) = skipn n (sm ++ rest)) by congruence.
  rewrite skipn_app in Hk. unfold bufio.Buffered in Hb.
  replace (n - length (bufio.buf b))%nat with O in Hk by lia.
  change (skipn 0 (bufio.rd b)) with (bufio.rd b) in Hk.
  rewrite Hk, <- Hlen. rewrite skipn_app, Nat.sub_diag, skipn_all. reflexivity.
Qed.
(** ** The tree encoder on whole lines *)

Lemma trim_mode_snoc (mode : list byte) :
  trim_mode (mode ++ [SP]) = Ret (strip_zero mode ++ [SP]).
Proof.
  destruct mode as [|c m]; [reflexivity|]. simpl.
  destruct (Byte.eqb c x30); reflexivity.
Qed.

Lemma encoded_no_TAB (src : list byte) : ~ In TAB (hex.encoded src).
Proof.
  intros Hin. pose proof (encoded_lower src) as Hl.
  rewrite forallb_forall in Hl. specialize (Hl TAB Hin). discriminate.
Qed.

Lemma pretty_line_app (e : entry) (rest : list byte) :
  pretty_line e ++ rest
  = e_mode e ++ SP :: e_type e ++ SP :: hex.encoded (e_digest e) ++ TAB :: e_name e ++ LF :: rest.
Proof.
  unfold pretty_line. repeat (rewrite <- app_assoc; simpl). reflexivity.
Qed.

Lemma treeWriter_loop_step (fuel : nat) (r : bufio.Reader) (wb sm : list byte)
    (e : entry) (rest : list byte) :
  reader_ok r -> encodable e -> length sm = 20%nat ->
  stream r = pretty_line e ++ rest ->
  exists r4,
    treeWriter_loop (S fuel) r wb sm
    = treeWriter_loop fuel r4 (wb ++ binary_entry e) (e_digest e) /\
    reader_ok r4 /\ stream r4 = rest.
Proof.
  intros Hok (Hmode & Htype & Hdig & Hname) Hsm Hs.
  rewrite pretty_line_app in Hs.
  destruct (ReadBytes_found SP r (e_mode e) _ Hok Hs Hmode)
    as (r1 & Hrun1 & Hok1 & _ & Hs1).
  destruct (ReadBytes_found SP r1 (e_type e) _ Hok1 Hs1 Htype)
    as (r2 & Hrun2 & Hok2 & _ & Hs2).
  destruct (ReadBytes_found TAB r2 (hex.encoded (e_digest e)) _ Hok2 Hs2
              (encoded_no_TAB _))
    as (r3 & Hrun3 & Hok3 & _ & Hs3).
  destruct (ReadBytes_found LF r3 (e_name e) rest Hok3 Hs3 Hname)
    as (r4 & Hrun4 & Hok4 & _ & Hs4).
  exists r4. split; [|auto].
  cbn [treeWriter_loop]. rewrite Hrun1. cbv beta iota.
  rewrite trim_mode_snoc. unfold mbind at 1, result_bind at 1. cbv beta iota.
  rewrite Hrun2. cbv beta iota. rewrite Hrun3. cbv beta iota.
  rewrite drop_last_snoc. unfold mbind at 1, result_bind at 1. cbv beta iota.
  rewrite Decode_encoded by congruence.
  unfold mbind at 1, result_bind at 1. cbv beta iota.
  rewrite Hrun4. cbv beta iota.
  rewrite set_last_snoc. unfold mbind at 1, result_bind at 1. cbv beta iota.
  f_equal. unfold binary_entry. rewrite <- !app_assoc. reflexivity.
Qed.

Lemma treeWriter_loop_tree (es : list entry) :
  forall (fuel : nat) (r : bufio.Reader) (wb sm : list byte),
  Forall encodable es -> reader_ok r -> stream r = pretty_tree es ->
  length sm = 20%nat -> (length es < fuel)%nat ->
  exists r' sm',
    treeWriter_loop fuel r wb sm = Ret (r', wb ++ binary_tree es, sm', EOF) /\
    bufio.rd r' = [] /\ length sm' = 20%nat.
Proof.
  induction es as [|e es IH]; intros fuel r wb sm Hes Hok Hs Hsm Hfuel.
  - destruct fuel as [|fuel]; [simpl in Hfuel; lia|].
    destruct (ReadBytes_eof SP r Hok) as (r1 & Hrun & _ & _ & _ & Hrd).
    { rewrite Hs. simpl. tauto. }
    exists r1, sm. cbn [treeWriter_loop]. rewrite Hrun. cbv beta iota.
    simpl. rewrite app_nil_r. auto.
  - destruct fuel as [|fuel]; [simpl in Hfuel; lia|].
    apply Forall_cons in Hes as [He Hes].
    destruct (treeWriter_loop_step fuel r wb sm e (pretty_tree es) Hok He Hsm Hs)
      as (r4 & Hstep & Hok4 & Hs4).
    rewrite Hstep.
    destruct (IH fuel r4 (wb ++ binary_entry e) (e_digest e) Hes Hok4 Hs4)
      as (r' & sm' & Hrun & Hrd & Hsm').
    + apply He.
    + simpl in Hfuel. lia.
    + exists r', sm'. rewrite Hrun. simpl. rewrite <- app_assoc. auto.
Qed.

Lemma binary_entry_shorter (e : entry) :
  (length (binary_entry e) <= length (pretty_line e))%nat.
Proof.
  unfold binary_entry, pretty_line.
  repeat (rewrite length_app || rewrite length_cons). rewrite encoded_length.
  cbn [length].
  assert (Hs : (length (strip_zero (e_mode e)) <= length (e_mode e))%nat).
  { unfold strip_zero. destruct (e_mode e) as [|c m]; [lia|].
    destruct (Byte.eqb c x30); simpl; lia. }
  lia.
Qed.
Lemma pretty_tree_app (es1 es2 : list entry) :
  pretty_tree (es1 ++ es2) = pretty_tree es1 ++ pretty_tree es2.
Proof. apply flat_map_app. Qed.

Lemma binary_tree_shorter (es : list entry) :
  (length (binary_tree es) <= length (pretty_tree es))%nat.
Proof.
  induction es as [|e es IH]; simpl; [lia|].
  rewrite !length_app. pose proof (binary_entry_shorter e). lia.
Qed.

Lemma pretty_tree_longer (es : list entry) : (length es <= length (pretty_tree es))%nat.
Proof.
  induction es as [|e es IH]; simpl; [lia|].
  rewrite length_app. unfold pretty_line at 1. rewrite length_app. simpl. lia.
Qed.

(** One [Write] of a whole pretty tree leaves the binary tree in the
    file and nothing in the buffers. *)
Lemma treeWriter_Write_tree (es : list entry) :
  Forall encodable es ->
  exists sm,
    treeWriter_Write fresh_treeWriter (pretty_tree es)
    = Ret (length (binary_tree es), Some EOF,
           mkTreeWriter (binary_tree es) false [] [] sm).
Proof.
  intros Hes. unfold treeWriter_Write, fresh_treeWriter.
  cbn [rbuf wbuf sum file file_closed app].
  destruct (treeWriter_loop_tree es (S (length (pretty_tree es)))
              (bufio.NewReader (pretty_tree es)) [] (repeat x00 20) Hes)
    as (r' & sm' & Hrun & Hrd & _).
  { apply NewReader_ok. }
  { apply NewReader_stream. }
  { reflexivity. }
  { pose proof (pretty_tree_longer es). lia. }
  rewrite Hrun. unfold mbind, result_bind. cbv beta iota.
  rewrite firstn_all2 by (rewrite app_nil_l; apply binary_tree_shorter).
  rewrite skipn_all2 by (rewrite app_nil_l; apply binary_tree_shorter).
  rewrite Hrd. exists sm'. reflexivity.
Qed.

(** ** The tree decoder on whole entries *)

Lemma treeReader_loop_eq (fuel lenp : nat) (g : treeReader) :
  treeReader_loop fuel lenp g =
  if (length (tr_buf g) <=? lenp)%nat then
    match fuel with
    | O => Ret (Some ErrNoProgress, g)
    | S fuel' =>
        let '(mode, e, r1) := bufio.ReadBytes SP (br g) in
        match e with
        | Some e => Ret (Some e, mkTreeReader r1 (tr_buf g) (hash g))
        | None =>
            rendered ← render_mode mode;
            let b1 := tr_buf g ++ rendered in
            let '(name, e, r2) := bufio.ReadBytes NUL r1 in
            match e with
            | Some e => Ret (Some e, mkTreeReader r2 b1 (hash g))
            | None =>
                name' ← drop_last name;
                let '(sm, e, r3) := bufio.Peek 20 r2 in
                match e with
                | Some e => Ret (Some e, mkTreeReader r3 b1 (hash g))
                | None =>
                    let '(_, _, r4) := bufio.Discard 20 r3 in
                    '(hs, _) ← hex.Encode (hash g) sm;
                    treeReader_loop fuel' lenp
                      (mkTreeReader r4 (b1 ++ hs ++ [TAB] ++ name' ++ [LF]) hs)
                end
            end
        end
    end
  else Ret (None, g).
Proof. destruct fuel; reflexivity. Qed.

Lemma binary_entry_app (e : entry) (rest : list byte) :
  binary_entry e ++ rest
  = strip_zero (e_mode e) ++ SP :: e_name e ++ NUL :: e_digest e ++ rest.
Proof.
  unfold binary_entry. repeat (rewrite <- app_assoc; simpl). reflexivity.
Qed.

Lemma treeReader_loop_step (fuel lenp : nat) (g : treeReader) (e : entry) (rest : list byte) :
  treeReader_ok g -> decodable e ->
  stream (br g) = binary_entry e ++ rest ->
  (length (tr_buf g) <= lenp)%nat ->
  exists g',
    treeReader_loop (S fuel) lenp g = treeReader_loop fuel lenp g' /\
    treeReader_ok g' /\ stream (br g') = rest /\
    tr_buf g' = tr_buf g ++ pretty_line e.
Proof.
  intros (Hok & Hsz & Hhash) (Hmode & Hname & Hdig & Hrender) Hs Hlen.
  rewrite binary_entry_app in Hs.
  destruct (ReadBytes_found SP (br g) _ _ Hok Hs Hmode) as (r1 & Hrun1 & Hok1 & Hsz1 & Hs1).
  destruct (ReadBytes_found NUL r1 _ _ Hok1 Hs1 Hname) as (r2 & Hrun2 & Hok2 & Hsz2 & Hs2).
  destruct (Peek_ahead 20 r2 (e_digest e) rest Hok2 ltac:(lia) Hs2 Hdig)
    as (r3 & Hrun3 & Hok3 & Hsz3 & Hs3 & Hbuf3).
  rewrite Hs2 in Hs3.
  destruct (Discard_ahead 20 r3 (e_digest e) rest ltac:(lia) Hbuf3 Hok3 Hs3 Hdig)
    as (r4 & Hrun4 & Hok4 & Hsz4 & Hs4).
  eexists (mkTreeReader r4 _ _).
  rewrite treeReader_loop_eq.
  apply Nat.leb_le in Hlen. rewrite Hlen.
  rewrite Hrun1. cbv beta iota zeta.
  rewrite Hrender. unfold mbind at 1, result_bind at 1. cbv beta iota.
  rewrite Hrun2. cbv beta iota.
  rewrite drop_last_snoc. unfold mbind at 1, result_bind at 1. cbv beta iota.
  rewrite Hrun3. cbv beta iota. rewrite Hrun4. cbv beta iota.
  rewrite Encode_exact by (rewrite Hhash, Hdig; reflexivity).
  unfold mbind at 1, result_bind at 1. cbv beta iota.
  split; [reflexivity|].
  split.
  { split; [exact Hok4|]. split; [cbn [br]; lia|]. cbn [hash].
    rewrite encoded_length, Hdig. reflexivity. }
  split; [exact Hs4|].
  cbn [tr_buf]. unfold pretty_line. repeat (rewrite <- app_assoc; simpl). reflexivity.
Qed.
Lemma treeReader_loop_full (fuel lenp : nat) (g : treeReader) :
  (lenp < length (tr_buf g))%nat -> treeReader_loop fuel lenp g = Ret (None, g).
Proof.
  intros Hl. rewrite treeReader_loop_eq. apply Nat.leb_gt in Hl. rewrite Hl. reflexivity.
Qed.

(** The inner loop of [Read] on a stream of whole entries: it decodes a
    prefix of them and stops either because the text buffer exceeds the
    caller's buffer or, with [io.EOF], because the entries are used up. *)
Lemma treeReader_loop_tree (lenp : nat) (es : list entry) :
  forall (fuel : nat) (g : treeReader),
  treeReader_ok g -> Forall decodable es ->
  stream (br g) = binary_tree es ->
  (lenp + 2 <= fuel + length (tr_buf g))%nat ->
  exists es1 es2 e g',
    es = es1 ++ es2 /\
    treeReader_loop fuel lenp g = Ret (e, g') /\
    treeReader_ok g' /\ stream (br g') = binary_tree es2 /\
    tr_buf g' = tr_buf g ++ pretty_tree es1 /\
    ((e = None /\ (lenp < length (tr_buf g'))%nat)
     \/ (e = Some EOF /\ es2 = [] /\ (length (tr_buf g') <= lenp)%nat)).
Proof.
  induction es as [|e es IH]; intros fuel g Hg Hes Hs Hfuel.
  all: destruct (Nat.le_gt_cases (length (tr_buf g)) lenp) as [Elen|Elen];
    [|eexists [], _, None, g; rewrite treeReader_loop_full by exact Elen;
      simpl; rewrite app_nil_r; split; [reflexivity|]; auto 8].
  all: destruct fuel as [|fuel]; [lia|].
  - destruct Hg as (Hok & Hsz & Hhash).
    destruct (ReadBytes_eof SP (br g) Hok) as (r1 & Hrun & Hok1 & Hsz1 & Hb1 & Hrd1).
    { rewrite Hs. simpl. tauto. }
    exists [], [], (Some EOF), (mkTreeReader r1 (tr_buf g) (hash g)).
    rewrite treeReader_loop_eq. apply Nat.leb_le in Elen. rewrite Elen.
    rewrite Hrun. cbv beta iota.
    split; [reflexivity|]. split; [reflexivity|].
    split. { split; [exact Hok1|]. split; [cbn [br]; lia|exact Hhash]. }
    split. { unfold stream. cbn [br]. rewrite Hb1, Hrd1. reflexivity. }
    cbn [tr_buf]. simpl. rewrite app_nil_r. apply Nat.leb_le in Elen.
    split; [reflexivity|]. right. auto.
  - apply Forall_cons in Hes as [He Hes].
    destruct (treeReader_loop_step fuel lenp g e (binary_tree es) Hg He Hs Elen)
      as (g1 & Hstep & Hg1 & Hs1 & Hb1).
    destruct (IH fuel g1 Hg1 Hes Hs1) as (es1 & es2 & err & g' & Hsplit & Hrun & Hg' & Hs' & Hb' & Hcase).
    { rewrite Hb1, length_app. unfold pretty_line. rewrite length_app. simpl. lia. }
    exists (e :: es1), es2, err, g'. rewrite Hstep, Hrun.
    split; [simpl; congruence|]. split; [reflexivity|]. split; [exact Hg'|].
    split; [exact Hs'|]. split; [|exact Hcase].
    rewrite Hb', Hb1. simpl. rewrite <- app_assoc. reflexivity.
Qed.

Lemma fresh_treeReader_ok (B : list byte) : treeReader_ok (fresh_treeReader B).
Proof.
  unfold treeReader_ok, fresh_treeReader. cbn [br hash].
  split; [apply NewReaderSize_ok|]. split; [reflexivity|reflexivity].
Qed.

(** Copying from the tree reader delivers the pretty form of all the
    entries, whatever the size of the copy buffer. *)
Lemma io_Copy_tree (lenp : nat) (p : bool) (ty : GitType) (n : Z) :
  (1 <= lenp)%nat ->
  forall (fuel : nat) (es : list entry) (g : treeReader) (dst : list byte),
  treeReader_ok g -> Forall decodable es ->
  stream (br g) = binary_tree es ->
  (length (tr_buf g) + length (pretty_tree es) < fuel)%nat ->
  exists r',
    io_Copy fuel lenp (mkReader (Pretty g) p ty n) dst
    = Ret (dst ++ tr_buf g ++ pretty_tree es, None, r').
Proof.
  intros Hp. induction fuel as [|fuel IH]; intros es g dst Hg Hes Hs Hfuel; [lia|].
  destruct (treeReader_loop_tree lenp es (S (S lenp)) g Hg Hes Hs ltac:(lia))
    as (es1 & es2 & err & g' & Hsplit & Hrun & Hg' & Hs' & Hb' & Hcase).
  cbn [io_Copy]. unfold Reader_Read. cbn [src pretty rt rn].
  unfold treeReader_Read. rewrite Hrun.
  unfold mbind, result_bind. cbv beta iota.
  subst es. rewrite pretty_tree_app in *.
  apply Forall_app in Hes as [Hes1 Hes2].
  destruct Hcase as [[-> Hlong]|(-> & -> & Hshort)].
  - destruct (IH es2 (mkTreeReader (br g') (skipn lenp (tr_buf g')) (hash g'))
                 (dst ++ firstn lenp (tr_buf g'))) as (r' & Hcopy).
    + exact Hg'.
    + exact Hes2.
    + exact Hs'.
    + cbn [tr_buf]. rewrite length_skipn, Hb', length_app.
      rewrite length_app in Hfuel. rewrite Hb', length_app in Hlong. lia.
    + exists r'. rewrite Hcopy. cbn [tr_buf].
      rewrite <- (app_assoc dst), (app_assoc (firstn lenp (tr_buf g'))), firstn_skipn.
      rewrite Hb', <- !app_assoc. reflexivity.
  - eexists. rewrite firstn_all2 by exact Hshort.
    rewrite Hb'. simpl. rewrite !app_nil_r. reflexivity.
Qed.
(** ** Well-formed lines *)

Lemma absent_not_In (c : byte) (s : list byte) : absent c s = true -> ~ In c s.
Proof.
  unfold absent. intros Ha Hin. apply negb_true_iff in Ha.
  assert (Ht : existsb (Byte.eqb c) s = true).
  { apply existsb_exists. exists c. split; [exact Hin|apply byte_eqb_refl]. }
  congruence.
Qed.

Lemma type_token_no_SP (ty : list byte) : is_type_token ty = true -> ~ In SP ty.
Proof.
  unfold is_type_token. rewrite !orb_true_iff, !bytes_Equal_eq.
  intros [[->| ->]| ->]; apply IndexByte_None; reflexivity.
Qed.

Lemma strip_zero_incl (mode : list byte) (c : byte) :
  In c (strip_zero mode) -> In c mode.
Proof.
  unfold strip_zero. destruct mode as [|x m]; [tauto|].
  destruct (Byte.eqb x x30); [now right|tauto].
Qed.

Lemma well_formed_parts (e : entry) :
  well_formed e = true ->
  ~ In SP (e_mode e) /\ ~ In SP (e_type e) /\ length (e_digest e) = 20%nat /\
  ~ In NUL (e_name e) /\ ~ In LF (e_name e).
Proof.
  unfold well_formed. rewrite !andb_true_iff.
  intros (((((_ & Hd) & Ht) & Hl) & Hn) & Hf).
  split; [apply digits_not_in; [exact Hd|reflexivity]|].
  split; [now apply type_token_no_SP|].
  split; [now apply Nat.eqb_eq|].
  split; now apply absent_not_In.
Qed.

Lemma well_formed_encodable (e : entry) : well_formed e = true -> encodable e.
Proof. intros H. apply well_formed_parts in H. unfold encodable. tauto. Qed.

Lemma normalize_decodable (e : entry) :
  well_formed e = true -> renderable e = true -> decodable (normalize e).
Proof.
  intros Hwf Hr. apply well_formed_parts in Hwf as (Hm & _ & Hd & Hn & _).
  assert (Hs : ~ In SP (strip_zero (e_mode e))).
  { intros Hin. apply Hm. now apply strip_zero_incl. }
  unfold renderable in Hr. unfold normalize, decodable.
  destruct (strip_zero (e_mode e)) as [|c m]; [discriminate|].
  destruct (Byte.eqb c x31) eqn:E1.
  - apply byte_eqb_eq in E1. subst c. cbn [e_mode e_type e_digest e_name strip_zero].
    change (Byte.eqb x31 x30) with false. cbv iota.
    split; [exact Hs|]. split; [exact Hn|]. split; [exact Hd|].
    simpl. rewrite <- app_assoc. reflexivity.
  - destruct (Byte.eqb c x34) eqn:E4; [|discriminate].
    apply byte_eqb_eq in E4. subst c. cbn [e_mode e_type e_digest e_name strip_zero].
    change (Byte.eqb x30 x30) with true. cbv iota.
    split; [exact Hs|]. split; [exact Hn|]. split; [exact Hd|].
    simpl. rewrite <- app_assoc. reflexivity.
Qed.

Lemma normalize_binary (e : entry) : binary_entry (normalize e) = binary_entry e.
Proof.
  unfold normalize. destruct (strip_zero (e_mode e)) as [|c m] eqn:Es; [reflexivity|].
  destruct (Byte.eqb c x31) eqn:E1.
  - apply byte_eqb_eq in E1. subst c. unfold binary_entry.
    cbn [e_mode e_type e_digest e_name]. rewrite Es. reflexivity.
  - destruct (Byte.eqb c x34) eqn:E4; [|reflexivity].
    apply byte_eqb_eq in E4. subst c. unfold binary_entry.
    cbn [e_mode e_type e_digest e_name]. rewrite Es. reflexivity.
Qed.

Lemma normalize_binary_tree (es : list entry) :
  binary_tree (map normalize es) = binary_tree es.
Proof.
  induction es as [|e es IH]; [reflexivity|]. simpl.
  rewrite normalize_binary. f_equal. exact IH.
Qed.

Lemma canonical_fixed (e : entry) : canonical e = true -> normalize e = e /\ renderable e = true.
Proof.
  unfold canonical, mode_matches_type, normalize, renderable.
  rewrite andb_true_iff. intros [_ Hm]. destruct e as [mode ty dg nm].
  cbn [e_mode e_type e_digest e_name] in *.
  destruct mode as [|c m]; [discriminate|].
  apply orb_true_iff in Hm as [Hm|Hm].
  - apply andb_true_iff in Hm as [Hc Ht]. apply byte_eqb_eq in Hc. subst c.
    apply bytes_Equal_eq in Ht. subst ty. split; reflexivity.
  - apply andb_true_iff in Hm as [Hm Ht]. apply andb_true_iff in Hm as [Hc H4].
    apply byte_eqb_eq in Hc. subst c. apply bytes_Equal_eq in Ht. subst ty.
    destruct m as [|c' m]; [discriminate|]. apply byte_eqb_eq in H4. subst c'.
    split; reflexivity.
Qed.

(** ** Tree transcoding round trip *)

Lemma first_delimiter_unique (c : byte) : forall a a' b b' : list byte,
  ~ In c a -> ~ In c a' -> a ++ c :: b = a' ++ c :: b' -> a = a' /\ b = b'.
Proof.
  induction a as [|x a IH]; intros [|x' a'] b b' Ha Ha' E; simpl in E.
  - injection E as ->. auto.
  - injection E as <- _. exfalso. apply Ha'. now left.
  - injection E as -> _. exfalso. apply Ha. now left.
  - injection E as <- E. destruct (IH a' b b') as [-> ->]; auto.
    + intros Hin. apply Ha. now right.
    + intros Hin. apply Ha'. now right.
Qed.

Lemma normalize_fields (e : entry) :
  well_formed e = true ->
  ~ In SP (e_mode (normalize e)) /\ ~ In SP (e_type (normalize e)) /\
  e_digest (normalize e) = e_digest e /\ e_name (normalize e) = e_name e.
Proof.
  intros Hwf. apply well_formed_parts in Hwf as (Hm & Ht & _ & _ & _).
  assert (Hs : ~ In SP (strip_zero (e_mode e))).
  { intros Hin. apply Hm. now apply strip_zero_incl. }
  unfold normalize. destruct (strip_zero (e_mode e)) as [|c m]; [auto|].
  destruct (Byte.eqb c x31).
  - cbn [e_mode e_type e_digest e_name]. repeat split; [exact Hs|].
    apply IndexByte_None. reflexivity.
  - destruct (Byte.eqb c x34); [|auto].
    cbn [e_mode e_type e_digest e_name]. repeat split.
    + intros [Hin|Hin]; [discriminate|contradiction].
    + apply IndexByte_None. reflexivity.
Qed.

(** A line that its normal form leaves as it is is canonical. *)
Lemma fixed_canonical (e : entry) :
  well_formed e = true -> renderable e = true -> normalize e = e -> canonical e = true.
Proof.
  intros Hwf Hr Hfix. unfold canonical. rewrite Hwf. cbn [andb].
  unfold renderable in Hr. unfold normalize in Hfix. unfold mode_matches_type.
  destruct e as [mode ty dg nm]. cbn [e_mode e_type e_digest e_name] in *.
  destruct (strip_zero mode) as [|c m] eqn:Es; [discriminate|].
  destruct (Byte.eqb c x31) eqn:E1.
  - injection Hfix as <- <-. rewrite E1. reflexivity.
  - destruct (Byte.eqb c x34) eqn:E4; [|discriminate].
    injection Hfix as <- <-. cbn [Byte.eqb]. rewrite E4. reflexivity.
Qed.

(** The normal form of a text is the text only if each line is its own
    normal form: a well-formed line is read back from its text. *)
Lemma pretty_tree_fixed (es : list entry) :
  forallb well_formed es = true ->
  pretty_tree (map normalize es) = pretty_tree es -> map normalize es = es.
Proof.
  induction es as [|e es IH]; intros Hwf Heq; [reflexivity|].
  cbn [forallb] in Hwf. apply andb_true_iff in Hwf as [He Hes].
  cbn [map pretty_tree flat_map] in Heq. fold (pretty_tree (map normalize es)) in Heq.
  fold (pretty_tree es) in Heq.
  rewrite !pretty_line_app in Heq.
  destruct (normalize_fields e He) as (Hm' & Ht' & Hd' & Hn').
  pose proof (well_formed_parts e He) as (Hm & Ht & _ & _ & _).
  apply first_delimiter_unique in Heq as [Emode Heq]; [|assumption..].
  apply first_delimiter_unique in Heq as [Etype Heq]; [|assumption..].
  rewrite Hd', Hn' in Heq.
  apply app_inv_head in Heq. injection Heq as Heq.
  apply app_inv_head in Heq. injection Heq as Heq.
  cbn [map]. f_equal; [|now apply IH].
  destruct (normalize e) as [m1 t1 d1 n1], e as [m0 t0 d0 n0].
  cbn [e_mode e_type e_digest e_name] in *. congruence.
Qed.


(** [C2], as the code has it: for well-formed pretty lines whose stored
    mode starts with ['1'] or ['4'], one [Write] encodes the whole text
    to the binary entries, and decoding those yields every line with its
    mode and type normalised: one leading zero stripped, one restored
    before a ['4'], the token [blob] for a ['1'] and [tree] for a ['4'].
    The text comes back if and only if every line has a mode starting
    with ['1'] and the token [blob], or a mode starting with ['0'], ['4']
    and the token [tree]. *)
Theorem tree_round_trip (es : list entry) (fuel : nat) :
  forallb (fun e => well_formed e && renderable e) es = true ->
  (length (pretty_tree (map normalize es)) < fuel)%nat ->
  encode_tree (pretty_tree es) = Ret (binary_tree es)
  /\ decode_tree fuel (binary_tree es) = Ret (pretty_tree (map normalize es), None)
  /\ (forallb canonical es = true -> map normalize es = es)
  /\ (decode_tree fuel (binary_tree es) = Ret (pretty_tree es, None)
      <-> forallb canonical es = true).
Proof.
  intros Hes Hfuel. rewrite forallb_forall in Hes.
  assert (Henc : Forall encodable es).
  { apply List.Forall_forall. intros e Hin. apply well_formed_encodable.
    specialize (Hes e Hin). apply andb_true_iff in Hes. tauto. }
  assert (Hdec : Forall decodable (map normalize es)).
  { apply List.Forall_forall. intros e' Hin. apply in_map_iff in Hin as (e & <- & Hin).
    specialize (Hes e Hin). apply andb_true_iff in Hes.
    apply normalize_decodable; tauto. }
  assert (Hfix : forallb canonical es = true -> map normalize es = es).
  { intros Hcan. rewrite forallb_forall in Hcan.
    clear -Hcan. induction es as [|e es IH]; [reflexivity|]. simpl.
    rewrite (proj1 (canonical_fixed e (Hcan e (or_introl eq_refl)))). f_equal.
    apply IH. intros x Hx. apply Hcan. now right. }
  assert (Hcopy : decode_tree fuel (binary_tree es)
                  = Ret (pretty_tree (map normalize es), None)).
  { unfold decode_tree, pretty_Reader.
    destruct (io_Copy_tree copy_buffer_size true Tree (Z.of_nat (length (binary_tree es)))
                ltac:(unfold copy_buffer_size; lia)
                fuel (map normalize es) (fresh_treeReader (binary_tree es)) []
                (fresh_treeReader_ok _) Hdec) as (r' & Hcopy).
    + rewrite normalize_binary_tree. reflexivity.
    + simpl. exact Hfuel.
    + rewrite Hcopy. reflexivity. }
  split; [|split; [exact Hcopy|split; [exact Hfix|]]].
  - unfold encode_tree. destruct (treeWriter_Write_tree es Henc) as (sm & ->).
    reflexivity.
  - rewrite Hcopy. split.
    + intros [= Heq].
      assert (Hwf : forallb well_formed es = true).
      { apply forallb_forall. intros e Hin. specialize (Hes e Hin).
        apply andb_true_iff in Hes. tauto. }
      pose proof (pretty_tree_fixed es Hwf Heq) as Hmap.
      apply forallb_forall. intros e Hin. specialize (Hes e Hin).
      apply andb_true_iff in Hes as [Hw Hr]. apply fixed_canonical; [exact Hw|exact Hr|].
      clear -Hmap Hin. induction es as [|x es IH]; [contradiction|].
      cbn [map] in Hmap. injection Hmap as Hx Hmap.
      destruct Hin as [<-|Hin]; [exact Hx|now apply IH].
    + intros Hcan. rewrite (Hfix Hcan). reflexivity.
Qed.

Lemma tree_round_trip_witness :
  encode_tree (pretty_tree [hello_entry]) = Ret (binary_tree [hello_entry])
  /\ decode_tree 100 (binary_tree [hello_entry]) = Ret (pretty_tree [hello_entry], None).
Proof.
  destruct (tree_round_trip [hello_entry] 100) as (Henc & Hdec & Hfix & _).
  - vm_compute. reflexivity.
  - vm_compute. lia.
  - rewrite Hfix in Hdec by (vm_compute; reflexivity). auto.
Defined.

(** [C2], as stated, fails: a blob line whose mode is
    written with a redundant leading zero comes back without it, and a
    submodule line comes back with the token [blob]. *)
Lemma tree_round_trip_counterexample :
  (well_formed padded_blob_entry = true
   /\ (B ← encode_tree (pretty_line padded_blob_entry); decode_tree 100 B)
      = Ret (pretty_line hello_entry, None)
   /\ pretty_line hello_entry <> pretty_line padded_blob_entry)
  /\ (well_formed gitlink_entry = true
      /\ (B ← encode_tree (pretty_line gitlink_entry); decode_tree 100 B)
         = Ret (pretty_line (mkEntry (bytes "160000") (bytes "blob")
                                     (e_digest gitlink_entry) (bytes "sub")), None)).
Proof.
  split; [split; [|split]|split].
  - vm_compute. reflexivity.
  - vm_compute. reflexivity.
  - vm_compute. discriminate.
  - vm_compute. reflexivity.
  - vm_compute. reflexivity.
Qed.
(** ** Partial lines at chunk boundaries *)

Lemma Decode_loop_not_EOF (k : nat) : forall (src dst : list byte) (i : nat) dst' n,
  (length src <= k)%nat -> hex.Decode_loop dst i src <> Ret (dst', n, Some EOF).
Proof.
  induction k as [|k IH]; intros src dst i dst' n Hk.
  - destruct src; [simpl; discriminate|simpl in Hk; lia].
  - destruct src as [|p [|q src]]; cbn [hex.Decode_loop].
    + discriminate.
    + destruct (hex.fromHexChar p); discriminate.
    + destruct (hex.fromHexChar p); [|discriminate].
      destruct (hex.fromHexChar q); [|discriminate].
      destruct (i <? length dst)%nat; [|discriminate].
      apply IH. simpl in Hk. lia.
Qed.

Ltac read_step d r H :=
  let frag := fresh "frag" in
  let e := fresh "e" in
  let r' := fresh "r" in
  let Hrun := fresh "Hrun" in
  let Hok := fresh "Hok" in
  let Hcase := fresh "Hcase" in
  let Hrd := fresh "Hrd" in
  destruct (ReadBytes_cases d r H) as (frag & e & r' & Hrun & Hok & _ & _ & Hcase);
  rewrite Hrun; cbv beta iota;
  destruct Hcase as [->|[-> Hrd]];
  [|intros [= <- _ _]; exact Hrd].

(** A [Write] that ends with [io.EOF] leaves nothing in [rbuf]: the
    buffered reader of the call has drained it, and the bytes of an
    unfinished line went with that reader. *)
Lemma treeWriter_loop_EOF (fuel : nat) :
  forall (r : bufio.Reader) (wb sm : list byte) r' wb' sm',
  reader_ok r ->
  treeWriter_loop fuel r wb sm = Ret (r', wb', sm', EOF) -> bufio.rd r' = [].
Proof.
  induction fuel as [|fuel IH]; intros r wb sm r' wb' sm' Hok; [discriminate|].
  cbn [treeWriter_loop].
  read_step SP r Hok.
  destruct (trim_mode frag) as [mode'|m]; [|discriminate].
  unfold mbind at 1, result_bind at 1. cbv beta iota.
  read_step SP r0 Hok0.
  read_step TAB r1 Hok1.
  destruct (drop_last frag1) as [h'|m]; [|discriminate].
  unfold mbind at 1, result_bind at 1. cbv beta iota.
  destruct (hex.Decode sm h') as [[[sm1 n1] e1]|m] eqn:Ed; [|discriminate].
  unfold mbind at 1, result_bind at 1. cbv beta iota.
  destruct e1 as [e1|].
  { intros [= <- _ _ ->]. exfalso.
    eapply (Decode_loop_not_EOF (length h')); [|exact Ed]. lia. }
  read_step LF r2 Hok2.
  destruct (set_last frag2 NUL) as [name'|m]; [|discriminate].
  unfold mbind at 1, result_bind at 1. cbv beta iota.
  apply IH. exact Hok3.
Qed.

Lemma Write_drains_rbuf (g : treeWriter) (p : list byte) n g' :
  treeWriter_Write g p = Ret (n, Some EOF, g') -> rbuf g' = [].
Proof.
  unfold treeWriter_Write.
  destruct (treeWriter_loop _ _ _ _) as [[[[r wb] sm] e]|m] eqn:El; [|discriminate].
  unfold mbind, result_bind. cbv beta iota.
  destruct (file_closed g); intros [= _ -> <-]; cbn [rbuf];
    eapply treeWriter_loop_EOF; try exact El; apply NewReader_ok.
Qed.

(** [C5] fails on the code.  One [Write] of the README's line stores its
    binary entry; the same line written in two chunks, split after the
    type token, stores nothing: the first call returns [io.EOF] with
    [rbuf] and [wbuf] empty, so nothing of the partial line is left to
    prefix the second chunk, and the second call finds no complete line
    either. *)
Lemma partial_chunk_lost :
  let line := pretty_line hello_entry in
  (w ← treeWriter_Writes fresh_treeWriter [line]; Ret (file w))
  = Ret (binary_entry hello_entry)
  /\ firstn 12 line = bytes "100644 blob "
  /\ treeWriter_Write fresh_treeWriter (firstn 12 line)
     = Ret (O, Some EOF, fresh_treeWriter)
  /\ (w ← treeWriter_Writes fresh_treeWriter [firstn 12 line; skipn 12 line];
      Ret (file w, rbuf w, wbuf w))
     = Ret ([], [], []).
Proof. cbv zeta. repeat split; vm_compute; reflexivity. Qed.
(** What does hold across calls: chunks that end at line boundaries.
    Each [Write] of whole lines appends their binary entries to the file
    and leaves the buffers empty, so a sequence of such chunks stores
    what one [Write] of their concatenation stores. *)
Lemma treeWriter_Write_lines (es : list entry) (f sm : list byte) :
  Forall encodable es -> length sm = 20%nat ->
  exists sm',
    treeWriter_Write (mkTreeWriter f false [] [] sm) (pretty_tree es)
    = Ret (length (binary_tree es), Some EOF,
           mkTreeWriter (f ++ binary_tree es) false [] [] sm')
    /\ length sm' = 20%nat.
Proof.
  intros Hes Hsm. unfold treeWriter_Write.
  cbn [rbuf wbuf sum file file_closed app].
  destruct (treeWriter_loop_tree es (S (length (pretty_tree es)))
              (bufio.NewReader (pretty_tree es)) [] sm Hes)
    as (r' & sm' & Hrun & Hrd & Hsm').
  { apply NewReader_ok. }
  { apply NewReader_stream. }
  { exact Hsm. }
  { pose proof (pretty_tree_longer es). lia. }
  rewrite Hrun. unfold mbind, result_bind. cbv beta iota.
  rewrite firstn_all2 by (rewrite app_nil_l; apply binary_tree_shorter).
  rewrite skipn_all2 by (rewrite app_nil_l; apply binary_tree_shorter).
  rewrite Hrd. exists sm'. auto.
Qed.

Lemma treeWriter_Writes_lines (chunks : list (list entry)) :
  forall (f sm : list byte),
  Forall (Forall encodable) chunks -> length sm = 20%nat ->
  exists sm',
    treeWriter_Writes (mkTreeWriter f false [] [] sm) (map pretty_tree chunks)
    = Ret (mkTreeWriter (f ++ binary_tree (concat chunks)) false [] [] sm').
Proof.
  induction chunks as [|es chunks IH]; intros f sm Hall Hsm.
  - exists sm. simpl. rewrite app_nil_r. reflexivity.
  - apply Forall_cons in Hall as [Hes Hall].
    destruct (treeWriter_Write_lines es f sm Hes Hsm) as (sm1 & Hw & Hsm1).
    destruct (IH (f ++ binary_tree es) sm1 Hall Hsm1) as (sm' & Hws).
    exists sm'. cbn [map treeWriter_Writes]. rewrite Hw.
    unfold mbind, result_bind. cbv beta iota. rewrite Hws.
    simpl. unfold binary_tree. rewrite flat_map_app, app_assoc. reflexivity.
Qed.

(** On the spooling path the tree writer is in place whatever the type:
    a blob of unknown size goes through it as well, and text that is not
    a pretty tree leaves nothing in the temporary file. *)
Example unknown_size_blob :
  forall g0 g : writer,
    writer_WriteHeader (NewWriter []) Blob (-1) = Ret (O, None, g0) ->
    writer_Writes g0 [bytes "hello"] = Ret g ->
    hh (snd (@writer_Close stored_codec g)) = Header Blob 0.
Proof.
  intros g0 g H0 Hw. vm_compute in H0. injection H0 as <-.
  vm_compute in Hw. injection Hw as <-. vm_compute. reflexivity.
Qed.
(** ** The transcoder loops end on their own

    With the fuel their callers pass, neither loop runs out of it: the
    encoder's loop consumes input on every turn and the decoder's loop
    grows its text buffer on every turn. *)

Lemma ReadBytes_progress (d : byte) (b : bufio.Reader) :
  reader_ok b ->
  exists frag e b',
    bufio.ReadBytes d b = (frag, e, b') /\ reader_ok b' /\
    ((e = None /\ frag <> [] /\ (length (stream b') < length (stream b))%nat)
     \/ e = Some EOF).
Proof.
  intros Hok.
  destruct (ReadBytes_loop_spec (length (bufio.buf b) + length (bufio.rd b)) d b [] Hok)
    as (frag & e & b' & Hrun & Hok' & Hsz & Hstr & Hpost).
  { rewrite stream_length. lia. }
  exists frag, e, b'. unfold bufio.ReadBytes. rewrite Hrun.
  split; [reflexivity|]. split; [exact Hok'|].
  destruct e as [[]|]; try contradiction; [now right|left].
  destruct Hpost as (pre & -> & _). split; [reflexivity|].
  split; [destruct pre; discriminate|].
  rewrite <- Hstr, !length_app. simpl. lia.
Qed.

Lemma Decode_loop_errors (k : nat) : forall (src dst : list byte) (i : nat) dst' n e,
  (length src <= k)%nat ->
  hex.Decode_loop dst i src = Ret (dst', n, Some e) ->
  e = ErrLength \/ exists c, e = ErrInvalidByte c.
Proof.
  induction k as [|k IH]; intros src dst i dst' n e Hk.
  - destruct src; [simpl; discriminate|simpl in Hk; lia].
  - destruct src as [|p [|q src]]; cbn [hex.Decode_loop].
    + discriminate.
    + destruct (hex.fromHexChar p); intros [= _ _ <-]; eauto.
    + destruct (hex.fromHexChar p); [|intros [= _ _ <-]; eauto].
      destruct (hex.fromHexChar q); [|intros [= _ _ <-]; eauto].
      destruct (i <? length dst)%nat; [|discriminate].
      apply IH. simpl in Hk. lia.
Qed.

Ltac progress_step d r H :=
  let frag := fresh "frag" in
  let e := fresh "e" in
  let r' := fresh "r" in
  let Hrun := fresh "Hrun" in
  let Hok := fresh "Hok" in
  let Hcase := fresh "Hcase" in
  let Hne := fresh "Hne" in
  let Hlt := fresh "Hlt" in
  destruct (ReadBytes_progress d r H) as (frag & e & r' & Hrun & Hok & Hcase);
  rewrite Hrun; cbv beta iota;
  destruct Hcase as [(-> & Hne & Hlt)| ->];
  [|intros [= _ _ _ <-]; discriminate].

Lemma treeWriter_loop_fuel (fuel : nat) :
  forall (r : bufio.Reader) (wb sm : list byte) r' wb' sm' e,
  reader_ok r -> (length (stream r) < fuel)%nat ->
  treeWriter_loop fuel r wb sm = Ret (r', wb', sm', e) -> e <> ErrNoProgress.
Proof.
  induction fuel as [|fuel IH]; intros r wb sm r' wb' sm' e Hok Hfuel; [lia|].
  cbn [treeWriter_loop].
  progress_step SP r Hok.
  destruct (trim_mode frag) as [mode'|m]; [|discriminate].
  unfold mbind at 1, result_bind at 1. cbv beta iota.
  progress_step SP r0 Hok0.
  progress_step TAB r1 Hok1.
  destruct (drop_last frag1) as [h'|m]; [|discriminate].
  unfold mbind at 1, result_bind at 1. cbv beta iota.
  destruct (hex.Decode sm h') as [[[sm1 n1] e1]|m] eqn:Ed; [|discriminate].
  unfold mbind at 1, result_bind at 1. cbv beta iota.
  destruct e1 as [e1|].
  { intros [= _ _ _ <-].
    destruct (Decode_loop_errors (length h') h' sm 0 sm1 n1 e1 (Nat.le_refl _) Ed)
      as [->|[c ->]]; discriminate. }
  progress_step LF r2 Hok2.
  destruct (set_last frag2 NUL) as [name'|m]; [|discriminate].
  unfold mbind at 1, result_bind at 1. cbv beta iota.
  apply IH; [exact Hok3|lia].
Qed.

Lemma treeWriter_Write_fuel (g : treeWriter) (p : list byte) n e g' :
  treeWriter_Write g p = Ret (n, e, g') -> e <> Some ErrNoProgress.
Proof.
  unfold treeWriter_Write.
  destruct (treeWriter_loop _ _ _ _) as [[[[r wb] sm] err]|m] eqn:El; [|discriminate].
  unfold mbind, result_bind. cbv beta iota.
  assert (Herr : err <> ErrNoProgress).
  { eapply treeWriter_loop_fuel; [apply NewReader_ok| |exact El].
    rewrite NewReader_stream. lia. }
  destruct (file_closed g); intros [= _ <- _]; congruence.
Qed.

Lemma Peek_cases (n : nat) (b : bufio.Reader) :
  reader_ok b ->
  exists x e b',
    bufio.Peek n b = (x, e, b') /\ reader_ok b' /\
    ((e = None /\ (n <= bufio.Buffered b')%nat)
     \/ e = Some ErrBufferFull \/ e = Some EOF).
Proof.
  intros Hok.
  destruct (Peek_fill_spec n (S (length (bufio.rd b))) b Hok) as (Hok1 & _ & _ & _).
  { intros _. lia. }
  unfold bufio.Peek. set (b1 := bufio.Peek_fill (S (length (bufio.rd b))) n b) in *.
  destruct (bufio.size b1 <? n)%nat; [eexists _, _, _; split; [reflexivity|]; auto|].
  destruct (bufio.Buffered b1 <? n)%nat eqn:E.
  - eexists _, _, _. split; [reflexivity|]. split.
    + destruct Hok1 as [_ Hsz]. split; simpl; auto.
    + right. destruct Hok1 as [[->|[-> _]] _]; auto.
  - apply Nat.ltb_ge in E. eexists _, _, _. split; [reflexivity|]. auto.
Qed.

Lemma render_mode_nonempty (mode rendered : list byte) :
  render_mode mode = Ret rendered -> rendered <> [].
Proof.
  unfold render_mode. destruct mode as [|c m]; [discriminate|].
  destruct (Byte.eqb c x31); [intros [= <-]; discriminate|].
  destruct (Byte.eqb c x34); [intros [= <-]; discriminate|discriminate].
Qed.

Lemma treeReader_loop_fuel (lenp fuel : nat) :
  forall (g g' : treeReader) e,
  reader_ok (br g) -> (lenp + 2 <= fuel + length (tr_buf g))%nat ->
  treeReader_loop fuel lenp g = Ret (e, g') -> e <> Some ErrNoProgress.
Proof.
  induction fuel as [|fuel IH]; intros g g' e Hok Hfuel; rewrite treeReader_loop_eq.
  all: destruct (length (tr_buf g) <=? lenp)%nat eqn:Elen;
    [apply Nat.leb_le in Elen|intros [= <- _]; discriminate].
  - lia.
  - destruct (ReadBytes_progress SP (br g) Hok) as (mode & e1 & r1 & Hrun1 & Hok1 & Hc1).
    rewrite Hrun1. cbv beta iota zeta.
    destruct Hc1 as [(-> & _ & _)| ->]; [|intros [= <- _]; discriminate].
    destruct (render_mode mode) as [rendered|m] eqn:Er; [|discriminate].
    unfold mbind at 1, result_bind at 1. cbv beta iota.
    destruct (ReadBytes_progress NUL r1 Hok1) as (name & e2 & r2 & Hrun2 & Hok2 & Hc2).
    rewrite Hrun2. cbv beta iota.
    destruct Hc2 as [(-> & _ & _)| ->]; [|intros [= <- _]; discriminate].
    destruct (drop_last name) as [name'|m]; [|discriminate].
    unfold mbind at 1, result_bind at 1. cbv beta iota.
    destruct (Peek_cases 20 r2 Hok2) as (sm & e3 & r3 & Hrun3 & Hok3 & Hc3).
    rewrite Hrun3. cbv beta iota.
    destruct Hc3 as [(-> & Hbuf)|[->| ->]]; try (intros [= <- _]; discriminate).
    rewrite Discard_buffered by lia. cbv beta iota.
    destruct (hex.Encode (hash g) sm) as [[hs n]|m]; [|discriminate].
    unfold mbind at 1, result_bind at 1. cbv beta iota.
    apply IH.
    + exact Hok3.
    + cbn [tr_buf]. rewrite !length_app.
      apply render_mode_nonempty in Er. destruct rendered; [congruence|]. simpl. lia.
Qed.

Lemma treeReader_Read_fuel (g g' : treeReader) (lenp : nat) out e :
  reader_ok (br g) ->
  treeReader_Read g lenp = Ret (out, e, g') -> e <> Some ErrNoProgress.
Proof.
  intros Hok. unfold treeReader_Read.
  destruct (treeReader_loop _ _ _) as [[err g1]|m] eqn:El; [|discriminate].
  unfold mbind, result_bind. cbv beta iota. intros [= _ <- _].
  eapply treeReader_loop_fuel; [exact Hok| |exact El]. lia.
Qed.
(* ===================================================================== *)
(** * Part III: further properties of the code                            *)
(* ===================================================================== *)

(** ** Type tokens *)

(** [X1] [ParseType] is the inverse of [Type.String]: it returns a type
    exactly on that type's token, so the three tokens are the only
    inputs on which it returns at all. *)
Theorem ParseType_inverse (q : list byte) (ty : GitType) :
  ParseType q = Ret ty <-> q = bytes (GitType_String ty).
Proof.
  split.
  - unfold ParseType.
    destruct (bytes_Equal q (bytes "blob")) eqn:Eb.
    { apply bytes_Equal_eq in Eb. intros [= <-]. exact Eb. }
    destruct (bytes_Equal q (bytes "tree")) eqn:Et.
    { apply bytes_Equal_eq in Et. intros [= <-]. exact Et. }
    destruct (bytes_Equal q (bytes "commit")) eqn:Ec.
    { apply bytes_Equal_eq in Ec. intros [= <-]. exact Ec. }
    discriminate.
  - intros ->. apply ParseType_String.
Qed.

(** ** Headers of every length field *)

Lemma utoa_length_min (n : Z) : 0 <= n <= 2 ^ 63 -> (length (strconv.utoa n) <= 19)%nat.
Proof.
  intros Hn. pose proof (utoa_aux_length 18 (S (Z.to_nat (Z.log2 n))) n []) as Hl.
  simpl length in Hl. unfold strconv.utoa. etransitivity; [apply Hl|lia].
  split; [lia|].
  change (10 ^ Z.of_nat 19) with 10000000000000000000.
  change (2 ^ 63) with 9223372036854775808 in Hn. lia.
Qed.

Lemma Itoa_length (n : Z) :
  strconv.minInt <= n <= strconv.maxInt -> (length (strconv.Itoa n) <= 20)%nat.
Proof.
  unfold strconv.minInt, strconv.maxInt, strconv.Itoa. intros Hn.
  destruct (n <? 0) eqn:E.
  - apply Z.ltb_lt in E. simpl. pose proof (utoa_length_min (- n)). lia.
  - apply Z.ltb_ge in E. pose proof (utoa_length_min n). lia.
Qed.

Lemma Itoa_no_NUL_int (n : Z) : ~ In NUL (strconv.Itoa n).
Proof.
  unfold strconv.Itoa. destruct (n <? 0) eqn:E.
  - apply Z.ltb_lt in E. intros [Hx|Hin]; [discriminate|].
    revert Hin. apply digits_not_in; [apply utoa_digits; lia|reflexivity].
  - apply Z.ltb_ge in E. apply digits_not_in; [now apply utoa_digits|reflexivity].
Qed.

Lemma Atoi_Itoa_int (n : Z) :
  strconv.minInt <= n <= strconv.maxInt -> strconv.Atoi (strconv.Itoa n) = (n, None).
Proof.
  intros Hn. destruct (Z.neg_nonneg_cases n) as [Hneg|Hpos].
  - unfold strconv.Itoa. assert (E : (n <? 0) = true) by now apply Z.ltb_lt. rewrite E.
    assert (Hm : 0 <= - n) by lia.
    pose proof (utoa_digits (- n) Hm) as Hd.
    pose proof (utoa_value (- n) Hm) as Hv.
    assert (Hne : strconv.utoa (- n) <> []) by apply utoa_aux_nonempty.
    unfold strconv.Atoi. change (Byte.eqb x2d x2d) with true. cbv iota.
    destruct (strconv.utoa (- n)) as [|c ds] eqn:Eu; [congruence|].
    rewrite Hd, Hv.
    assert (El : (- - n <? strconv.minInt) = false) by (apply Z.ltb_ge; lia).
    rewrite El. f_equal. lia.
  - apply Atoi_Itoa. lia.
Qed.

Section HeaderFacts.
Context `{Zlib}.

(** Parsing a header whose two fields are delimited inside the
    lookahead: the type comes from [ParseType], the length from [Atoi]. *)
Lemma Reset_header (g : Reader) (ty : GitType) (num D : list byte) :
  ~ In NUL num ->
  (length (bytes (GitType_String ty)) + length num + 2 <= 28)%nat ->
  Reader_Reset g (deflate (bytes (GitType_String ty) ++ SP :: num ++ NUL :: D))
  = Ret (snd (strconv.Atoi num),
         mkReader (if pretty g && GitType_eqb ty Tree
                   then Pretty (fresh_treeReader D) else Plain D)
                  (pretty g) ty (fst (strconv.Atoi num))).
Proof.
  intros Hnul Hlen. unfold Reader_Reset. rewrite inflate_deflate.
  set (tok := bytes (GitType_String ty)) in *.
  set (hd := tok ++ SP :: num ++ [NUL]).
  assert (Hhd : tok ++ SP :: num ++ NUL :: D = hd ++ D).
  { unfold hd. rewrite <- app_assoc. simpl. rewrite <- app_assoc. reflexivity. }
  assert (Hl : (length hd <= 28)%nat).
  { unfold hd. rewrite length_app. simpl. rewrite length_app. simpl. lia. }
  set (k := (28 - length hd)%nat).
  assert (Hfirst : firstn 28 (hd ++ D) = hd ++ firstn k D).
  { rewrite firstn_app. f_equal. apply firstn_all2. exact Hl. }
  assert (Hskip : skipn 28 (hd ++ D) = skipn k D).
  { rewrite skipn_app. rewrite skipn_all2 by exact Hl. reflexivity. }
  rewrite Hhd, Hfirst, Hskip. cbv zeta.
  destruct (ReadBytes_found SP (bufio.NewReader (hd ++ firstn k D))
              tok (num ++ NUL :: firstn k D))
    as (b1 & Hrun1 & Hok1 & _ & Hs1).
  { apply NewReader_ok. }
  { rewrite NewReader_stream. unfold hd. rewrite <- app_assoc. simpl.
    rewrite <- app_assoc. reflexivity. }
  { apply type_token_no_space. }
  rewrite Hrun1. rewrite drop_last_snoc. unfold mbind, result_bind.
  unfold tok at 1. rewrite ParseType_String.
  destruct (ReadBytes_found NUL b1 num (firstn k D)) as (b2 & Hrun2 & Hok2 & _ & Hs2);
    [exact Hok1|exact Hs1|exact Hnul|].
  rewrite Hrun2. rewrite drop_last_snoc.
  assert (HD : bufio.buf b2 ++ bufio.rd b2 ++ skipn k D = D).
  { rewrite app_assoc. fold (stream b2). rewrite Hs2. apply firstn_skipn. }
  rewrite HD. destruct (strconv.Atoi num) as [n e]. reflexivity.
Qed.

(** [X2] The 28-byte lookahead is enough for every header [Type.Header]
    can produce: for each type and each [int] length, negative ones
    included, a [Reader] on the deflated framing reports that type and
    that length and delivers the bytes after the header.  The length is
    the declared one: it is not compared with the payload.  The
    [PrettyReader] option wraps the payload only for a tree. *)
Theorem reader_reports_header (prettyReader : bool) (ty : GitType) (n : Z) (D : list byte) :
  strconv.minInt <= n <= strconv.maxInt ->
  (length (Header ty n) <= 28)%nat
  /\ exists r,
       NewReader (deflate (Header ty n ++ D)) prettyReader = Ret (inr r) /\
       Reader_Type r = ty /\ Reader_Len r = n /\
       src r = if prettyReader && GitType_eqb ty Tree
               then Pretty (fresh_treeReader D) else Plain D.
Proof.
  intros Hn. pose proof (Itoa_length n Hn) as Hl.
  assert (Hlen : (length (bytes (GitType_String ty)) + length (strconv.Itoa n) + 2 <= 28)%nat).
  { destruct ty; simpl; lia. }
  split.
  { unfold Header. rewrite !length_app. simpl. lia. }
  unfold NewReader, Header. rewrite <- !app_assoc. simpl.
  rewrite Reset_header; [|apply Itoa_no_NUL_int|exact Hlen].
  rewrite Atoi_Itoa_int by exact Hn. cbn [fst snd pretty mbind result_bind].
  eexists. split; [reflexivity|]. cbn [Reader_Type Reader_Len rt rn src]. auto.
Qed.

(** [X3] The length field is whatever [strconv.Atoi] makes of the bytes
    between the space and the NUL: when [Atoi] fails, [NewReader]
    returns its error and no [Reader]; when it succeeds, the result is
    the length, sign included. *)
Theorem reader_length_field (prettyReader : bool) (ty : GitType) (num D : list byte) :
  ~ In NUL num ->
  (length (bytes (GitType_String ty)) + length num + 2 <= 28)%nat ->
  NewReader (deflate (bytes (GitType_String ty) ++ SP :: num ++ NUL :: D)) prettyReader
  = match strconv.Atoi num with
    | (_, Some e) => Ret (inl e)
    | (n, None) =>
        Ret (inr (mkReader (if prettyReader && GitType_eqb ty Tree
                            then Pretty (fresh_treeReader D) else Plain D)
                           prettyReader ty n))
    end.
Proof.
  intros Hnul Hlen. unfold NewReader. rewrite Reset_header by assumption.
  cbn [pretty mbind result_bind]. destruct (strconv.Atoi num) as [n [e|]]; reflexivity.
Qed.

(** [X4] A header that is not delimited inside the first 28 bytes of the
    inflated stream is not parsed: without a space there, and likewise
    with a known type but no NUL in what is left of the 28 bytes,
    [NewReader] returns [io.EOF].  An empty stream is one such case. *)
Theorem header_lookahead_limit (prettyReader : bool) (raw s : list byte) :
  inflate raw = Some s ->
  (~ In SP (firstn 28 s) -> NewReader raw prettyReader = Ret (inl EOF))
  /\ (forall ty rest,
        s = bytes (GitType_String ty) ++ SP :: rest ->
        ~ In NUL (firstn (28 - length (bytes (GitType_String ty)) - 1) rest) ->
        NewReader raw prettyReader = Ret (inl EOF)).
Proof.
  intros Hinf. split.
  - intros Hsp. unfold NewReader, Reader_Reset. rewrite Hinf. cbv zeta.
    destruct (ReadBytes_eof SP (bufio.NewReader (firstn 28 s)) (NewReader_ok _))
      as (b1 & Hrun & _); [rewrite NewReader_stream; exact Hsp|].
    rewrite Hrun. reflexivity.
  - intros ty rest -> Hnul. unfold NewReader, Reader_Reset. rewrite Hinf. cbv zeta.
    set (tok := bytes (GitType_String ty)) in *.
    assert (Htok : (length tok < 28)%nat) by (unfold tok; destruct ty; simpl; lia).
    assert (Hfirst : firstn 28 (tok ++ SP :: rest)
                     = tok ++ SP :: firstn (28 - length tok - 1) rest).
    { rewrite firstn_app, firstn_all2 by lia. f_equal.
      destruct (28 - length tok)%nat as [|k] eqn:Ek; [lia|].
      simpl. rewrite Nat.sub_0_r. reflexivity. }
    rewrite Hfirst.
    destruct (ReadBytes_found SP (bufio.NewReader (tok ++ SP :: firstn (28 - length tok - 1) rest))
                tok (firstn (28 - length tok - 1) rest))
      as (b1 & Hrun1 & Hok1 & _ & Hs1);
      [apply NewReader_ok|apply NewReader_stream|apply type_token_no_space|].
    rewrite Hrun1, drop_last_snoc. unfold mbind, result_bind.
    unfold tok at 1. rewrite ParseType_String.
    destruct (ReadBytes_eof NUL b1 Hok1) as (b2 & Hrun2 & _); [rewrite Hs1; exact Hnul|].
    rewrite Hrun2. reflexivity.
Qed.

End HeaderFacts.

Lemma reader_reports_header_witness :
  (length (Header Commit strconv.minInt) <= 28)%nat.
Proof.
  apply (@reader_reports_header stored_codec false Commit strconv.minInt []).
  vm_compute. split; discriminate.
Defined.

Lemma reader_length_field_witness :
  @NewReader stored_codec
    (@deflate stored_codec (bytes "blob" ++ SP :: bytes "-5" ++ NUL :: bytes "abc")) false
  = Ret (inr (mkReader (Plain (bytes "abc")) false Blob (-5))).
Proof.
  refine (eq_trans (@reader_length_field stored_codec false Blob (bytes "-5") (bytes "abc") _ _) _).
  - apply IndexByte_None. reflexivity.
  - vm_compute. lia.
  - reflexivity.
Defined.

Lemma header_lookahead_limit_witness :
  @NewReader stored_codec (@deflate stored_codec []) true = Ret (inl EOF).
Proof.
  apply (proj1 (@header_lookahead_limit stored_codec true (@deflate stored_codec []) [] eq_refl)).
  intros Hin. exact Hin.
Defined.

(** ** Streaming on the direct path *)

Lemma direct_Writes (stg : list byte) (ty : GitType) (ps : list (list byte)) :
  forall z h : list byte,
  writer_Writes (mkWriter stg z false h None ty true) ps
  = Ret (mkWriter stg (z ++ concat ps) false (h ++ concat ps) None ty true).
Proof.
  induction ps as [|p ps IH]; intros z h.
  - simpl. rewrite !app_nil_r. reflexivity.
  - cbn [writer_Writes]. unfold writer_Write, multi_Write.
    cbn [wroteHeader negb tw zw_closed staging zw hh t mbind result_bind].
    rewrite IH. simpl. rewrite <- !app_assoc. reflexivity.
Qed.

Section DirectPath.
Context `{Zlib}.

Lemma direct_run (stg : list byte) (ty : GitType) (n : Z) (ps : list (list byte)) :
  ty <> Tree -> 0 <= n ->
  exists g1 g2 g3,
    writer_WriteHeader (NewWriter stg) ty n = Ret (length (Header ty n), None, g1) /\
    writer_Writes g1 ps = Ret g2 /\
    writer_Close g2 = (None, g3) /\
    hh g3 = Header ty n ++ concat ps /\
    staging g3 = stg ++ deflate (Header ty n ++ concat ps).
Proof.
  intros Hty Hn.
  assert (E1 : GitType_eqb ty Tree = false) by (destruct ty; simpl; congruence).
  assert (E2 : (n <? 0) = false) by (apply Z.ltb_ge; lia).
  unfold writer_WriteHeader, NewWriter. cbn [wroteHeader]. rewrite E1, E2.
  cbn [orb]. unfold writer_Write. cbn [wroteHeader negb tw multi_Write zw_closed].
  unfold multi_Write. cbn [zw_closed staging zw hh tw t wroteHeader app].
  eexists _, _, _. split; [reflexivity|].
  rewrite direct_Writes. split; [reflexivity|].
  unfold writer_Close, zw_Close. cbn [tw zw_closed staging zw hh t wroteHeader].
  split; [reflexivity|]. split; reflexivity.
Qed.


End DirectPath.


(** ** Paths of the disk store *)

Lemma substring_split (n : nat) : forall s : string,
  (n <= String.length s)%nat ->
  String.append (substring 0 n s) (substring n (String.length s - n) s) = s
  /\ String.length (substring 0 n s) = n
  /\ String.length (substring n (String.length s - n) s) = (String.length s - n)%nat.
Proof.
  induction n as [|n IH]; intros s Hn.
  - rewrite Nat.sub_0_r.
    assert (Hall : forall u : string, substring 0 (String.length u) u = u).
    { intros u. induction u as [|a u IHu]; simpl; [reflexivity|]. now rewrite IHu. }
    destruct s as [|a s]; simpl; [auto|]. rewrite Hall. auto.
  - destruct s as [|a s]; simpl in Hn; [lia|].
    destruct (IH s ltac:(lia)) as (Ha & Hl1 & Hl2). simpl.
    split; [|rewrite Hl1, Hl2; auto].
    change (String a (substring 0 n s +:+ substring n (String.length s - n) s) = String a s).
    now rewrite Ha.
Qed.

(** ** Publishing and reading back *)

Section ReadBack.
Context `{Zlib}.

Lemma mem_publish_direct (st : memStore) (ty : GitType) (n : Z) (ps : list (list byte)) :
  ty <> Tree -> 0 <= n ->
  mem_publish st ty n ps
  = let h := hex.EncodeToString (sha1.Sum (Header ty n ++ concat ps)) in
    match st !! h with
    | Some _ => Ret (Some (ErrObjectExists h), st, h)
    | None => Ret (None, <[ h := deflate (Header ty n ++ concat ps) ]> st, h)
    end.
Proof.
  intros Hty Hn.
  destruct (direct_run [] ty n ps Hty Hn) as (g1 & g2 & g3 & H1 & H2 & H3 & Hh & Hs).
  rewrite app_nil_l in Hs.
  unfold mem_publish, memStore_Writer. cbn [mc_Writer]. rewrite H1.
  cbn [mbind result_bind]. rewrite H2. cbn [mbind result_bind].
  unfold memCloser_Close. cbn [mc_Writer]. rewrite H3.
  unfold writer_Hash. rewrite Hh, Hs. cbv zeta.
  destruct (st !! _); cbn [mc_Writer]; rewrite Hh; reflexivity.
Qed.

(** [X6] What is published to the in-memory store is read back by its
    digest: for a type other than tree and a declared size that is an
    [int], a life cycle on a store that does not hold the digest
    succeeds, and [Reader] on that digest then reports the type and the
    declared size and streams the bytes that were written. *)
Theorem mem_publish_read_back (st : memStore) (ty : GitType) (n : Z)
    (ps : list (list byte)) (prettyReader : bool) :
  let h := hex.EncodeToString (sha1.Sum (Header ty n ++ concat ps)) in
  ty <> Tree -> 0 <= n <= strconv.maxInt -> st !! h = None ->
  exists st1 r,
    mem_publish st ty n ps = Ret (None, st1, h) /\
    memStore_Reader st1 h prettyReader = Ret (inr r) /\
    Reader_Type r = ty /\ Reader_Len r = n /\ src r = Plain (concat ps).
Proof.
  intros h Hty Hn Hfree. rewrite mem_publish_direct by (auto; lia).
  fold h. cbv zeta. rewrite Hfree. eexists _, _. split; [reflexivity|].
  unfold memStore_Reader. rewrite (mem_exact _ h _ (lookup_insert_eq _ _ _)).
  unfold open_Reader. rewrite NewReader_framed by exact Hn.
  replace (prettyReader && GitType_eqb ty Tree) with false
    by (destruct ty, prettyReader; simpl; congruence).
  split; [reflexivity|]. auto.
Qed.

Lemma digest_split (src : list byte) :
  let h := hex.EncodeToString (sha1.Sum src) in
  let d := substring 0 2 h in
  let rest := substring 2 38 h in
  split2 h = Ret (d, rest) /\ rest <> ""%string /\
  String.append d rest = h /\ String.length d = 2%nat /\ String.length rest = 38%nat.
Proof.
  intros h d rest.
  assert (Hl : String.length h = 40%nat)
    by (unfold h; now rewrite EncodeToString_length, Sum_length).
  assert (E38 : 38%nat = (String.length h - 2)%nat) by (rewrite Hl; reflexivity).
  unfold rest. rewrite E38.
  split; [apply split2_long; lia|].
  split; [apply rest_nonempty; lia|].
  destruct (substring_split 2 h ltac:(lia)) as (Ha & H2 & H38). auto.
Qed.

Lemma disk_publish_direct (fs : objects) (ty : GitType) (n : Z) (ps : list (list byte)) :
  ty <> Tree -> 0 <= n ->
  disk_publish fs ty n ps
  = let h := hex.EncodeToString (sha1.Sum (Header ty n ++ concat ps)) in
    let z := deflate (Header ty n ++ concat ps) in
    let d := substring 0 2 h in
    let rest := substring 2 38 h in
    match fs !! d with
    | Some (File _) => Ret (Some (ErrOsNotDir [d]), fs, h)
    | Some (Dir m) =>
        match m !! rest with
        | Some _ => Ret (Some (ErrOsExist [d; rest]), fs, h)
        | None => Ret (None, <[ d := Dir (<[ rest := z ]> m) ]> fs, h)
        end
    | None => Ret (None, <[ d := Dir {[ rest := z ]} ]> fs, h)
    end.
Proof.
  intros Hty Hn.
  destruct (direct_run [] ty n ps Hty Hn) as (g1 & g2 & g3 & H1 & H2 & H3 & Hh & Hs).
  rewrite app_nil_l in Hs.
  destruct (digest_split (Header ty n ++ concat ps)) as (Hsp & Hne & _).
  apply String.eqb_neq in Hne.
  unfold disk_publish, DiskStore_Writer. cbn [dc_Writer]. rewrite H1.
  cbn [mbind result_bind]. rewrite H2. cbn [mbind result_bind].
  unfold diskCloser_Close. cbn [dc_Writer]. rewrite H3.
  unfold writer_Hash. rewrite Hh, Hs. cbv zeta. rewrite Hsp.
  cbn [mbind result_bind]. rewrite Hne.
  destruct (fs !! _) as [[c|m]|]; [| destruct (m !! _) |];
    cbn [mbind result_bind dc_Writer]; rewrite Hh; reflexivity.
Qed.

(** [X7] What is published to the disk store is read back by its
    digest, and lies where the loose-object layout puts it: for a type
    other than tree and a declared size that is an [int], when the
    bucket named by the digest's first two characters is missing, or is
    a directory with no file named by the other thirty-eight, the life
    cycle succeeds, the deflated framing is the file of that name in
    that bucket, and [Reader] on the digest reports the type and the
    declared size and streams the bytes that were written. *)
Theorem disk_publish_read_back (fs : objects) (ty : GitType) (n : Z)
    (ps : list (list byte)) (prettyReader : bool) :
  let h := hex.EncodeToString (sha1.Sum (Header ty n ++ concat ps)) in
  let d := substring 0 2 h in
  let rest := substring 2 38 h in
  ty <> Tree -> 0 <= n <= strconv.maxInt ->
  fs !! d = None \/ (exists m, fs !! d = Some (Dir m) /\ m !! rest = None) ->
  exists fs1 m1 r,
    disk_publish fs ty n ps = Ret (None, fs1, h) /\
    String.append d rest = h /\ String.length d = 2%nat /\ String.length rest = 38%nat /\
    fs1 !! d = Some (Dir m1) /\
    m1 !! rest = Some (deflate (Header ty n ++ concat ps)) /\
    DiskStore_Reader fs1 h prettyReader = Ret (inr r) /\
    Reader_Type r = ty /\ Reader_Len r = n /\ src r = Plain (concat ps).
Proof.
  cbv zeta. intros Hty Hn Hfree.
  destruct (digest_split (Header ty n ++ concat ps)) as (Hsp & Hne & Happ & Hd & Hr).
  set (h := hex.EncodeToString (sha1.Sum (Header ty n ++ concat ps))) in *.
  set (d := substring 0 2 h) in *. set (rest := substring 2 38 h) in *.
  assert (Hread : forall fs1 m1,
    fs1 !! d = Some (Dir m1) -> m1 !! rest = Some (deflate (Header ty n ++ concat ps)) ->
    DiskStore_Reader fs1 h prettyReader
    = Ret (inr (mkReader (Plain (concat ps)) prettyReader ty n))).
  { intros fs1 m1 H1 H2. unfold DiskStore_Reader.
    rewrite (disk_exact fs1 h d rest m1 Hsp Hne H1 _ H2).
    cbn [mbind result_bind]. unfold open_Reader. rewrite NewReader_framed by exact Hn.
    replace (prettyReader && GitType_eqb ty Tree) with false
      by (destruct ty, prettyReader; simpl; congruence).
    reflexivity. }
  rewrite disk_publish_direct by (auto; lia). cbv zeta. fold h. fold d. fold rest.
  destruct Hfree as [Hnone | (m & Hm & Hnone)].
  - rewrite Hnone.
    eexists _, _, _. split; [reflexivity|]. do 3 (split; [assumption|]).
    split; [apply lookup_insert_eq|]. split; [apply lookup_singleton_eq|].
    split; [apply (Hread _ _ (lookup_insert_eq _ _ _) (lookup_singleton_eq _ _))|auto].
  - rewrite Hm, Hnone.
    eexists _, _, _. split; [reflexivity|]. do 3 (split; [assumption|]).
    split; [apply lookup_insert_eq|]. split; [apply lookup_insert_eq|].
    split; [apply (Hread _ _ (lookup_insert_eq _ _ _) (lookup_insert_eq _ _ _))|auto].
Qed.

End ReadBack.

Lemma mem_publish_read_back_witness :
  exists st1 r,
    @mem_publish stored_codec sample_mem Blob 5 [bytes "hel"; bytes "lo"]
    = Ret (None, st1, "b6fc4c620b67d95f953a5c1c1230aaab5db5a1b0"%string) /\
    @memStore_Reader stored_codec st1 "b6fc4c620b67d95f953a5c1c1230aaab5db5a1b0" false = Ret (inr r) /\
    Reader_Type r = Blob /\ Reader_Len r = 5 /\ src r = Plain (bytes "hello").
Proof.
  apply (@mem_publish_read_back stored_codec sample_mem Blob 5 [bytes "hel"; bytes "lo"] false);
    [discriminate | vm_compute; split; discriminate | vm_compute; reflexivity].
Defined.

Lemma disk_publish_read_back_witness :
  exists fs1 m1 r,
    @disk_publish stored_codec sample_disk Blob 5 [bytes "hel"; bytes "lo"]
    = Ret (None, fs1, "b6fc4c620b67d95f953a5c1c1230aaab5db5a1b0"%string) /\
    String.append "b6" "fc4c620b67d95f953a5c1c1230aaab5db5a1b0" = "b6fc4c620b67d95f953a5c1c1230aaab5db5a1b0"%string /\
    String.length "b6" = 2%nat /\ String.length "fc4c620b67d95f953a5c1c1230aaab5db5a1b0" = 38%nat /\
    fs1 !! "b6"%string = Some (Dir m1) /\
    m1 !! "fc4c620b67d95f953a5c1c1230aaab5db5a1b0"%string
      = Some (@deflate stored_codec (Header Blob 5 ++ bytes "hello")) /\
    @DiskStore_Reader stored_codec fs1 "b6fc4c620b67d95f953a5c1c1230aaab5db5a1b0" false = Ret (inr r) /\
    Reader_Type r = Blob /\ Reader_Len r = 5 /\ src r = Plain (bytes "hello").
Proof.
  apply (@disk_publish_read_back stored_codec sample_disk Blob 5 [bytes "hel"; bytes "lo"] false);
    [discriminate | vm_compute; split; discriminate | left; vm_compute; reflexivity].
Defined.

(** ** What a life cycle does to a store *)

Lemma prefix_same_length : forall p s : string,
  String.prefix p s = true -> String.length p = String.length s -> p = s.
Proof.
  induction p as [|a p IH]; intros [|b s]; simpl; try discriminate; [reflexivity|].
  destruct (ascii_dec a b) as [->|]; [|discriminate].
  intros Hp Hl. f_equal. apply IH; [exact Hp|lia].
Qed.

Lemma digest_keys_empty : digest_keys MemStore.
Proof. intros k [b Hb]. unfold MemStore in Hb. rewrite lookup_empty in Hb. discriminate. Qed.

Lemma digest_keys_insert (st : memStore) (h : string) (z : list byte) :
  String.length h = 40%nat -> is_hex_string h = true ->
  digest_keys st -> digest_keys (<[ h := z ]> st).
Proof.
  intros Hl Hx Hst k [b Hb]. apply lookup_insert_Some in Hb as [[<- _]|[_ Hb]]; [auto|].
  apply Hst. eauto.
Qed.

Lemma disk_layout_empty : disk_layout ∅.
Proof. intros d m k _ Hd. rewrite lookup_empty in Hd. discriminate. Qed.

Section Frame.
Context `{Zlib}.

Lemma mem_publish_cases (st st1 : memStore) (ty : GitType) (s : Z)
    (ps : list (list byte)) (e : option error) (h : string) :
  mem_publish st ty s ps = Ret (e, st1, h) ->
  String.length h = 40%nat /\ is_hex_string h = true /\
  ((e = None /\ st !! h = None /\ exists z, st1 = <[ h := z ]> st) \/
   (e <> None /\ st1 = st)).
Proof.
  unfold mem_publish.
  destruct (writer_WriteHeader _ ty s) as [[[n0 e0] g1]|]; [|discriminate].
  cbn [mbind result_bind].
  destruct (writer_Writes g1 ps) as [g2|]; [|discriminate].
  cbn [mbind result_bind]. unfold memCloser_Close. cbn [mc_Writer].
  destruct (writer_Close g2) as [[e1|] g3].
  - intros [= <- <- <-]. cbn [mc_Writer].
    split; [apply Hash_length|]. split; [apply Hash_hex|].
    right; split; [discriminate|reflexivity].
  - destruct (st !! writer_Hash g3) eqn:Hl; intros [= <- <- <-]; cbn [mc_Writer];
      (split; [apply Hash_length|]); (split; [apply Hash_hex|]).
    + right; split; [discriminate|reflexivity].
    + left; eauto.
Qed.

(** [X8] A life cycle on the in-memory store, whatever the type, the
    declared size and the chunks (the transcoding path and its errors
    included), when it returns, either adds one binding, at the digest
    it reports and which was not bound, or returns an error and leaves
    the store as it was; no binding is changed or removed. *)
Theorem mem_publish_frame (st st1 : memStore) (ty : GitType) (s : Z)
    (ps : list (list byte)) (e : option error) (h : string) :
  mem_publish st ty s ps = Ret (e, st1, h) ->
  ((e = None /\ st !! h = None /\ exists z, st1 = <[ h := z ]> st) \/
   (e <> None /\ st1 = st)) /\
  (forall k b, st !! k = Some b -> st1 !! k = Some b).
Proof.
  intros Hp. destruct (mem_publish_cases _ _ _ _ _ _ _ Hp) as (_ & _ & Hc).
  split; [exact Hc|].
  destruct Hc as [(_ & Hfree & z & ->)|(_ & ->)]; [|auto].
  intros k b Hk. rewrite lookup_insert_ne; [exact Hk|]. congruence.
Qed.

(** [X10] The keys of the in-memory store are digests: when every key
    is forty lower-case hexadecimal characters, the same holds after
    any life cycle that returns, and so does it for the digest the
    life cycle reports. *)
Theorem digest_keys_invariant (st st1 : memStore) (ty : GitType) (s : Z)
    (ps : list (list byte)) (e : option error) (h : string) :
  digest_keys st ->
  mem_publish st ty s ps = Ret (e, st1, h) ->
  digest_keys st1 /\ String.length h = 40%nat /\ is_hex_string h = true.
Proof.
  intros Hst Hp. destruct (mem_publish_cases _ _ _ _ _ _ _ Hp) as (Hl & Hx & Hc).
  split; [|auto].
  destruct Hc as [(_ & _ & z & ->)|(_ & ->)]; [|exact Hst].
  now apply digest_keys_insert.
Qed.

Lemma disk_publish_cases (fs fs1 : objects) (ty : GitType) (s : Z)
    (ps : list (list byte)) (e : option error) (h : string) :
  disk_publish fs ty s ps = Ret (e, fs1, h) ->
  String.length h = 40%nat /\
  ((e <> None /\ fs1 = fs) \/
   (e = None /\ exists z,
      let d := substring 0 2 h in
      let rest := substring 2 38 h in
      (fs !! d = None /\ fs1 = <[ d := Dir {[ rest := z ]} ]> fs) \/
      (exists m, fs !! d = Some (Dir m) /\ m !! rest = None /\
                 fs1 = <[ d := Dir (<[ rest := z ]> m) ]> fs))).
Proof.
  unfold disk_publish.
  destruct (writer_WriteHeader _ ty s) as [[[n0 e0] g1]|]; [|discriminate].
  cbn [mbind result_bind].
  destruct (writer_Writes g1 ps) as [g2|]; [|discriminate].
  cbn [mbind result_bind]. unfold diskCloser_Close. cbn [dc_Writer].
  destruct (writer_Close g2) as [[e1|] g3].
  { cbn [mbind result_bind]. intros [= <- <- <-]. cbn [dc_Writer].
    split; [apply Hash_length|]. left. split; [discriminate|reflexivity]. }
  rewrite (split2_long (writer_Hash g3)) by (rewrite Hash_length; lia).
  cbn [mbind result_bind]. rewrite Hash_length.
  assert (Hne : substring 2 (40 - 2) (writer_Hash g3) <> ""%string).
  { replace (40 - 2)%nat with (String.length (writer_Hash g3) - 2)%nat
      by (rewrite Hash_length; reflexivity).
    apply rest_nonempty. rewrite Hash_length. lia. }
  apply String.eqb_neq in Hne. rewrite Hne.
  change (40 - 2)%nat with 38%nat.
  set (d0 := substring 0 2 (writer_Hash g3)).
  set (r0 := substring 2 38 (writer_Hash g3)).
  destruct (fs !! d0) as [[c0|m0]|] eqn:Hd0.
  - cbn [mbind result_bind]. intros [= <- <- <-]. cbn [dc_Writer].
    split; [apply Hash_length|]. left. split; [discriminate|reflexivity].
  - destruct (m0 !! r0) eqn:Hr0; cbn [mbind result_bind]; intros [= <- <- <-]; cbn [dc_Writer];
      (split; [apply Hash_length|]).
    + left. split; [discriminate|reflexivity].
    + right. split; [reflexivity|]. exists (staging g3). cbv zeta. fold d0 r0.
      right. exists m0. auto.
  - cbn [mbind result_bind]. intros [= <- <- <-]. cbn [dc_Writer].
    split; [apply Hash_length|]. right. split; [reflexivity|].
    exists (staging g3). cbv zeta. fold d0 r0. left. auto.
Qed.

(** [X9] The disk store never overwrites: when a life cycle returns,
    with or without an error, every entry of the objects directory that
    was a plain file is the same file, and every file of every bucket
    is still there with the same content. *)
Theorem disk_publish_frame (fs fs1 : objects) (ty : GitType) (s : Z)
    (ps : list (list byte)) (e : option error) (h : string) :
  disk_publish fs ty s ps = Ret (e, fs1, h) ->
  (forall d c, fs !! d = Some (File c) -> fs1 !! d = Some (File c)) /\
  (forall d m k b, fs !! d = Some (Dir m) -> m !! k = Some b ->
     exists m1, fs1 !! d = Some (Dir m1) /\ m1 !! k = Some b).
Proof.
  intros Hp. destruct (disk_publish_cases _ _ _ _ _ _ _ Hp) as (_ & Hc).
  destruct Hc as [(He & ->)|(-> & z & Hc)]; [split; eauto|].
  cbv zeta in Hc.
  destruct Hc as [(Hnone & ->)|(m0 & Hd0 & Hr0 & ->)].
  - split.
    + intros d c Hd. rewrite lookup_insert_ne; [exact Hd|]. congruence.
    + intros d m k b Hd Hk. exists m. split; [|exact Hk].
      rewrite lookup_insert_ne; [exact Hd|]. congruence.
  - split.
    + intros d c Hd. rewrite lookup_insert_ne; [exact Hd|]. congruence.
    + intros d m k b Hd Hk.
      destruct (decide (d = substring 0 2 h)) as [->|Hneq].
      * rewrite Hd0 in Hd. injection Hd as <-.
        eexists. split; [apply lookup_insert_eq|].
        rewrite lookup_insert_ne; [exact Hk|]. congruence.
      * exists m. split; [|exact Hk]. rewrite lookup_insert_ne; [exact Hd|]. congruence.
Qed.

(** [X11] The disk store keeps the loose-object layout: when the files
    of every two-character bucket of the objects directory have
    thirty-eight-character names, the same holds after any life cycle
    that returns. *)
Theorem disk_layout_invariant (fs fs1 : objects) (ty : GitType) (s : Z)
    (ps : list (list byte)) (e : option error) (h : string) :
  disk_layout fs ->
  disk_publish fs ty s ps = Ret (e, fs1, h) ->
  disk_layout fs1.
Proof.
  intros Hfs Hp. destruct (disk_publish_cases _ _ _ _ _ _ _ Hp) as (Hl & Hc).
  destruct Hc as [(He & ->)|(-> & z & Hc)]; [exact Hfs|].
  cbv zeta in Hc.
  destruct (substring_split 2 h ltac:(lia)) as (_ & H2 & H38).
  rewrite Hl in H38. change (40 - 2)%nat with 38%nat in H38.
  destruct Hc as [(Hnone & ->)|(m0 & Hd0 & Hr0 & ->)]; intros d m k Hd2 Hd Hk;
    apply lookup_insert_Some in Hd as [[<- [= <-]]|[_ Hd]];
    try (now apply (Hfs _ _ _ Hd2 Hd)).
  - destruct Hk as [b Hk]. apply lookup_singleton_Some in Hk as [<- _]. exact H38.
  - destruct Hk as [b Hk]. apply lookup_insert_Some in Hk as [[<- _]|[_ Hk]]; [exact H38|].
    apply (Hfs _ _ _ Hd2 Hd0). eauto.
Qed.

End Frame.

(** ** Resolving a full digest *)

(** [X12] In an in-memory store whose keys are digests, a hash of forty
    characters resolves by the map lookup alone: the object under that
    key, or "does not exist"; the prefix scan never reports it
    ambiguous and never picks another object. *)
Theorem full_digest_resolution (st : memStore) (hash : string) :
  digest_keys st -> String.length hash = 40%nat ->
  memStore_Object st hash
  = match st !! hash with
    | Some b => inr (Bytes b)
    | None => inl (ErrDoesNotExist hash)
    end.
Proof.
  intros Hst Hl. destruct (st !! hash) as [b|] eqn:Hb; [now apply mem_exact|].
  apply mem_absent. intros k Hk. destruct (HasPrefix k hash) eqn:Hp; [|reflexivity].
  exfalso. unfold HasPrefix in Hp.
  apply prefix_same_length in Hp; [|destruct (Hst k Hk); congruence].
  subst k. rewrite Hb in Hk. now destruct Hk.
Qed.

(** [X13] In an objects directory with the loose-object layout, a hash
    of forty lower-case hexadecimal characters resolves by the path
    alone: the file objects/<2>/<38> when it exists, "does not exist"
    when the bucket exists without it, and the error of the file system
    when the bucket is missing or is a plain file; the directory scan
    never reports it ambiguous and never picks another file.  The hash
    is a digest: a string with separators or dot segments is a path
    that [filepath.Join] rewrites, outside the names of the model. *)
Theorem disk_full_digest_resolution (fs : objects) (hash : string) :
  disk_layout fs -> String.length hash = 40%nat -> is_hex_string hash = true ->
  DiskStore_Object fs hash
  = match fs !! substring 0 2 hash with
    | Some (Dir m) =>
        match m !! substring 2 38 hash with
        | Some b => Ret (inr (Bytes b))
        | None => Ret (inl (ErrDoesNotExist hash))
        end
    | Some (File _) =>
        Ret (inl (ErrOsNotDir [substring 0 2 hash; substring 2 38 hash]))
    | None => Ret (inl (ErrOsNotExist [substring 0 2 hash]))
    end.
Proof.
  intros Hfs Hl _.
  assert (Hsp : split2 hash = Ret (substring 0 2 hash, substring 2 38 hash)).
  { rewrite split2_long by lia. rewrite Hl. reflexivity. }
  assert (Hne : substring 2 38 hash <> ""%string).
  { replace 38%nat with (String.length hash - 2)%nat by (rewrite Hl; reflexivity).
    apply rest_nonempty. lia. }
  destruct (substring_split 2 hash ltac:(lia)) as (_ & H2 & H38).
  rewrite Hl in H38. change (40 - 2)%nat with 38%nat in H38.
  destruct (fs !! substring 0 2 hash) as [[c|m]|] eqn:Hd.
  - rewrite (DiskStore_Object_split fs hash _ _ Hsp). unfold os_Open. rewrite Hd.
    apply String.eqb_neq in Hne. rewrite Hne. reflexivity.
  - destruct (m !! substring 2 38 hash) as [b|] eqn:Hb.
    + exact (disk_exact fs hash _ _ m Hsp Hne Hd b Hb).
    + apply (disk_absent fs hash _ _ m Hsp Hne Hd Hb).
      intros k Hk. destruct (HasPrefix k (substring 2 38 hash)) eqn:Hp; [|reflexivity].
      exfalso. unfold HasPrefix in Hp.
      apply prefix_same_length in Hp; [|rewrite (Hfs _ _ k H2 Hd Hk); exact H38].
      subst k. rewrite Hb in Hk. now destruct Hk.
  - exact (disk_no_bucket fs hash _ _ Hsp Hd).
Qed.

Lemma sample_mem_digest_keys : digest_keys sample_mem.
Proof.
  unfold sample_mem. apply digest_keys_insert; [reflexivity..|].
  apply digest_keys_insert; [reflexivity..|]. apply digest_keys_empty.
Qed.

Lemma sample_disk_layout : disk_layout sample_disk.
Proof.
  intros d m k _ Hd [b Hk]. unfold sample_disk in Hd.
  apply lookup_singleton_Some in Hd as [<- [= <-]].
  apply lookup_insert_Some in Hk as [[<- _]|[_ Hk]]; [reflexivity|].
  apply lookup_insert_Some in Hk as [[<- _]|[_ Hk]]; [reflexivity|].
  rewrite lookup_empty in Hk. discriminate.
Qed.

Lemma mem_publish_frame_witness :
  ((@None error = None /\ sample_mem !! hello_digest = None /\
    exists z, <[ hello_digest := hello_object ]> sample_mem = <[ hello_digest := z ]> sample_mem) \/
   (@None error <> None /\ <[ hello_digest := hello_object ]> sample_mem = sample_mem)) /\
  (forall k b, sample_mem !! k = Some b ->
     (<[ hello_digest := hello_object ]> sample_mem) !! k = Some b).
Proof.
  apply (@mem_publish_frame stored_codec sample_mem (<[ hello_digest := hello_object ]> sample_mem) Blob 5 [bytes "hello"] None hello_digest).
  vm_cast_no_check (@eq_refl _ (@Ret (option error * memStore * string)
      (None, <[ hello_digest := hello_object ]> sample_mem, hello_digest))).
Defined.

Lemma digest_keys_invariant_witness :
  digest_keys (<[ hello_digest := hello_object ]> sample_mem) /\
  String.length hello_digest = 40%nat /\ is_hex_string hello_digest = true.
Proof.
  apply (@digest_keys_invariant stored_codec sample_mem (<[ hello_digest := hello_object ]> sample_mem) Blob 5 [bytes "hello"] None hello_digest).
  - exact sample_mem_digest_keys.
  - vm_cast_no_check (@eq_refl _ (@Ret (option error * memStore * string)
      (None, <[ hello_digest := hello_object ]> sample_mem, hello_digest))).
Defined.

Lemma disk_publish_frame_witness :
  (forall d c, sample_disk !! d = Some (File c) ->
     (<[ "b6"%string := Dir {[ "fc4c620b67d95f953a5c1c1230aaab5db5a1b0"%string := hello_object ]} ]> sample_disk)
       !! d = Some (File c)) /\
  (forall d m k b, sample_disk !! d = Some (Dir m) -> m !! k = Some b ->
     exists m1,
       (<[ "b6"%string := Dir {[ "fc4c620b67d95f953a5c1c1230aaab5db5a1b0"%string := hello_object ]} ]> sample_disk)
         !! d = Some (Dir m1) /\ m1 !! k = Some b).
Proof.
  apply (@disk_publish_frame stored_codec sample_disk
    (<[ "b6"%string := Dir {[ "fc4c620b67d95f953a5c1c1230aaab5db5a1b0"%string := hello_object ]} ]> sample_disk)
    Blob 5 [bytes "hello"] None hello_digest).
  vm_cast_no_check (@eq_refl _ (@Ret (option error * objects * string)
      (None, <[ "b6"%string := Dir {[ "fc4c620b67d95f953a5c1c1230aaab5db5a1b0"%string := hello_object ]} ]> sample_disk,
       hello_digest))).
Defined.

Lemma disk_layout_invariant_witness :
  disk_layout
    (<[ "b6"%string := Dir {[ "fc4c620b67d95f953a5c1c1230aaab5db5a1b0"%string := hello_object ]} ]> sample_disk).
Proof.
  apply (@disk_layout_invariant stored_codec sample_disk
    (<[ "b6"%string := Dir {[ "fc4c620b67d95f953a5c1c1230aaab5db5a1b0"%string := hello_object ]} ]> sample_disk)
    Blob 5 [bytes "hello"] None hello_digest).
  - exact sample_disk_layout.
  - vm_cast_no_check (@eq_refl _ (@Ret (option error * objects * string)
      (None, <[ "b6"%string := Dir {[ "fc4c620b67d95f953a5c1c1230aaab5db5a1b0"%string := hello_object ]} ]> sample_disk,
       hello_digest))).
Defined.

Lemma full_digest_resolution_witness :
  memStore_Object sample_mem digest1 = inr (Bytes (bytes "one")) /\
  memStore_Object sample_mem hello_digest = inl (ErrDoesNotExist hello_digest).
Proof.
  split.
  - rewrite (full_digest_resolution sample_mem digest1 sample_mem_digest_keys eq_refl).
    reflexivity.
  - rewrite (full_digest_resolution sample_mem hello_digest sample_mem_digest_keys eq_refl).
    reflexivity.
Defined.

Lemma disk_full_digest_resolution_witness :
  DiskStore_Object sample_disk digest1 = Ret (inr (Bytes (bytes "one"))) /\
  DiskStore_Object sample_disk hello_digest = Ret (inl (ErrOsNotExist ["b6"%string])).
Proof.
  split.
  - rewrite (disk_full_digest_resolution sample_disk digest1 sample_disk_layout eq_refl eq_refl).
    reflexivity.
  - rewrite (disk_full_digest_resolution sample_disk hello_digest sample_disk_layout eq_refl
               eq_refl).
    reflexivity.
Defined.

(** ** The digest field of a pretty line *)

Lemma Decode_loop_overlong (src : list byte) : forall pre rest : list byte,
  (length rest < length src)%nat ->
  hex.Decode_loop (pre ++ rest) (length pre) (hex.encoded src)
  = Panic "index out of range".
Proof.
  induction src as [|v src IH]; intros pre rest Hlen; [simpl in Hlen; lia|].
  pose proof (decode_encode_byte v) as Hv.
  unfold hex.encoded. cbn [flat_map].
  destruct (hex.encode_byte v) as [|p [|q [|x l]]]; try contradiction.
  cbn [app hex.Decode_loop].
  destruct (hex.fromHexChar p) as [a|]; [|contradiction].
  destruct (hex.fromHexChar q) as [b|]; [|contradiction].
  destruct rest as [|y rest].
  - rewrite app_nil_r, Nat.ltb_irrefl. reflexivity.
  - assert (Hlt : (length pre <? length (pre ++ y :: rest))%nat = true).
    { apply Nat.ltb_lt. rewrite length_app. simpl. lia. }
    rewrite Hlt, Hv.
    assert (Hins : <[length pre := v]> (pre ++ y :: rest) = (pre ++ [v]) ++ rest).
    { rewrite insert_app_r_alt by lia. rewrite Nat.sub_diag. simpl.
      rewrite <- app_assoc. reflexivity. }
    rewrite Hins.
    replace (S (length pre)) with (length (pre ++ [v])) by (rewrite length_app; simpl; lia).
    fold (hex.encoded src). apply IH. simpl in Hlen. lia.
Qed.

Lemma Decode_loop_invalid (src : list byte) (c : byte) (tl : list byte) :
  hex.fromHexChar c = None ->
  forall pre rest : list byte,
  (length src <= length rest)%nat ->
  hex.Decode_loop (pre ++ rest) (length pre) (hex.encoded src ++ c :: tl)
  = Ret (pre ++ src ++ skipn (length src) rest, (length pre + length src)%nat,
         Some (ErrInvalidByte c)).
Proof.
  intros Hc. induction src as [|v src IH]; intros pre rest Hlen.
  - cbn [hex.encoded flat_map app length skipn]. rewrite Nat.add_0_r.
    destruct tl as [|q tl]; cbn [hex.Decode_loop]; rewrite Hc; reflexivity.
  - destruct rest as [|y rest]; [simpl in Hlen; lia|].
    pose proof (decode_encode_byte v) as Hv.
    unfold hex.encoded. cbn [flat_map].
    destruct (hex.encode_byte v) as [|p [|q [|x l]]]; try contradiction.
    cbn [app hex.Decode_loop].
    destruct (hex.fromHexChar p) as [a|]; [|contradiction].
    destruct (hex.fromHexChar q) as [b|]; [|contradiction].
    assert (Hlt : (length pre <? length (pre ++ y :: rest))%nat = true).
    { apply Nat.ltb_lt. rewrite length_app. simpl. lia. }
    rewrite Hlt, Hv.
    assert (Hins : <[length pre := v]> (pre ++ y :: rest) = (pre ++ [v]) ++ rest).
    { rewrite insert_app_r_alt by lia. rewrite Nat.sub_diag. simpl.
      rewrite <- app_assoc. reflexivity. }
    rewrite Hins.
    replace (S (length pre)) with (length (pre ++ [v])) by (rewrite length_app; simpl; lia).
    fold (hex.encoded src). rewrite IH by (simpl in Hlen; lia).
    rewrite length_app. simpl. rewrite <- app_assoc. simpl.
    replace (length pre + 1 + length src)%nat with (length pre + S (length src))%nat by lia.
    reflexivity.
Qed.

(** One turn of the loop on a line whose digest field is any bytes
    without a tab: what happens is what [hex.Decode] makes of the
    field. *)
Lemma treeWriter_loop_field (fuel : nat) (r : bufio.Reader) (wb sm : list byte)
    (mode ty hx name rest : list byte) :
  reader_ok r ->
  ~ In SP mode -> ~ In SP ty -> ~ In TAB hx -> ~ In LF name ->
  stream r = mode ++ SP :: ty ++ SP :: hx ++ TAB :: name ++ LF :: rest ->
  exists r3 r4,
    reader_ok r4 /\ stream r4 = rest /\
    treeWriter_loop (S fuel) r wb sm
    = match hex.Decode sm hx with
      | Panic m => Panic m
      | Ret (sm', _, Some e) => Ret (r3, wb, sm', e)
      | Ret (sm', _, None) =>
          treeWriter_loop fuel r4 (wb ++ strip_zero mode ++ SP :: name ++ NUL :: sm') sm'
      end.
Proof.
  intros Hok Hmode Htype Hhx Hname Hs.
  destruct (ReadBytes_found SP r mode _ Hok Hs Hmode) as (r1 & Hrun1 & Hok1 & _ & Hs1).
  destruct (ReadBytes_found SP r1 ty _ Hok1 Hs1 Htype) as (r2 & Hrun2 & Hok2 & _ & Hs2).
  destruct (ReadBytes_found TAB r2 hx _ Hok2 Hs2 Hhx) as (r3 & Hrun3 & Hok3 & _ & Hs3).
  destruct (ReadBytes_found LF r3 name rest Hok3 Hs3 Hname) as (r4 & Hrun4 & Hok4 & _ & Hs4).
  exists r3, r4. split; [exact Hok4|]. split; [exact Hs4|].
  cbn [treeWriter_loop]. rewrite Hrun1. cbv beta iota.
  rewrite trim_mode_snoc. unfold mbind at 1, result_bind at 1. cbv beta iota.
  rewrite Hrun2. cbv beta iota. rewrite Hrun3. cbv beta iota.
  rewrite drop_last_snoc. unfold mbind at 1, result_bind at 1. cbv beta iota.
  destruct (hex.Decode sm hx) as [[[sm' n] [e|]]|m];
    unfold mbind at 1, result_bind at 1; cbv beta iota; [reflexivity| |reflexivity].
  rewrite Hrun4. cbv beta iota.
  rewrite set_last_snoc. unfold mbind at 1, result_bind at 1. cbv beta iota.
  f_equal. rewrite <- !app_assoc. reflexivity.
Qed.

(** The loop on whole lines followed by anything: the lines are
    transcoded, the digest scratch holds the last digest. *)
Lemma treeWriter_loop_prefix (es : list entry) :
  forall (fuel : nat) (r : bufio.Reader) (wb sm rest : list byte),
  Forall encodable es -> reader_ok r -> stream r = pretty_tree es ++ rest ->
  length sm = 20%nat ->
  exists r',
    treeWriter_loop (length es + fuel) r wb sm
    = treeWriter_loop fuel r' (wb ++ binary_tree es) (List.last (map e_digest es) sm) /\
    reader_ok r' /\ stream r' = rest /\
    length (List.last (map e_digest es) sm) = 20%nat.
Proof.
  induction es as [|e es IH]; intros fuel r wb sm rest Hes Hok Hs Hsm.
  - exists r. simpl. rewrite app_nil_r. auto.
  - apply Forall_cons in Hes as [He Hes].
    cbn [pretty_tree flat_map] in Hs. rewrite <- app_assoc in Hs.
    destruct (treeWriter_loop_step (length es + fuel) r wb sm e _ Hok He Hsm Hs)
      as (r4 & Hstep & Hok4 & Hs4).
    destruct (IH fuel r4 (wb ++ binary_entry e) (e_digest e) rest Hes Hok4 Hs4)
      as (r' & Hrun & Hok' & Hs' & Hl); [apply He|].
    exists r'. cbn [length Nat.add]. rewrite Hstep, Hrun.
    cbn [binary_tree flat_map map]. rewrite <- app_assoc.
    assert (Hlast : List.last (e_digest e :: map e_digest es) sm
                    = List.last (map e_digest es) (e_digest e)).
    { clear. generalize (e_digest e) as d. generalize sm.
      induction es as [|e' es IH]; intros s d; [reflexivity|].
      cbn [map]. change (List.last (d :: e_digest e' :: map e_digest es) s)
        with (List.last (e_digest e' :: map e_digest es) s).
      rewrite IH. symmetry.
      change (List.last (e_digest e' :: map e_digest es) d = List.last (map e_digest es) (e_digest e')).
      apply IH. }
    rewrite Hlast. auto.
Qed.

Lemma treeWriter_loop_end (fuel : nat) (r : bufio.Reader) (wb sm : list byte) :
  reader_ok r -> stream r = [] ->
  exists r', treeWriter_loop (S fuel) r wb sm = Ret (r', wb, sm, EOF) /\ bufio.rd r' = [].
Proof.
  intros Hok Hs.
  destruct (ReadBytes_eof SP r Hok) as (r1 & Hrun & _ & _ & _ & Hrd).
  { rewrite Hs. simpl. tauto. }
  exists r1. cbn [treeWriter_loop]. rewrite Hrun. cbv beta iota. auto.
Qed.

(** [X14] The length of a line's digest field is not checked when it
    is short.  After whole lines [es], a line whose digest field is the
    hexadecimal form of [d], at most 20 bytes, is accepted: [Write]
    returns [io.EOF] as for any chunk of whole lines, and the entry it
    emits carries 20 bytes, [d] completed with the bytes the scratch
    [sum] still holds, those of the previous line's digest (zeros at
    the start).  What is emitted is split between the file and [wbuf]
    at the length of the chunk. *)
Theorem short_digest_field (es : list entry) (mode ty d name : list byte) :
  Forall encodable es ->
  ~ In SP mode -> ~ In SP ty -> ~ In LF name -> (length d <= 20)%nat ->
  let p := pretty_tree es ++ mode ++ SP :: ty ++ SP :: hex.encoded d ++ TAB :: name ++ [LF] in
  let sm := d ++ skipn (length d) (List.last (map e_digest es) (repeat x00 20)) in
  let W := binary_tree es ++ strip_zero mode ++ SP :: name ++ NUL :: sm in
  treeWriter_Write fresh_treeWriter p
  = Ret (length (firstn (length p) W), Some EOF,
         mkTreeWriter (firstn (length p) W) false [] (skipn (length p) W) sm)
  /\ length sm = 20%nat.
Proof.
  intros Hes Hmode Hty Hname Hd p sm W.
  assert (Hp : (length es + 2 <= S (length p))%nat).
  { unfold p. rewrite length_app. pose proof (pretty_tree_longer es).
    rewrite length_app. simpl. lia. }
  unfold treeWriter_Write, fresh_treeWriter. cbn [rbuf wbuf sum file file_closed app].
  replace (S (length p)) with (length es + S (S (length p - length es - 1)))%nat by lia.
  destruct (treeWriter_loop_prefix es (S (S (length p - length es - 1)))
              (bufio.NewReader p) [] (repeat x00 20)
              (mode ++ SP :: ty ++ SP :: hex.encoded d ++ TAB :: name ++ [LF])
              Hes (NewReader_ok _) (NewReader_stream _) eq_refl)
    as (r1 & Hrun1 & Hok1 & Hs1 & Hl1).
  rewrite Hrun1. rewrite app_nil_l.
  destruct (treeWriter_loop_field (S (length p - length es - 1)) r1 (binary_tree es)
              (List.last (map e_digest es) (repeat x00 20)) mode ty (hex.encoded d) name []
              Hok1 Hmode Hty (encoded_no_TAB _) Hname Hs1)
    as (r3 & r4 & Hok4 & Hs4 & Hrun2).
  rewrite Hrun2. unfold hex.Decode.
  pose proof (Decode_loop_encoded d [] (List.last (map e_digest es) (repeat x00 20))) as Hdec.
  cbn [app length Nat.add] in Hdec. rewrite Hdec by lia. clear Hdec. fold sm.
  destruct (treeWriter_loop_end (length p - length es - 1) r4
              (binary_tree es ++ strip_zero mode ++ SP :: name ++ NUL :: sm) sm Hok4 Hs4)
    as (r5 & Hrun3 & Hrd).
  rewrite Hrun3. unfold mbind, result_bind. cbv beta iota. rewrite Hrd.
  split; [reflexivity|].
  unfold sm. rewrite length_app, length_skipn, Hl1. lia.
Qed.

(** [X15] A digest field that is too long makes [Write] panic: after
    whole lines, a line whose digest field is the hexadecimal form of
    more than 20 bytes runs [hex.Decode] past the 20-byte scratch. *)
Theorem long_digest_field_panics (es : list entry) (mode ty d name rest : list byte) :
  Forall encodable es ->
  ~ In SP mode -> ~ In SP ty -> ~ In LF name -> (20 < length d)%nat ->
  treeWriter_Write fresh_treeWriter
    (pretty_tree es ++ mode ++ SP :: ty ++ SP :: hex.encoded d ++ TAB :: name ++ LF :: rest)
  = Panic "index out of range".
Proof.
  intros Hes Hmode Hty Hname Hd.
  set (p := pretty_tree es ++ _).
  assert (Hp : (length es + 1 <= S (length p))%nat).
  { unfold p. rewrite length_app. pose proof (pretty_tree_longer es). lia. }
  unfold treeWriter_Write, fresh_treeWriter. cbn [rbuf wbuf sum file file_closed app].
  replace (S (length p)) with (length es + S (length p - length es))%nat by lia.
  destruct (treeWriter_loop_prefix es (S (length p - length es))
              (bufio.NewReader p) [] (repeat x00 20) _
              Hes (NewReader_ok _) (NewReader_stream _) eq_refl)
    as (r1 & Hrun1 & Hok1 & Hs1 & Hl1).
  rewrite Hrun1.
  destruct (treeWriter_loop_field (length p - length es) r1 ([] ++ binary_tree es)
              (List.last (map e_digest es) (repeat x00 20)) mode ty (hex.encoded d) name rest
              Hok1 Hmode Hty (encoded_no_TAB _) Hname Hs1)
    as (r3 & r4 & Hok4 & Hs4 & Hrun2).
  rewrite Hrun2. unfold hex.Decode.
  pose proof (Decode_loop_overlong d [] (List.last (map e_digest es) (repeat x00 20))) as Hdec.
  cbn [app length] in Hdec. rewrite Hdec by lia. reflexivity.
Qed.

(** [X16] A byte that is not a hexadecimal digit in the digest field
    ends the [Write] with [hex.InvalidByteError] for that byte: the
    entries of the lines before it are emitted, nothing is emitted for
    the line, and the bytes decoded before the offending one have
    already overwritten the front of the scratch [sum]. *)
Theorem invalid_digest_byte (es : list entry) (mode ty d tl name rest : list byte) (c : byte) :
  Forall encodable es ->
  ~ In SP mode -> ~ In SP ty -> ~ In LF name -> (length d <= 20)%nat ->
  hex.fromHexChar c = None -> c <> TAB -> ~ In TAB tl ->
  exists n g',
    treeWriter_Write fresh_treeWriter
      (pretty_tree es ++ mode ++ SP :: ty ++ SP :: (hex.encoded d ++ c :: tl) ++ TAB :: name ++ LF :: rest)
    = Ret (n, Some (ErrInvalidByte c), g') /\
    file g' = binary_tree es /\ wbuf g' = [] /\
    sum g' = d ++ skipn (length d) (List.last (map e_digest es) (repeat x00 20)).
Proof.
  intros Hes Hmode Hty Hname Hd Hc Hct Htl.
  set (p := pretty_tree es ++ _).
  assert (Hp : (length (pretty_tree es) <= length p)%nat).
  { unfold p. rewrite length_app. lia. }
  pose proof (pretty_tree_longer es) as Hlong.
  pose proof (binary_tree_shorter es) as Hshort.
  unfold treeWriter_Write, fresh_treeWriter. cbn [rbuf wbuf sum file file_closed app].
  replace (S (length p)) with (length es + S (length p - length es))%nat by lia.
  destruct (treeWriter_loop_prefix es (S (length p - length es))
              (bufio.NewReader p) [] (repeat x00 20) _
              Hes (NewReader_ok _) (NewReader_stream _) eq_refl)
    as (r1 & Hrun1 & Hok1 & Hs1 & Hl1).
  rewrite Hrun1.
  assert (Hhx : ~ In TAB (hex.encoded d ++ c :: tl)).
  { intros Hin. apply in_app_or in Hin as [Hin|[Hin|Hin]];
      [now apply encoded_no_TAB in Hin | congruence | contradiction]. }
  destruct (treeWriter_loop_field (length p - length es) r1 ([] ++ binary_tree es)
              (List.last (map e_digest es) (repeat x00 20)) mode ty _ name rest
              Hok1 Hmode Hty Hhx Hname Hs1)
    as (r3 & r4 & Hok4 & Hs4 & Hrun2).
  rewrite Hrun2. unfold hex.Decode.
  pose proof (Decode_loop_invalid d c tl Hc [] (List.last (map e_digest es) (repeat x00 20))) as Hdec.
  cbn [app length Nat.add] in Hdec. rewrite Hdec by lia.
  unfold mbind, result_bind. cbv beta iota.
  eexists _, _. split; [reflexivity|]. cbn [file wbuf sum]. rewrite !app_nil_l.
  rewrite firstn_all2 by lia. rewrite skipn_all2 by lia. auto.
Qed.

(** ** A chunk that ends inside a line *)

Lemma first_split (c : byte) (s : list byte) :
  ~ In c s \/ exists pre post, s = pre ++ c :: post /\ ~ In c pre.
Proof.
  destruct (IndexByte s c) as [i|] eqn:E.
  - right. destruct (IndexByte_Some s c i E) as (post & Hs & Hn & _). eauto.
  - left. now apply IndexByte_None.
Qed.

(** The loop on a stream without a line end emits nothing. *)
Lemma treeWriter_loop_partial (fuel : nat) (r : bufio.Reader) (wb sm : list byte) :
  reader_ok r -> ~ In LF (stream r) ->
  (In TAB (stream r) /\ exists m, treeWriter_loop (S fuel) r wb sm = Panic m) \/
  (exists r' sm' e,
     treeWriter_loop (S fuel) r wb sm = Ret (r', wb, sm', e) /\
     (~ In TAB (stream r) -> e = EOF /\ sm' = sm /\ bufio.rd r' = [])).
Proof.
  intros Hok Hlf.
  remember (treeWriter_loop (S fuel) r wb sm) as L eqn:HL.
  cbn [treeWriter_loop] in HL.
  destruct (first_split SP (stream r)) as [Hn1 | (mode & post1 & Hs1 & Hn1)].
  { destruct (ReadBytes_eof SP r Hok Hn1) as (r1 & Hrun & _ & _ & _ & Hrd).
    rewrite Hrun in HL. cbv beta iota in HL. right. exists r1, sm, EOF. auto. }
  destruct (ReadBytes_found SP r mode post1 Hok Hs1 Hn1) as (r1 & Hrun1 & Hok1 & _ & Hst1).
  rewrite Hrun1 in HL. cbv beta iota in HL.
  rewrite trim_mode_snoc in HL. unfold mbind at 1, result_bind at 1 in HL. cbv beta iota in HL.
  destruct (first_split SP post1) as [Hn2 | (ty & post2 & Hs2 & Hn2)].
  { destruct (ReadBytes_eof SP r1 Hok1) as (r2 & Hrun & _ & _ & _ & Hrd);
      [now rewrite Hst1|].
    rewrite Hrun in HL. cbv beta iota in HL. right. exists r2, sm, EOF. auto. }
  destruct (ReadBytes_found SP r1 ty post2 Hok1 (eq_trans Hst1 Hs2) Hn2)
    as (r2 & Hrun2 & Hok2 & _ & Hst2).
  rewrite Hrun2 in HL. cbv beta iota in HL.
  destruct (first_split TAB post2) as [Hn3 | (hx & post3 & Hs3 & Hn3)].
  { destruct (ReadBytes_eof TAB r2 Hok2) as (r3 & Hrun & _ & _ & _ & Hrd);
      [now rewrite Hst2|].
    rewrite Hrun in HL. cbv beta iota in HL. right. exists r3, sm, EOF. auto. }
  assert (Hall : stream r = mode ++ SP :: ty ++ SP :: hx ++ TAB :: post3)
    by (rewrite Hs1, Hs2, Hs3; reflexivity).
  assert (Htab : In TAB (stream r)).
  { rewrite Hall.
    apply in_or_app. right. right. apply in_or_app. right. right.
    apply in_or_app. right. now left. }
  assert (Hlf3 : ~ In LF post3).
  { intros Hin. apply Hlf. rewrite Hall.
    apply in_or_app. right. right. apply in_or_app. right. right.
    apply in_or_app. right. now right. }
  destruct (ReadBytes_found TAB r2 hx post3 Hok2 (eq_trans Hst2 Hs3) Hn3)
    as (r3 & Hrun3 & Hok3 & _ & Hst3).
  rewrite Hrun3 in HL. cbv beta iota in HL.
  rewrite drop_last_snoc in HL. unfold mbind at 1, result_bind at 1 in HL. cbv beta iota in HL.
  destruct (hex.Decode sm hx) as [[[sm' n] [e|]]|m];
    unfold mbind at 1, result_bind at 1 in HL; cbv beta iota in HL.
  - right. exists r3, sm', e. split; [exact HL|]. intros Hno. contradiction.
  - destruct (ReadBytes_eof LF r3 Hok3) as (r4 & Hrun & _ & _ & _ & Hrd);
      [now rewrite Hst3|].
    rewrite Hrun in HL. cbv beta iota in HL.
    right. exists r4, sm', EOF. split; [exact HL|]. intros Hno. contradiction.
  - left. eauto.
Qed.

(** [X17] The part of a chunk after its last line end is dropped.  On a
    tree writer with empty buffers, a [Write] of whole lines followed
    by a tail without a line end, when it returns, has added the
    entries of the whole lines to the file and holds nothing of the
    tail in [wbuf]; when the tail has no tab either (it ends before the
    digest field is complete), the [Write] returns what the [Write] of
    the whole lines alone returns, [io.EOF] and the same state, so the
    rest of the line, written next, is read as the start of a line. *)
Theorem incomplete_line_dropped (es : list entry) (tail f sm : list byte) :
  Forall encodable es -> ~ In LF tail -> length sm = 20%nat ->
  let g := mkTreeWriter f false [] [] sm in
  (forall n e g',
     treeWriter_Write g (pretty_tree es ++ tail) = Ret (n, e, g') ->
     n = length (binary_tree es) /\ file g' = f ++ binary_tree es /\ wbuf g' = []) /\
  (~ In TAB tail ->
   treeWriter_Write g (pretty_tree es ++ tail)
   = Ret (length (binary_tree es), Some EOF,
          mkTreeWriter (f ++ binary_tree es) false [] [] (List.last (map e_digest es) sm))).
Proof.
  intros Hes Hlf Hsm g.
  set (p := pretty_tree es ++ tail).
  pose proof (pretty_tree_longer es) as Hlong.
  pose proof (binary_tree_shorter es) as Hshort.
  assert (Hp : (length (pretty_tree es) <= length p)%nat).
  { unfold p. rewrite length_app. lia. }
  assert (Hw : treeWriter_Write g p
    = '(r, wb, sm, e) ← treeWriter_loop (length es + S (length p - length es))
                          (bufio.NewReader p) [] sm;
      Ret (length (firstn (length p) wb), Some e,
           mkTreeWriter (f ++ firstn (length p) wb) false (bufio.rd r)
                        (skipn (length p) wb) sm)).
  { unfold treeWriter_Write, g. cbn [rbuf wbuf sum file file_closed app].
    replace (S (length p)) with (length es + S (length p - length es))%nat by lia.
    reflexivity. }
  destruct (treeWriter_loop_prefix es (S (length p - length es))
              (bufio.NewReader p) [] sm tail
              Hes (NewReader_ok _) (NewReader_stream _) Hsm)
    as (r1 & Hrun1 & Hok1 & Hs1 & Hl1).
  rewrite Hrun1, app_nil_l in Hw. rewrite <- Hs1 in Hlf.
  destruct (treeWriter_loop_partial (length p - length es) r1 (binary_tree es)
              (List.last (map e_digest es) sm) Hok1 Hlf)
    as [(Htab & m & Hrun2) | (r' & sm' & e' & Hrun2 & Hno)];
    rewrite Hrun2 in Hw; unfold mbind, result_bind in Hw; cbv beta iota in Hw.
  - split.
    + intros n e g' Hr. rewrite Hw in Hr. discriminate.
    + intros Hnt. exfalso. rewrite Hs1 in Htab. contradiction.
  - rewrite firstn_all2, skipn_all2 in Hw by lia.
    split.
    + intros n e g' Hr. rewrite Hw in Hr. injection Hr as <- _ <-. auto.
    + intros Hnt. rewrite <- Hs1 in Hnt. destruct (Hno Hnt) as (-> & -> & Hrd).
      rewrite Hw, Hrd. reflexivity.
Qed.

Lemma hello_entry_encodable : encodable hello_entry.
Proof.
  split; [|split; [|split]]; try (apply IndexByte_None; vm_compute; reflexivity).
  vm_compute. reflexivity.
Qed.

Lemma short_digest_field_witness :
  exists n g',
    treeWriter_Write fresh_treeWriter
      (pretty_tree [hello_entry]
       ++ bytes "100644" ++ SP :: bytes "blob" ++ SP :: hex.encoded [] ++ TAB :: bytes "a" ++ [LF])
    = Ret (n, Some EOF, g') /\
    file g' ++ wbuf g'
    = binary_entry hello_entry ++ bytes "100644 a" ++ NUL :: e_digest hello_entry.
Proof.
  eexists _, _. split.
  - refine (proj1 (short_digest_field [hello_entry] (bytes "100644") (bytes "blob") []
                     (bytes "a") _ _ _ _ _)).
    + constructor; [exact hello_entry_encodable | constructor].
    + apply IndexByte_None. reflexivity.
    + apply IndexByte_None. reflexivity.
    + apply IndexByte_None. reflexivity.
    + simpl. lia.
  - cbn [file wbuf]. rewrite firstn_skipn. vm_compute. reflexivity.
Defined.

Lemma long_digest_field_panics_witness :
  treeWriter_Write fresh_treeWriter
    (pretty_tree []
     ++ bytes "100644" ++ SP :: bytes "blob" ++ SP :: hex.encoded (repeat x00 21)
     ++ TAB :: bytes "a" ++ LF :: [])
  = Panic "index out of range".
Proof.
  apply (long_digest_field_panics [] (bytes "100644") (bytes "blob") (repeat x00 21)
           (bytes "a") []).
  - constructor.
  - apply IndexByte_None. reflexivity.
  - apply IndexByte_None. reflexivity.
  - apply IndexByte_None. reflexivity.
  - simpl. lia.
Defined.

Lemma invalid_digest_byte_witness :
  exists n g',
    treeWriter_Write fresh_treeWriter
      (pretty_tree []
       ++ bytes "100644" ++ SP :: bytes "blob" ++ SP :: (hex.encoded [xab] ++ x67 :: [x30])
       ++ TAB :: bytes "a" ++ LF :: [])
    = Ret (n, Some (ErrInvalidByte x67), g') /\
    file g' = binary_tree [] /\ wbuf g' = [] /\
    sum g' = [xab] ++ skipn (length [xab]) (List.last (map e_digest []) (repeat x00 20)).
Proof.
  apply (invalid_digest_byte [] (bytes "100644") (bytes "blob") [xab] [x30] (bytes "a") [] x67).
  - constructor.
  - apply IndexByte_None. reflexivity.
  - apply IndexByte_None. reflexivity.
  - apply IndexByte_None. reflexivity.
  - simpl. lia.
  - reflexivity.
  - discriminate.
  - apply IndexByte_None. reflexivity.
Defined.

Lemma incomplete_line_dropped_witness :
  treeWriter_Write (mkTreeWriter [] false [] [] (repeat x00 20))
    (pretty_tree [hello_entry] ++ bytes "100644 blob ")
  = Ret (length (binary_tree [hello_entry]), Some EOF,
         mkTreeWriter ([] ++ binary_tree [hello_entry]) false [] []
           (List.last (map e_digest [hello_entry]) (repeat x00 20))).
Proof.
  refine (proj2 (incomplete_line_dropped [hello_entry] (bytes "100644 blob ") []
                   (repeat x00 20) _ _ _) _).
  - constructor; [exact hello_entry_encodable | constructor].
  - apply IndexByte_None. reflexivity.
  - reflexivity.
  - apply IndexByte_None. reflexivity.
Defined.

(** ** The tree decoder on malformed streams *)

Lemma Peek_fill_stops (n : nat) : forall (fuel : nat) (b : bufio.Reader),
  reader_ok b ->
  (bufio.err b = None -> (length (bufio.rd b) < fuel)%nat) ->
  (n <= bufio.Buffered (bufio.Peek_fill fuel n b))%nat
  \/ (bufio.size b <= bufio.Buffered (bufio.Peek_fill fuel n b))%nat
  \/ bufio.err (bufio.Peek_fill fuel n b) = Some EOF.
Proof.
  induction fuel as [|fuel IH]; intros b Hok Hfuel; rewrite Peek_fill_eq.
  all: destruct (bufio.Buffered b <? n)%nat eqn:E1;
    [|apply Nat.ltb_ge in E1; simpl; auto].
  all: destruct (bufio.Buffered b <? bufio.size b)%nat eqn:E2;
    [|apply Nat.ltb_ge in E2; simpl; auto].
  all: destruct (bufio.err b) as [e|] eqn:E3;
    [simpl; destruct Hok as [[Hn|[He _]] _]; [congruence|]; right; right; congruence|].
  all: simpl.
  - specialize (Hfuel eq_refl). lia.
  - apply Nat.ltb_lt in E2.
    destruct (IH (bufio.fill b)) as [Hc|[Hc|Hc]]; auto.
    + now apply fill_ok.
    + intros Hnone. pose proof (fill_progress b E2 Hnone). specialize (Hfuel eq_refl). lia.
    + rewrite fill_size in Hc. auto.
Qed.

(** [Peek(n)] when fewer than [n] bytes are left. *)
Lemma Peek_short (n : nat) (b : bufio.Reader) :
  reader_ok b -> (n <= bufio.size b)%nat -> (length (stream b) < n)%nat ->
  exists x b1, bufio.Peek n b = (x, Some EOF, b1).
Proof.
  intros Hok Hn Hlen.
  destruct (Peek_fill_spec n (S (length (bufio.rd b))) b Hok) as (Hok1 & Hsz & Hstr & _).
  { intros _. lia. }
  pose proof (Peek_fill_stops n (S (length (bufio.rd b))) b Hok ltac:(intros _; lia)) as Hstop.
  unfold bufio.Peek. set (b1 := bufio.Peek_fill (S (length (bufio.rd b))) n b) in *.
  assert (Hb : (bufio.Buffered b1 < n)%nat).
  { unfold bufio.Buffered. rewrite <- Hstr in Hlen. unfold stream in Hlen.
    rewrite length_app in Hlen. lia. }
  destruct Hstop as [Hc|[Hc|Hc]]; [lia|lia|].
  rewrite Hsz. apply Nat.ltb_ge in Hn. rewrite Hn.
  apply Nat.ltb_lt in Hb. rewrite Hb, Hc. eauto.
Qed.

(** The decoding loop on whole entries that fit the caller's buffer,
    followed by anything. *)
Lemma treeReader_loop_prefix (lenp : nat) (es : list entry) :
  forall (fuel : nat) (g : treeReader) (tail : list byte),
  treeReader_ok g -> Forall decodable es ->
  stream (br g) = binary_tree es ++ tail ->
  (length (tr_buf g) + length (pretty_tree es) <= lenp)%nat ->
  exists g',
    treeReader_loop (length es + fuel) lenp g = treeReader_loop fuel lenp g' /\
    treeReader_ok g' /\ stream (br g') = tail /\
    tr_buf g' = tr_buf g ++ pretty_tree es.
Proof.
  induction es as [|e es IH]; intros fuel g tail Hg Hes Hs Hlen.
  - exists g. simpl. rewrite app_nil_r. auto.
  - apply Forall_cons in Hes as [He Hes].
    cbn [binary_tree flat_map] in Hs. rewrite <- app_assoc in Hs.
    cbn [pretty_tree flat_map] in Hlen. rewrite length_app in Hlen.
    assert (Hle : (length (tr_buf g) <= lenp)%nat) by lia.
    destruct (treeReader_loop_step (length es + fuel) lenp g e _ Hg He Hs Hle)
      as (g1 & Hstep & Hg1 & Hs1 & Hb1).
    destruct (IH fuel g1 tail Hg1 Hes Hs1) as (g' & Hrun & Hg' & Hs' & Hb').
    { rewrite Hb1, length_app. unfold pretty_tree. lia. }
    exists g'. cbn [length Nat.add]. rewrite Hstep, Hrun.
    split; [reflexivity|]. split; [exact Hg'|]. split; [exact Hs'|].
    rewrite Hb', Hb1, <- app_assoc. reflexivity.
Qed.

(** The loop at a truncated entry: it ends with [io.EOF], the text
    buffer extended with what was rendered of the entry. *)
Lemma treeReader_loop_truncated (fuel lenp : nat) (g : treeReader) (tail rendered : list byte) :
  treeReader_ok g -> truncated tail rendered ->
  stream (br g) = tail -> (length (tr_buf g) <= lenp)%nat ->
  exists g',
    treeReader_loop (S fuel) lenp g = Ret (Some EOF, g') /\
    tr_buf g' = tr_buf g ++ rendered.
Proof.
  intros (Hok & Hsz & Hhash) Ht Hs Hlen.
  rewrite treeReader_loop_eq. apply Nat.leb_le in Hlen. rewrite Hlen.
  destruct Ht as [tail Hn | mode name rendered Hmode Hr Hname
                 | mode name digest rendered Hmode Hr Hname Hd].
  - rewrite <- Hs in Hn.
    destruct (ReadBytes_eof SP (br g) Hok Hn) as (r1 & Hrun & _).
    rewrite Hrun. cbv beta iota zeta. eexists. split; [reflexivity|].
    cbn [tr_buf]. now rewrite app_nil_r.
  - destruct (ReadBytes_found SP (br g) _ _ Hok Hs Hmode) as (r1 & Hrun1 & Hok1 & Hsz1 & Hs1).
    rewrite Hrun1. cbv beta iota zeta.
    rewrite Hr. unfold mbind at 1, result_bind at 1. cbv beta iota.
    rewrite <- Hs1 in Hname.
    destruct (ReadBytes_eof NUL r1 Hok1 Hname) as (r2 & Hrun2 & _).
    rewrite Hrun2. cbv beta iota zeta. eexists. split; reflexivity.
  - destruct (ReadBytes_found SP (br g) _ _ Hok Hs Hmode) as (r1 & Hrun1 & Hok1 & Hsz1 & Hs1).
    rewrite Hrun1. cbv beta iota zeta.
    rewrite Hr. unfold mbind at 1, result_bind at 1. cbv beta iota.
    destruct (ReadBytes_found NUL r1 _ _ Hok1 Hs1 Hname) as (r2 & Hrun2 & Hok2 & Hsz2 & Hs2).
    rewrite Hrun2. cbv beta iota zeta.
    rewrite drop_last_snoc. unfold mbind at 1, result_bind at 1. cbv beta iota.
    destruct (Peek_short 20 r2 Hok2) as (x & r3 & Hrun3); [lia|rewrite Hs2; lia|].
    rewrite Hrun3. cbv beta iota zeta. eexists. split; reflexivity.
Qed.

(** [X18] A truncated tree is accepted.  When the stream of a pretty
    reader is whole entries followed by an entry cut before its end,
    and the caller's buffer holds the text, [io.Copy] returns no error:
    the copy is the lines of the whole entries followed by the mode and
    type of the cut entry when its mode was complete, a line without
    digest, name and line end.  Bytes after the last entry that hold no
    space are ignored. *)
Theorem truncated_tree_accepted (es : list entry) (tail rendered : list byte)
    (fuel lenp : nat) :
  Forall decodable es -> truncated tail rendered ->
  (length (pretty_tree es) + length rendered <= lenp)%nat ->
  exists r',
    io_Copy (S fuel) lenp (pretty_Reader (binary_tree es ++ tail)) []
    = Ret (pretty_tree es ++ rendered, None, r').
Proof.
  intros Hes Ht Hlen.
  pose proof (pretty_tree_longer es) as Hlong.
  cbn [io_Copy]. unfold Reader_Read, pretty_Reader. cbn [src pretty rt rn].
  unfold treeReader_Read.
  replace (S (S lenp)) with (length es + S (S lenp - length es))%nat by lia.
  destruct (treeReader_loop_prefix lenp es (S (S lenp - length es))
              (fresh_treeReader (binary_tree es ++ tail)) tail
              (fresh_treeReader_ok _) Hes eq_refl)
    as (g1 & Hrun1 & Hg1 & Hs1 & Hb1).
  { cbn [fresh_treeReader tr_buf length]. lia. }
  rewrite Hrun1.
  destruct (treeReader_loop_truncated (S lenp - length es) lenp g1 tail rendered Hg1 Ht Hs1)
    as (g2 & Hrun2 & Hb2).
  { rewrite Hb1. cbn [fresh_treeReader tr_buf app]. lia. }
  rewrite Hrun2. unfold mbind, result_bind. cbv beta iota.
  rewrite Hb2, Hb1. cbn [fresh_treeReader tr_buf app].
  rewrite firstn_all2 by (rewrite length_app; lia).
  eexists. reflexivity.
Qed.

(** [X19] An entry whose stored mode does not start with ['1'] or
    ['4'] makes the pretty reader panic: when the stream is whole
    entries, whose text fits the caller's buffer, followed by such a
    mode (an empty one included) and a space, [Read] panics with
    "unrecognized mode", and so nothing of the entries before it is
    delivered. *)
Theorem unrecognized_mode_panics (es : list entry) (mode rest : list byte) (lenp : nat) :
  Forall decodable es -> ~ In SP mode ->
  hd SP mode <> x31 -> hd SP mode <> x34 ->
  (length (pretty_tree es) <= lenp)%nat ->
  Reader_Read (pretty_Reader (binary_tree es ++ mode ++ SP :: rest)) lenp
  = Panic "unrecognized mode".
Proof.
  intros Hes Hmode H1 H4 Hlen.
  pose proof (pretty_tree_longer es) as Hlong.
  unfold Reader_Read, pretty_Reader. cbn [src pretty rt rn].
  unfold treeReader_Read.
  replace (S (S lenp)) with (length es + S (S lenp - length es))%nat by lia.
  destruct (treeReader_loop_prefix lenp es (S (S lenp - length es))
              (fresh_treeReader (binary_tree es ++ mode ++ SP :: rest)) (mode ++ SP :: rest)
              (fresh_treeReader_ok _) Hes eq_refl)
    as (g1 & Hrun1 & (Hok & Hsz & Hhash) & Hs1 & Hb1).
  { cbn [fresh_treeReader tr_buf length]. lia. }
  rewrite Hrun1. rewrite treeReader_loop_eq.
  assert (Hl : (length (tr_buf g1) <=? lenp)%nat = true).
  { apply Nat.leb_le. rewrite Hb1. cbn [fresh_treeReader tr_buf app]. lia. }
  rewrite Hl.
  destruct (ReadBytes_found SP (br g1) _ _ Hok Hs1 Hmode) as (r1 & Hrun & _).
  rewrite Hrun. cbv beta iota zeta.
  assert (Hr : render_mode (mode ++ [SP]) = Panic "unrecognized mode").
  { unfold render_mode. destruct mode as [|c m]; cbn [app hd] in *.
    - reflexivity.
    - apply byte_eqb_neq in H1, H4. rewrite H1, H4. reflexivity. }
  rewrite Hr. reflexivity.
Qed.

Lemma hello_entry_decodable : decodable hello_entry.
Proof.
  split; [|split; [|split]]; try (apply IndexByte_None; vm_compute; reflexivity).
  - vm_compute. reflexivity.
  - vm_compute. reflexivity.
Qed.

Lemma truncated_tree_accepted_witness :
  exists r',
    io_Copy 1 100 (pretty_Reader (binary_tree [hello_entry] ++ bytes "100644" ++ SP :: bytes "hello")) []
    = Ret (pretty_tree [hello_entry] ++ bytes "100644 blob ", None, r').
Proof.
  apply (truncated_tree_accepted [hello_entry] (bytes "100644" ++ SP :: bytes "hello")
           (bytes "100644 blob ") 0 100).
  - constructor; [exact hello_entry_decodable | constructor].
  - apply truncated_name.
    + apply IndexByte_None. reflexivity.
    + reflexivity.
    + apply IndexByte_None. reflexivity.
  - vm_compute. lia.
Defined.

Lemma unrecognized_mode_panics_witness :
  Reader_Read
    (pretty_Reader (binary_tree [hello_entry]
                    ++ bytes "040000" ++ SP :: bytes "dir" ++ NUL :: repeat x00 20)) 100
  = Panic "unrecognized mode".
Proof.
  apply (unrecognized_mode_panics [hello_entry] (bytes "040000")
           (bytes "dir" ++ NUL :: repeat x00 20) 100).
  - constructor; [exact hello_entry_decodable | constructor].
  - apply IndexByte_None. reflexivity.
  - discriminate.
  - discriminate.
  - vm_compute. lia.
Defined.

(** ** A tree through the store *)

Section TreeStore.
Context `{Zlib}.

Lemma spooling_Writes_run (stg : list byte) (ty : GitType) (ps : list (list byte)) :
  forall (w w' : treeWriter) (g : writer),
  spooling stg ty w g -> treeWriter_Writes w ps = Ret w' ->
  exists g', writer_Writes g ps = Ret g' /\ spooling stg ty w' g'.
Proof.
  induction ps as [|p ps IH]; intros w w' g [-> Hopen] Hrun; simpl in Hrun.
  - injection Hrun as <-. eexists. split; [reflexivity|]. split; auto.
  - destruct (treeWriter_Write w p) as [[[n e] w1]|m] eqn:Ew; simpl in Hrun; [|discriminate].
    destruct (IH w1 w' (mkWriter stg [] false [] (Some w1) ty true)
                (conj eq_refl (eq_trans (treeWriter_Write_open _ _ _ _ _ Ew) Hopen)) Hrun)
      as (g' & Hws & Hsp).
    exists g'. split; [|exact Hsp].
    cbn [writer_Writes]. unfold writer_Write. cbn [wroteHeader negb tw].
    rewrite Ew. exact Hws.
Qed.

Lemma tree_publish (st : memStore) (s : Z) (chunks : list (list entry)) :
  Forall (Forall encodable) chunks ->
  mem_publish st Tree s (map pretty_tree chunks)
  = let B := binary_tree (concat chunks) in
    let F := Header Tree (Z.of_nat (length B)) ++ B in
    let h := hex.EncodeToString (sha1.Sum F) in
    match st !! h with
    | Some _ => Ret (Some (ErrObjectExists h), st, h)
    | None => Ret (None, <[ h := deflate F ]> st, h)
    end.
Proof.
  intros Hes.
  destruct (spooling_start [] Tree s eq_refl) as (g0 & H0 & Hsp0).
  destruct (treeWriter_Writes_lines chunks [] (repeat x00 20) Hes eq_refl) as (sm' & Hws).
  rewrite app_nil_l in Hws.
  destruct (spooling_Writes_run [] Tree _ _ _ g0 Hsp0 Hws) as (g1 & H1 & Hsp1).
  destruct (spooling_Close [] Tree _ g1 Hsp1) as (g2 & H2 & Hh & Hs).
  cbn [file app] in Hh, Hs.
  unfold mem_publish, memStore_Writer. cbn [mc_Writer]. rewrite H0.
  cbn [mbind result_bind]. rewrite H1. cbn [mbind result_bind].
  unfold memCloser_Close. cbn [mc_Writer]. rewrite H2.
  unfold writer_Hash. rewrite Hh, Hs. cbv zeta.
  destruct (st !! _); cbn [mc_Writer]; rewrite Hh; reflexivity.
Qed.

(** [X20] A tree goes through the in-memory store and comes back as
    text.  Chunks of whole pretty lines (well formed, with a mode the
    decoder renders) written as a tree, with any declared size, are
    published under the digest of ["tree <n>\0"] followed by the binary
    tree, [n] its length; [Reader] with [PrettyReader] on that digest
    reports type tree and length [n], and [io.Copy] from it, with any
    buffer size, gives the lines back in normal form and no error. *)
Theorem tree_publish_read_back (st : memStore) (s : Z) (chunks : list (list entry))
    (fuel lenp : nat) :
  let es := concat chunks in
  let B := binary_tree es in
  let h := hex.EncodeToString (sha1.Sum (Header Tree (Z.of_nat (length B)) ++ B)) in
  Forall (Forall (fun e => well_formed e = true /\ renderable e = true)) chunks ->
  Z.of_nat (length B) <= strconv.maxInt -> st !! h = None ->
  (1 <= lenp)%nat -> (length (pretty_tree (map normalize es)) < fuel)%nat ->
  exists st1 r r',
    mem_publish st Tree s (map pretty_tree chunks) = Ret (None, st1, h) /\
    memStore_Reader st1 h true = Ret (inr r) /\
    Reader_Type r = Tree /\ Reader_Len r = Z.of_nat (length B) /\
    io_Copy fuel lenp r [] = Ret (pretty_tree (map normalize es), None, r').
Proof.
  intros es B h Hes Hmax Hfree Hlenp Hfuel.
  assert (Henc : Forall (Forall encodable) chunks).
  { eapply Forall_impl; [exact Hes|]. intros c Hc.
    eapply Forall_impl; [exact Hc|]. intros e [Hw _]. now apply well_formed_encodable. }
  assert (Hdec : Forall decodable (map normalize es)).
  { apply Forall_map. unfold es. apply Forall_concat.
    eapply Forall_impl; [exact Hes|]. intros c Hc.
    eapply Forall_impl; [exact Hc|]. intros e [Hw Hr]. now apply normalize_decodable. }
  rewrite (tree_publish st s chunks Henc). cbv zeta. fold es. fold B. fold h.
  rewrite Hfree.
  destruct (io_Copy_tree lenp true Tree (Z.of_nat (length B)) Hlenp fuel
              (map normalize es) (fresh_treeReader B) [] (fresh_treeReader_ok B) Hdec)
    as (r' & Hcopy).
  { unfold B. rewrite normalize_binary_tree. reflexivity. }
  { cbn [fresh_treeReader tr_buf length]. lia. }
  eexists _, _, r'. split; [reflexivity|].
  unfold memStore_Reader. rewrite (mem_exact _ h _ (lookup_insert_eq _ _ _)).
  unfold open_Reader. rewrite NewReader_framed by lia.
  cbn [andb GitType_eqb]. split; [reflexivity|].
  split; [reflexivity|]. split; [reflexivity|]. exact Hcopy.
Qed.

End TreeStore.

Lemma tree_publish_read_back_witness :
  exists st1 r r',
    @mem_publish stored_codec MemStore Tree (-1) (map pretty_tree [[hello_entry]])
    = Ret (None, st1,
           hex.EncodeToString
             (sha1.Sum (Header Tree (Z.of_nat (length (binary_tree (concat [[hello_entry]]))))
                        ++ binary_tree (concat [[hello_entry]])))) /\
    @memStore_Reader stored_codec st1
      (hex.EncodeToString
         (sha1.Sum (Header Tree (Z.of_nat (length (binary_tree (concat [[hello_entry]]))))
                    ++ binary_tree (concat [[hello_entry]])))) true
    = Ret (inr r) /\
    Reader_Type r = Tree /\
    Reader_Len r = Z.of_nat (length (binary_tree (concat [[hello_entry]]))) /\
    io_Copy 100 7 r [] = Ret (pretty_tree (map normalize (concat [[hello_entry]])), None, r').
Proof.
  apply (@tree_publish_read_back stored_codec MemStore (-1) [[hello_entry]] 100 7).
  - constructor; [|constructor].
    constructor; [|constructor]. split; vm_compute; reflexivity.
  - vm_compute. discriminate.
  - apply lookup_empty.
  - lia.
  - vm_compute. lia.
Defined.

(** ** The order of the candidate loop *)

Lemma filter_Permutation_list (f : string -> bool) (l l' : list string) :
  Permutation l l' -> Permutation (List.filter f l) (List.filter f l').
Proof.
  induction 1 as [|x l l' _ IH|x y l|l l' l'' _ IH1 _ IH2]; simpl.
  - constructor.
  - destruct (f x); [now constructor|exact IH].
  - destruct (f x), (f y); try reflexivity. apply perm_swap.
  - now transitivity (List.filter f l').
Qed.

Lemma scan_Permutation (hash rest : string) (ns ns' : list string) :
  Permutation ns ns' ->
  (forall e, In e ns -> HasPrefix e rest = true -> e <> ""%string) ->
  scan hash rest ns "" = scan hash rest ns' "".
Proof.
  intros Hp Hne.
  rewrite (scan_start hash rest ns Hne).
  rewrite (scan_start hash rest ns').
  2:{ intros e Hin. apply Hne. eapply Permutation_in; [symmetry; exact Hp|exact Hin]. }
  pose proof (filter_Permutation_list (fun e => HasPrefix e rest) ns ns' Hp) as Hf.
  pose proof (Permutation_length Hf) as Hl.
  destruct (List.filter _ ns) as [|a [|b l]].
  - apply Permutation_nil in Hf. rewrite Hf. reflexivity.
  - apply Permutation_length_1_inv in Hf. rewrite Hf. reflexivity.
  - destruct (List.filter _ ns') as [|a' [|b' l']]; simpl in Hl; try lia. reflexivity.
Qed.

Lemma prefix_of_empty (p : string) : String.prefix p "" = true -> p = ""%string.
Proof. destruct p; [reflexivity|discriminate]. Qed.

(** [X21] The result of [memStore.Object] does not depend on the order
    in which [range] visits the keys of the map: with the keys in any
    order, the candidate loop gives what it gives in the order of the
    model. *)
Theorem range_order_irrelevant (st : memStore) (hash : string) (ns : list string) :
  Permutation ns (mem_keys st) ->
  memStore_Object_ranged ns st hash = memStore_Object st hash.
Proof.
  intros Hp. unfold memStore_Object_ranged, memStore_Object.
  destruct (st !! hash) eqn:Hh; [reflexivity|].
  rewrite (scan_Permutation hash hash ns (mem_keys st) Hp); [reflexivity|].
  intros e Hin Hpre ->. apply prefix_of_empty in Hpre. subst hash.
  apply (Permutation_in _ Hp) in Hin. apply keys_In in Hin.
  rewrite Hh in Hin. now destruct Hin.
Qed.

(** [X22] The result of [DiskStore.Object] does not depend on the
    order in which [Readdirnames] lists the bucket: with the names of
    the bucket in any order, the candidate loop gives what it gives in
    the order of the model. *)
Theorem readdir_order_irrelevant (fs : objects) (hash : string) (ns : list string) :
  (forall m, fs !! substring 0 2 hash = Some (Dir m) -> Permutation ns (Readdirnames m)) ->
  DiskStore_Object_listed ns fs hash = DiskStore_Object fs hash.
Proof.
  intros Hp. unfold DiskStore_Object_listed, DiskStore_Object, split2.
  destruct (String.length hash <? 2)%nat; [reflexivity|].
  cbn [mbind result_bind].
  set (d := substring 0 2 hash) in *. set (rest := substring 2 _ hash).
  unfold os_Open at 1 3.
  destruct (fs !! d) as [[c|m]|] eqn:Hd; [reflexivity| |reflexivity].
  destruct (String.eqb rest "") eqn:Er; [reflexivity|].
  destruct (m !! rest) eqn:Hr; [reflexivity|].
  cbn [os_IsNotExist negb].
  rewrite (scan_Permutation hash rest ns (Readdirnames m) (Hp m eq_refl)); [reflexivity|].
  intros e Hin Hpre ->. apply prefix_of_empty in Hpre.
  apply String.eqb_neq in Er. contradiction.
Qed.

Lemma range_order_irrelevant_witness :
  memStore_Object_ranged [digest2; digest1] sample_mem "8c01"
  = memStore_Object sample_mem "8c01".
Proof.
  apply (range_order_irrelevant sample_mem "8c01" [digest2; digest1]).
  vm_compute. apply perm_swap || reflexivity.
Defined.

Lemma readdir_order_irrelevant_witness :
  DiskStore_Object_listed [substring 2 38 digest2; substring 2 38 digest1] sample_disk "8c01"
  = DiskStore_Object sample_disk "8c01".
Proof.
  apply (readdir_order_irrelevant sample_disk "8c01"
           [substring 2 38 digest2; substring 2 38 digest1]).
  intros m Hm. change (substring 0 2 "8c01") with "8c"%string in Hm.
  unfold sample_disk in Hm. rewrite lookup_singleton_eq in Hm. injection Hm as <-.
  vm_compute. apply perm_swap || reflexivity.
Defined.

(** ** Locating the git directory *)

Section LocateFacts.
Variable ex : list string -> bool.

Lemma GitDir_eq (d : list string) :
  GitDir ex d =
  match Dir_test ex d with
  | Some r => Ret r
  | None =>
      match d with
      | [] | [_] => Panic "not a git repository"
      | _ :: x => GitDir ex x
      end
  end.
Proof. destruct d as [|c [|c' x]]; reflexivity. Qed.

(** [X23] [Dir] returns the git directory of the nearest enclosing
    directory that passes one of its tests, the path itself included
    and the last path [filepath.Dir] reaches excluded unless it is the
    argument: [Dir x] returns [r] exactly when [x] is [up] below a
    directory [d] whose test gives [r] (its [.git] entry if there is
    one, else [d] itself when [config], [HEAD] and [objects] exist)
    while the test fails at every directory between [x] and [d]; in
    every other case it panics. *)
Theorem Dir_nearest (x r : list string) :
  GitDir ex x = Ret r <->
  exists up d,
    x = up ++ d /\ (d <> [] \/ up = []) /\ Dir_test ex d = Some r /\
    forall up1 up2, up = up1 ++ up2 -> up2 <> [] -> Dir_test ex (up2 ++ d) = None.
Proof.
  split.
  - revert r. induction x as [|c x IH]; intros r Hr; rewrite GitDir_eq in Hr.
    + destruct (Dir_test ex []) as [r0|] eqn:T; [|discriminate]. injection Hr as <-.
      exists [], []. split; [reflexivity|]. split; [now right|]. split; [exact T|].
      intros up1 up2 Hup Hne. destruct up1, up2; try discriminate. contradiction.
    + destruct (Dir_test ex (c :: x)) as [r0|] eqn:T.
      * injection Hr as <-. exists [], (c :: x). split; [reflexivity|].
        split; [now left|]. split; [exact T|].
        intros up1 up2 Hup Hne. destruct up1, up2; try discriminate. contradiction.
      * destruct x as [|c' x']; [discriminate|].
        destruct (IH r Hr) as (up & d & Hx & Hd & Ht & Hclose).
        exists (c :: up), d. split; [simpl; now rewrite Hx|].
        split.
        { destruct Hd as [Hd| ->]; [now left|]. left. simpl in Hx. now rewrite <- Hx. }
        split; [exact Ht|].
        intros up1 up2 Hup Hne. destruct up1 as [|c1 up1].
        -- simpl in Hup. subst up2. simpl. rewrite <- Hx. exact T.
        -- injection Hup as _ Hup. now apply (Hclose up1 up2).
  - intros (up & d & -> & Hd & Ht & Hclose). induction up as [|c up IH].
    + simpl. rewrite GitDir_eq, Ht. reflexivity.
    + rewrite GitDir_eq. cbn [app].
      pose proof (Hclose [] (c :: up) eq_refl ltac:(discriminate)) as T.
      cbn [app] in T. rewrite T.
      assert (Hnd : d <> []) by (destruct Hd as [Hd|Hd]; [exact Hd|discriminate]).
      destruct (up ++ d) as [|c' x'] eqn:E.
      { apply app_eq_nil in E as [_ E]. contradiction. }
      apply IH; [now left|].
      intros up1 up2 Hup Hne. apply (Hclose (c :: up1) up2); [|exact Hne].
      simpl. now rewrite Hup.
Qed.

End LocateFacts.

(** [X24] From below, [Dir] never looks into the last directory
    [filepath.Dir] reaches (the root, or ["."] for a relative path): on
    a path of at least one component its outcome is the same in two
    file systems that differ only in the entries of that directory, so
    a repository at the root is found only by [Dir] of the root
    itself. *)
Theorem root_not_examined (ex ex' : list string -> bool) (x : list string) :
  (forall p, (1 < length p)%nat -> ex p = ex' p) -> x <> [] ->
  GitDir ex x = GitDir ex' x.
Proof.
  intros Hsame. induction x as [|c x IH]; intros Hx; [contradiction|].
  rewrite !GitDir_eq.
  assert (Ht : Dir_test ex (c :: x) = Dir_test ex' (c :: x)).
  { unfold Dir_test, exists_all, filepath_Join. cbn [forallb].
    rewrite !(Hsame (_ :: c :: x)) by (simpl; lia). reflexivity. }
  rewrite Ht. destruct (Dir_test ex' (c :: x)); [reflexivity|].
  destruct x as [|c' x']; [reflexivity|]. apply IH. discriminate.
Qed.

Lemma root_not_examined_witness :
  GitDir (fun p => match p with [_] => true | _ => false end) ["src"%string]
  = GitDir (fun _ => false) ["src"%string].
Proof.
  apply (root_not_examined (fun p => match p with [_] => true | _ => false end)
           (fun _ => false) ["src"%string]).
  - intros [|a [|b p]] Hp; simpl in Hp; [lia..|reflexivity].
  - discriminate.
Defined.

(** ** A payload of unknown size *)

(** A chunk without a line end and without a tab leaves the tree writer
    as it was. *)
Lemma treeWriter_Write_no_line (f sm p : list byte) :
  ~ In LF p -> ~ In TAB p ->
  treeWriter_Write (mkTreeWriter f false [] [] sm) p
  = Ret (O, Some EOF, mkTreeWriter f false [] [] sm).
Proof.
  intros Hlf Htab. unfold treeWriter_Write. cbn [rbuf wbuf sum file file_closed app].
  destruct (treeWriter_loop_partial (length p) (bufio.NewReader p) [] sm (NewReader_ok p))
    as [(Hin & _) | (r' & sm' & e & Hrun & Hno)].
  - rewrite NewReader_stream. exact Hlf.
  - rewrite NewReader_stream in Hin. contradiction.
  - rewrite NewReader_stream in Hno. destruct (Hno Htab) as (-> & -> & Hrd).
    rewrite Hrun. unfold mbind, result_bind. cbv beta iota.
    rewrite firstn_nil, skipn_nil, app_nil_r, Hrd. reflexivity.
Qed.

Section UnknownSize.
Context `{Zlib}.

(** [C4] fails on the code when the size is unknown and the type is
    not a tree.  [WriteHeader] with a negative size installs the tree
    transcoder for every type, so the payload is not spooled as it is:
    a payload without a line end and without a tab, of any length, is
    dropped by [Write] (which returns 0 and [io.EOF]), the temporary
    file stays empty, and [Close] emits the header with length 0 and no
    payload.  The object staged and hashed is the empty object of the
    type, whatever was written. *)
Theorem unknown_size_payload_lost (stg : list byte) (ty : GitType) (s : Z) (p : list byte) :
  s < 0 -> ~ In LF p -> ~ In TAB p ->
  exists g0 g1 g2,
    writer_WriteHeader (NewWriter stg) ty s = Ret (O, None, g0) /\
    writer_Write g0 p = Ret (O, Some EOF, g1) /\
    writer_Close g1 = (None, g2) /\
    hh g2 = Header ty 0 /\
    staging g2 = stg ++ deflate (Header ty 0) /\
    writer_Hash g2 = hex.EncodeToString (sha1.Sum (Header ty 0)).
Proof.
  intros Hs Hlf Htab.
  destruct (spooling_start stg ty s) as (g0 & H0 & Hsp0).
  { apply orb_true_iff. right. now apply Z.ltb_lt. }
  destruct Hsp0 as [-> Hopen].
  assert (Hw : writer_Write (mkWriter stg [] false [] (Some fresh_treeWriter) ty true) p
               = Ret (O, Some EOF, mkWriter stg [] false [] (Some fresh_treeWriter) ty true)).
  { unfold writer_Write. cbn [wroteHeader negb tw]. unfold fresh_treeWriter.
    rewrite (treeWriter_Write_no_line [] (repeat x00 20) p Hlf Htab). reflexivity. }
  destruct (spooling_Close stg ty fresh_treeWriter _ (conj eq_refl Hopen))
    as (g2 & H2 & Hh & Hst).
  cbn [fresh_treeWriter file length Z.of_nat] in Hh, Hst. rewrite app_nil_r in Hh, Hst.
  eexists _, _, g2. split; [exact H0|]. split; [exact Hw|]. split; [exact H2|].
  split; [exact Hh|]. split; [exact Hst|]. unfold writer_Hash. now rewrite Hh.
Qed.

End UnknownSize.

(** The blob [hello] written with an unknown size is published as the
    empty blob. *)
Lemma unknown_size_payload_lost_witness :
  exists g0 g1 g2,
    writer_WriteHeader (NewWriter []) Blob (-1) = Ret (O, None, g0) /\
    writer_Write g0 (bytes "hello") = Ret (O, Some EOF, g1) /\
    @writer_Close stored_codec g1 = (None, g2) /\
    hh g2 = bytes "blob 0" ++ [NUL] /\
    writer_Hash g2 = "e69de29bb2d1d6434b8b29ae775ad8c2e48c5391"%string.
Proof.
  destruct (@unknown_size_payload_lost stored_codec [] Blob (-1) (bytes "hello"))
    as (g0 & g1 & g2 & H0 & H1 & H2 & Hh & _ & Hhash).
  - lia.
  - apply IndexByte_None. reflexivity.
  - apply IndexByte_None. reflexivity.
  - exists g0, g1, g2. split; [exact H0|]. split; [exact H1|]. split; [exact H2|].
    split; [rewrite Hh; reflexivity|]. rewrite Hhash. vm_compute. reflexivity.
Defined.
